(** * Road-distance rings and deforestation overlay: a shallow embedding

    The pipeline scripts [scripts/03_create_buffers.py],
    [scripts/04_intersection.py], [scripts/05_precompute_intersections.py]
    and [scripts/06_build_duckdb.py] are embedded as Rocq functions, and
    with them the column lookup and the AOI selection of
    [scripts/01_prepare_osm_rr.py], the year column of
    [scripts/02_prepare_prodes_rr.py], [scripts/04_analyze_deforestation.py],
    and the aggregate queries of [app.py] and [doc.py].

    Geometries are finite sets of points of a countable type [P] (an exact,
    idealised raster): [unary_union] is [⋃], [intersection] is [∩],
    [difference] is [∖], and a geometry is empty when it is [∅].  The
    operations of the geometry library that have no set-theoretic reading
    ([buffer], [envelope], [area], ...) are section variables, with the
    library facts a proof needs as section hypotheses.  Python floats are
    exact rationals ([Qc]). *)

From Stdlib Require Import Ascii QArith Qcanon.
From stdpp Require Import base numbers list sorting gmap strings pretty.

Local Open Scope Qc_scope.

(** ** Python exceptions and the logging/erroring run monad *)

Inductive exc : Type :=
  | SystemExit (msg : string)      (* [err]: print to stderr, [sys.exit(1)] *)
  | NameError (name : string)
  | ValueError (msg : string)
  | RuntimeError (msg : string)
  | LibraryError.                   (* an exception raised inside geopandas *)

Inductive res (A : Type) : Type :=
  | Ok (a : A)
  | Raise (e : exc).
Arguments Ok {A} a.
Arguments Raise {A} e.

(** What the scripts print: [info] and [warn] lines, kept structured. *)
Inductive msg : Type :=
  | MLote (i j total : nat) (d_m : Qc)
  | MCriando (d : Qc) (chunk_size : Z)
  | MNenhumaGeometria (d : Qc)
  | MSalvo (path : string)
  | MOverlayFalhou
  | MIntersecaoVazia
  | MTexto (s : string).

Inductive event : Type :=
  | Info (m : msg)
  | Warn (m : msg).

Record Run (A : Type) : Type := mkRun { log : list event; result : res A }.
Arguments mkRun {A}.
Arguments log {A}.
Arguments result {A}.

Global Instance Run_ret : MRet Run := λ A a, mkRun [] (Ok a).
Global Instance Run_bind : MBind Run := λ A B f m,
  match result m with
  | Ok a => mkRun (log m ++ log (f a)) (result (f a))
  | Raise e => mkRun (log m) (Raise e)
  end.

Definition raise {A} (e : exc) : Run A := mkRun [] (Raise e).
Definition info (m : msg) : Run unit := mkRun [Info m] (Ok tt).
Definition warn (m : msg) : Run unit := mkRun [Warn m] (Ok tt).
Definition err {A} (s : string) : Run A := raise (SystemExit s).

(** ** Numbers and strings as Python formats them *)

(** [int(d)] on a float: truncation toward zero. *)
Definition py_int (d : Qc) : Z := Z.quot (Qnum d) (Zpos (Qden d)).

(** [range(0, total, step)] for a positive step. *)
Definition py_range0 (total step : nat) : list nat :=
  (λ k, k * step)%nat <$> seq 0 ((total + step - 1) `div` step)%nat.

(** [sorted(set(xs))] on floats. *)
Definition sorted_set (xs : list Qc) : list Qc :=
  merge_sort Qcle (remove_dups xs).

(** ** scripts/03_create_buffers.py *)

Record Ring (G : Type) : Type := mkRing {
  ring_id : string;
  min_km : Qc;
  max_km : option Qc;
  geometry : G;
}.
Arguments mkRing {G}.
Arguments ring_id {G}.
Arguments min_km {G}.
Arguments max_km {G}.
Arguments geometry {G}.

Section Geometry.
Context {P : Type} `{Countable P}.

Local Abbreviation Geom := (gset P) (only parsing).

(** [g.buffer(d)] of the geometry library. *)
Variable buffer : Geom → Qc → Geom.

Definition unary_union (gs : list Geom) : Geom := ⋃ gs.

(** [gpd.overlay(df1, df2, how="intersection")] on geometry-only frames:
    one row per pair of rows that intersect, in row order. *)
Definition overlay_geoms (df1 df2 : list Geom) : list Geom :=
  g1 ← df1; g2 ← df2;
  if decide (g1 ∩ g2 = ∅) then [] else [g1 ∩ g2].

(** The body of the [for i in range(0, total, chunk_size)] loop of
    [buffer_in_chunks], for a positive [chunk_size]. *)
Definition lote (roads_m aoi_m : list Geom) (d_m : Qc) (chunk_size : nat)
    (i : nat) : event * option Geom :=
  let total := length roads_m in
  let j := (i + chunk_size) `min` total in
  let buf_geoms := (λ g, buffer g d_m) <$> take (j - i) (drop i roads_m) in
  let lot_union := unary_union buf_geoms in
  let lot_clip := overlay_geoms [lot_union] aoi_m in
  (Info (MLote i j total d_m), head lot_clip).

Definition buffer_in_chunks (roads_m aoi_m : list Geom) (d_m : Qc)
    (chunk_size : Z) : Run (option Geom) :=
  if decide (chunk_size = 0)%Z
  then raise (ValueError "range() arg 3 must not be zero")
  else
    let lotes :=
      if decide (chunk_size < 0)%Z then []
      else lote roads_m aoi_m d_m (Z.to_nat chunk_size)
             <$> py_range0 (length roads_m) (Z.to_nat chunk_size) in
    let parts := omap snd lotes in
    mkRun (fst <$> lotes)
      (Ok (if decide (parts = []) then None else Some (unary_union parts))).

(** *** [main], steps 2 and 3 (lines 107-140), on the loaded and
    reprojected AOI frame and road segments *)

Record Out03 : Type := mkOut03 {
  buffer_files : list (string * (Qc * Geom));  (* roads_buffer_<d>km.shp *)
  rings_file : list (Ring Geom);               (* buffer_rings.shp *)
}.

Definition buffer_path (d : Qc) : string :=
  "roads_buffer_" +:+ pretty (py_int d) +:+ "km.shp".

(** The loop [for d in dists_km] that fills [buffers]. *)
Fixpoint make_buffers (roads_m aoi : list Geom) (chunk_size : Z)
    (dists_km : list Qc) : Run (list (Qc * Geom)) :=
  match dists_km with
  | [] => mret []
  | d :: ds =>
      let d_m := d * Qc_of_Z 1000 in
      info (MCriando d chunk_size);;
      union_buf ← buffer_in_chunks roads_m aoi d_m chunk_size;
      match union_buf with
      | None =>
          warn (MNenhumaGeometria d);;
          make_buffers roads_m aoi chunk_size ds
      | Some g =>
          info (MSalvo (buffer_path d));;
          buffers ← make_buffers roads_m aoi chunk_size ds;
          mret ((d, g) :: buffers)
      end
  end.

(** The loop [for d, g in buffers[1:]] with its [prev_d, prev_g]. *)
Fixpoint middle_rings (prev : Qc * Geom) (bs : list (Qc * Geom))
    : list (Ring Geom) :=
  match bs with
  | [] => []
  | (d, g) :: bs' =>
      mkRing (pretty (py_int prev.1) +:+ "-" +:+ pretty (py_int d) +:+ "km")
             prev.1 (Some d) (g ∖ prev.2)
      :: middle_rings (d, g) bs'
  end.

Definition make_rings (aoi : list Geom) (b0 : Qc * Geom)
    (rest : list (Qc * Geom)) : list (Ring Geom) :=
  let '(d0, g0) := b0 in
  let '(dmax, gmax) := List.last rest b0 in
  let outside := unary_union aoi ∖ gmax in
  mkRing ("0-" +:+ pretty (py_int d0) +:+ "km") 0 (Some d0) g0
  :: middle_rings b0 rest
  ++ [mkRing (">" +:+ pretty (py_int dmax) +:+ "km") dmax None outside].

Definition main (aoi roads_m : list Geom) (dist : list Qc)
    (chunk_size : Z) : Run Out03 :=
  let dists_km := sorted_set dist in
  buffers ← make_buffers roads_m aoi chunk_size dists_km;
  match buffers with
  | [] => err "Não foi possível gerar nenhum buffer. Verifique os dados de estradas."
  | b0 :: rest =>
      let rings := make_rings aoi b0 rest in
      info (MSalvo "buffer_rings.shp");;
      info (MSalvo "buffer_rings_preview.geojson");;
      mret (mkOut03 ((λ b, (buffer_path b.1, b)) <$> buffers) rings)
  end.

End Geometry.

(** ** Data frames of the overlay scripts *)

(** [str.lower()], on the ASCII letters.  A column name equals ["year"]
    after [lower()] exactly when its bytes do after this function: no
    non-ASCII character lower-cases to one of [y], [e], [a], [r]. *)
Definition lower_ascii (c : ascii) : ascii :=
  let n := nat_of_ascii c in
  if (65 <=? n)%nat && (n <=? 90)%nat then ascii_of_nat (n + 32) else c.

Fixpoint lower (s : string) : string :=
  match s with
  | EmptyString => EmptyString
  | String c s' => String (lower_ascii c) (lower s')
  end.

(** [find_year_col] of 04, and the [next(...)] of 05, on the column names. *)
Definition find_year_col (columns : list string) : option string :=
  List.find (λ c, bool_decide (lower c = "year")) columns.

(** [round()] of numpy: to the nearest integer, ties to the even one. *)
Definition round_half_even (q : Qc) : Z :=
  let n := Qnum q in
  let d := Zpos (Qden q) in
  let f := (n `div` d)%Z in
  let r := (n `mod` d)%Z in
  if decide (2 * r < d)%Z then f
  else if decide (d < 2 * r)%Z then (f + 1)%Z
  else if Z.even f then f else (f + 1)%Z.

(** [astype(int)] on a whole-valued finite float: the result is an
    [int64]; a value outside its range does not raise, numpy casts it to
    [-2^63] (on x86-64). *)
Definition astype_int64 (z : Z) : Z :=
  if decide (- 2 ^ 63 ≤ z < 2 ^ 63)%Z then z else (- 2 ^ 63)%Z.

Inductive geom_type : Type := Polygon | MultiPolygon | OtherGeom.

Global Instance geom_type_eq_dec : EqDecision geom_type.
Proof. solve_decision. Defined.

(** A row of [buffer_rings.shp], columns [ring_id] and [geometry]. *)
Record RingRow (G : Type) : Type := mkRingRow {
  rr_id : string;
  rr_geom : G;
}.
Arguments mkRingRow {G}.
Arguments rr_id {G}.
Arguments rr_geom {G}.

(** A deforestation feature: its geometry and its cell in the year column
    (the first column whose name lower-cases to ["year"]); [None] is a
    null (NaN) year.  Other attributes play no part. *)
Record Feature (G : Type) : Type := mkFeature {
  f_year : option Qc;
  f_geom : G;
}.
Arguments mkFeature {G}.
Arguments f_year {G}.
Arguments f_geom {G}.

(** [deforestation_rr.shp]: the column names ([gdf.columns], none of them
    [ring_id]) and the rows. *)
Record Prodes (G : Type) : Type := mkProdes {
  columns : list string;
  features : list (Feature G);
}.
Arguments mkProdes {G}.
Arguments columns {G}.
Arguments features {G}.

(** A row of the overlay result, before [area_ha] is computed. *)
Record Piece (G : Type) : Type := mkPiece {
  p_ring : string;
  p_year : option Qc;
  p_geom : G;
}.
Arguments mkPiece {G}.
Arguments p_ring {G}.
Arguments p_year {G}.
Arguments p_geom {G}.

(** A row of [inter_prodes_rings.parquet]. *)
Record IRow (G : Type) : Type := mkIRow {
  i_ring : string;
  i_year : option Qc;
  i_area : Qc;
  i_geom : G;
}.
Arguments mkIRow {G}.
Arguments i_ring {G}.
Arguments i_year {G}.
Arguments i_area {G}.
Arguments i_geom {G}.

Record Table (R : Type) : Type := mkTable {
  header : list string;
  rows : list R;
}.
Arguments mkTable {R}.
Arguments header {R}.
Arguments rows {R}.

(** The three files an overlay script writes. *)
Record Outputs (G : Type) : Type := mkOutputs {
  inter_parquet : Table (IRow G);              (* inter_prodes_rings.parquet *)
  by_ring_year_csv : Table (string * Qc * Qc); (* ring_id, year, area_ha *)
  by_ring_csv : Table (string * Qc);           (* ring_id, area_ha *)
}.
Arguments mkOutputs {G}.
Arguments inter_parquet {G}.
Arguments by_ring_year_csv {G}.
Arguments by_ring_csv {G}.

(** ** Aggregation: [groupby(...)["area_ha"].sum()] and the sorts *)

(** [sum()] with exact arithmetic: pandas and DuckDB add binary64 floats,
    so an equality between two sums proved here holds of the written
    tables up to floating-point rounding. *)
Definition Qc_sum (l : list Qc) : Qc := foldr Qcplus 0 l.

(** One row per distinct key, with the sum of its values. *)
Definition groupby_sum {K : Type} `{EqDecision K} (kvs : list (K * Qc))
    : list (K * Qc) :=
  (λ k, (k, Qc_sum (snd <$> filter (λ kv, kv.1 = k) kvs)))
    <$> remove_dups (fst <$> kvs).

(** Row orders: by [(ring_id, year)], by [(year, ring_id)], by [ring_id],
    and by [area_ha] descending. *)
Definition ring_year_le (a b : string * Qc * Qc) : Prop :=
  (a.1.1 ≠ b.1.1 ∧ String.le a.1.1 b.1.1) ∨ (a.1.1 = b.1.1 ∧ a.1.2 ≤ b.1.2).
Definition year_ring_le (a b : string * Qc * Qc) : Prop :=
  a.1.2 < b.1.2 ∨ (a.1.2 = b.1.2 ∧ String.le a.1.1 b.1.1).
Definition ring_le (a b : string * Qc) : Prop := String.le a.1 b.1.
Definition area_desc (a b : string * Qc) : Prop := b.2 ≤ a.2.

Global Instance ring_year_le_dec : RelDecision ring_year_le.
Proof. intros a b. unfold ring_year_le. apply _. Defined.
Global Instance year_ring_le_dec : RelDecision year_ring_le.
Proof. intros a b. unfold year_ring_le. apply _. Defined.
Global Instance ring_le_dec : RelDecision ring_le.
Proof. intros a b. unfold ring_le. apply _. Defined.
Global Instance area_desc_dec : RelDecision area_desc.
Proof. intros a b. unfold area_desc. apply _. Defined.

Section Aggregates.
Context {G : Type}.

(** [groupby(["ring_id", year_col])] drops the rows whose year is null. *)
Definition ring_year_key (r : IRow G) : option (string * Qc * Qc) :=
  y ← i_year r; Some (i_ring r, y, i_area r).

(** [inter.groupby(["ring_id", year_col])["area_ha"].sum().reset_index()
      .sort_values([year_col, "ring_id"])]. *)
Definition by_ring_year (inter : list (IRow G)) : list (string * Qc * Qc) :=
  merge_sort year_ring_le
    (merge_sort ring_year_le (groupby_sum (omap ring_year_key inter))).

(** [inter.groupby(["ring_id"])["area_ha"].sum().reset_index()
      .sort_values("area_ha", ascending=False)].  Rings of equal area may
    come out of the sort of pandas in another order than here; the
    properties of this table are stated for its rows, their sums and their
    order by area. *)
Definition by_ring (inter : list (IRow G)) : list (string * Qc) :=
  merge_sort area_desc
    (merge_sort ring_le
       (groupby_sum ((λ r, (i_ring r, i_area r)) <$> inter))).

(** 06: [SELECT ring_id, SUM(area_ha) FROM by_ring_year GROUP BY 1
         ORDER BY ring_id]. *)
Definition by_ring_duckdb (ts : list (string * Qc * Qc))
    : list (string * Qc) :=
  merge_sort ring_le (groupby_sum ((λ t, (t.1.1, t.2)) <$> ts)).

(** [inter[year_col].astype(float).round().astype(int)] inside
    [try/except: pass]: a null year makes the cast raise, and the column is
    left as it was. *)
Definition normalize_year (inter : list (IRow G)) : list (IRow G) :=
  if decide (Forall (λ r, is_Some (i_year r)) inter)
  then (λ r, mkIRow (i_ring r)
               ((λ y, Qc_of_Z (astype_int64 (round_half_even y))) <$> i_year r)
               (i_area r) (i_geom r)) <$> inter
  else inter.

Definition empty_outputs (year_col : string) : Outputs G :=
  mkOutputs (mkTable ["ring_id"; year_col; "area_ha"; "geometry"] [])
            (mkTable ["ring_id"; "year"; "area_ha"] [])
            (mkTable ["ring_id"; "area_ha"] []).

(** Steps 6 and 7: the parquet file and the two aggregates. *)
Definition save_outputs (year_col : string) (inter : list (IRow G))
    : Outputs G :=
  mkOutputs (mkTable ["ring_id"; year_col; "area_ha"; "geometry"] inter)
            (mkTable ["ring_id"; "year"; "area_ha"] (by_ring_year inter))
            (mkTable ["ring_id"; "area_ha"] (by_ring inter)).

End Aggregates.

(** ** scripts/04_intersection.py and scripts/05_precompute_intersections.py *)

(** The names bound at module level in 04_intersection.py: its imports
    (lines 23-27), its constants and its functions.  [unary_union] is not a
    Python builtin. *)
Definition module_names_04 : list string :=
  ["Path"; "sys"; "argparse"; "gpd"; "pd";
   "PROJ"; "DATA_PROC"; "RINGS_PATH"; "PRODES_PATH";
   "OUT_DIR"; "OUT_PARQUET"; "OUT_BY_RING_YEAR"; "OUT_BY_RING";
   "EQUAL_AREA"; "WGS84";
   "info"; "warn"; "err"; "load_gdf"; "find_year_col"; "parse_args"; "main"].

(** Evaluating a global name. *)
Definition lookup_global (names : list string) (x : string) : Run unit :=
  if decide (x ∈ names) then mret tt else raise (NameError x).

(** [load_gdf]: a missing file is fatal.  The file read is taken to carry
    a CRS; for one that does not, the source sets the CRS and prints one
    more warning. *)
Definition load_gdf {A : Type} (file : option A) (label path : string)
    : Run A :=
  match file with
  | None => err (label +:+ " não encontrado: " +:+ path)
  | Some gdf => mret gdf
  end.

Section Overlay.
Context {P : Type} `{Countable P}.
Local Abbreviation Geom := (gset P) (only parsing).

(** The geometry library: [.envelope], [.area] (in m²), [make_valid], the
    parts [explode] splits a geometry into, [.geom_type]. *)
Variable envelope : Geom → Geom.
Variable area : Geom → Qc.
Variable make_valid : Geom → Geom.
Variable explode_parts : Geom → list Geom.
Variable geom_type_of : Geom → geom_type.

(** Whether [gpd.clip] and [gpd.overlay] raise on the given geometries. *)
Variable clip_raises : list Geom → Geom → bool.
Variable overlay_raises : list Geom → list Geom → bool.

(** [gpd.clip(prodes, mask)]: the rows that meet the mask, cut to it.  Rows
    are kept in input order, where geopandas returns them in the order of
    its spatial index; a feature that only touches the mask, which geopandas
    keeps as a line of zero area, has no counterpart among the point sets
    of the raster. *)
Definition clip (prodes : list (Feature Geom)) (mask : Geom)
    : list (Feature Geom) :=
  omap (λ f, if decide (f_geom f ∩ mask = ∅) then None
             else Some (mkFeature (f_year f) (f_geom f ∩ mask))) prodes.

Definition gpd_clip (prodes : list (Feature Geom)) (mask : Geom)
    : Run (list (Feature Geom)) :=
  if clip_raises (f_geom <$> prodes) mask then raise LibraryError
  else mret (clip prodes mask).

(** [gpd.overlay(prodes, rings, how="intersection")]: one row per feature
    and ring that meet, with the ring's [ring_id] and the feature's year. *)
Definition overlay (prodes : list (Feature Geom))
    (rings : list (RingRow Geom)) : list (Piece Geom) :=
  f ← prodes; r ← rings;
  if decide (f_geom f ∩ rr_geom r = ∅) then []
  else [mkPiece (rr_id r) (f_year f) (f_geom f ∩ rr_geom r)].

Definition gpd_overlay (prodes : list (Feature Geom))
    (rings : list (RingRow Geom)) : Run (list (Piece Geom)) :=
  if overlay_raises (f_geom <$> prodes) (rr_geom <$> rings)
  then raise LibraryError
  else mret (overlay prodes rings).

(** [inter["area_ha"] = inter.geometry.area / 10_000.0]. *)
Definition add_area (p : Piece Geom) : IRow Geom :=
  mkIRow (p_ring p) (p_year p) (area (p_geom p) / Qc_of_Z 10000) (p_geom p).

(** *** 04_intersection.py *)

(** Step 3, after the name [unary_union] has been found: the clip to the
    bounding box, with its [except] branch. *)
Definition bbox_clip_04 (prodes : list (Feature Geom))
    (rings : list (RingRow Geom)) : Run (list (Feature Geom)) :=
  let bbox := envelope (unary_union (rr_geom <$> rings)) in
  info (MTexto "Recortando PRODES pela bounding box dos anéis…");;
  if clip_raises (f_geom <$> prodes) bbox
  then if overlay_raises (f_geom <$> prodes) [bbox]
       then raise LibraryError
       else mret (clip prodes bbox)
  else mret (clip prodes bbox).

(** The fallback loop [for _, ring in rings_keep.iterrows()]. *)
Fixpoint clip_by_ring (prodes : list (Feature Geom))
    (rings : list (RingRow Geom)) : Run (list (list (Piece Geom))) :=
  match rings with
  | [] => mret []
  | ring :: rings' =>
      sub ← gpd_clip prodes (rr_geom ring);
      parts ← clip_by_ring prodes rings';
      mret (if decide (sub = []) then parts
            else ((λ f, mkPiece (rr_id ring) (f_year f) (f_geom f)) <$> sub)
                   :: parts)
  end.

(** Step 4: the overlay, with its [except] branch. *)
Definition intersect_04 (prodes : list (Feature Geom))
    (rings : list (RingRow Geom)) : Run (list (Piece Geom)) :=
  info (MTexto "Fazendo interseção espacial (overlay)…");;
  if overlay_raises (f_geom <$> prodes) (rr_geom <$> rings) then
    warn MOverlayFalhou;;
    parts ← clip_by_ring prodes rings;
    if decide (parts = []) then err "Interseção resultou vazia."
    else mret (concat parts)
  else mret (overlay prodes rings).

(** Steps 4 to 7 of [main]. *)
Definition overlay_steps_04 (year_col : string)
    (prodes : list (Feature Geom)) (rings : list (RingRow Geom))
    : Run (Outputs Geom) :=
  inter ← intersect_04 prodes rings;
  if decide (inter = []) then
    warn MIntersecaoVazia;;
    info (MTexto "[OK] Arquivos vazios salvos (sem interseção).");;
    mret (empty_outputs year_col)
  else
    mret (save_outputs year_col (normalize_year (add_area <$> inter))).

Definition main_04 (rings_file : option (list (RingRow Geom)))
    (prodes_file : option (Prodes Geom)) : Run (Outputs Geom) :=
  info (MTexto "Lendo anéis: data/processed/buffers/buffer_rings.shp");;
  rings ← load_gdf rings_file "Anéis" "data/processed/buffers/buffer_rings.shp";
  info (MTexto "Lendo PRODES (RR): data/processed/deforestation_rr.shp");;
  prodes ← load_gdf prodes_file "PRODES" "data/processed/deforestation_rr.shp";
  match find_year_col (columns prodes) with
  | None => err "Coluna 'year' não encontrada no PRODES."
  | Some year_col =>
      lookup_global module_names_04 "unary_union";;
      clipped ← bbox_clip_04 (features prodes) rings;
      overlay_steps_04 year_col clipped rings
  end.

(** *** 05_precompute_intersections.py *)

(** [gdf.explode(index_parts=False, ignore_index=True)]. *)
Definition explode {R : Type} (get : R → Geom) (set : Geom → R → R)
    (gdf : list R) : list R :=
  r ← gdf; (λ g, set g r) <$> explode_parts (get r).

(** [_fix_geoms], for a frame whose rows have a (non-null) geometry. *)
Definition fix_geoms {R : Type} (get : R → Geom) (set : Geom → R → R)
    (gdf : list R) : list R :=
  let gdf := (λ r, set (make_valid (get r)) r) <$> gdf in
  let gdf := explode get set gdf in
  let gdf :=
    filter (λ r, geom_type_of (get r) ∈ [Polygon; MultiPolygon]) gdf in
  if decide (Exists (λ r, geom_type_of (get r) = MultiPolygon) gdf)
  then filter (λ r, geom_type_of (get r) = Polygon) (explode get set gdf)
  else gdf.

Definition set_rr_geom (g : Geom) (r : RingRow Geom) : RingRow Geom :=
  mkRingRow (rr_id r) g.
Definition set_f_geom (g : Geom) (f : Feature Geom) : Feature Geom :=
  mkFeature (f_year f) g.

(** The columns of the overlay of the deforestation frame with the rings. *)
Definition overlay_columns (cols : list string) : list string :=
  filter (λ c, c ≠ "geometry") cols ++ ["ring_id"; "geometry"].

(** The part of the script after the bounding-box clip. *)
Definition overlay_steps_05 (cols : list string)
    (prodes : list (Feature Geom)) (rings : list (RingRow Geom))
    : Run (Outputs Geom) :=
  inter ← gpd_overlay prodes rings;
  if decide (inter = []) then
    warn MIntersecaoVazia;;
    mret (empty_outputs "year")
  else
    match find_year_col (overlay_columns cols) with
    | None =>
        raise (RuntimeError "Coluna 'year' não encontrada no PRODES recortado.")
    | Some year_col =>
        mret (save_outputs year_col (normalize_year (add_area <$> inter)))
    end.

Definition script_05 (rings_file : list (RingRow Geom))
    (prodes_file : Prodes Geom) : Run (Outputs Geom) :=
  let rings := fix_geoms rr_geom set_rr_geom rings_file in
  let prodes := fix_geoms f_geom set_f_geom (features prodes_file) in
  let bbox := envelope (unary_union (rr_geom <$> rings)) in
  clipped ← gpd_clip prodes bbox;
  overlay_steps_05 (columns prodes_file) clipped rings.

End Overlay.

(** ** scripts/03_create_buffers.py: the road frame, the class filter and
    the whole of [main] *)

(** A road segment: its geometry and its cell in the column [fclass]
    ([None] is a null cell). *)
Record Segment (G : Type) : Type := mkSegment {
  fclass : option string;
  seg_geom : G;
}.
Arguments mkSegment {G}.
Arguments fclass {G}.
Arguments seg_geom {G}.

(** [roads_rr.shp]: the column names and the rows. *)
Record Roads (G : Type) : Type := mkRoads {
  road_columns : list string;
  segments : list (Segment G);
}.
Arguments mkRoads {G}.
Arguments road_columns {G}.
Arguments segments {G}.

Section RoadFilter.
Context {G : Type}.

(** [str.lower()] on any text, and the text [astype(str)] gives for a null
    cell. *)
Variable str_lower : string → string.
Variable null_text : string.

Definition astype_str (cell : option string) : string :=
  default null_text cell.

(** [filter_by_fclass].  The message of [info] is kept without the list of
    classes. *)
Definition filter_by_fclass (roads : Roads G) (keep : list string)
    : Run (Roads G) :=
  if decide ("fclass" ∈ road_columns roads) then
    let kk := str_lower <$> keep in
    let m := λ s, str_lower (astype_str (fclass s)) ∈ kk in
    let n0 := length (segments roads) in
    let n1 := length (filter m (segments roads)) in
    info (MTexto ("Filtrando por fclass -> " +:+ pretty n1 +:+ "/"
                    +:+ pretty n0 +:+ " segmentos."));;
    mret (mkRoads (road_columns roads) (filter m (segments roads)))
  else
    warn (MTexto "Coluna 'fclass' não existe; ignorando filtro de classes.");;
    mret roads.

End RoadFilter.

Section MainBuffers.
Context {P : Type} `{Countable P}.
Local Abbreviation Geom := (gset P) (only parsing).
Variable buffer : Geom → Qc → Geom.
Variable str_lower : string → string.
Variable null_text : string.

(** [main] of 03 from the files on: [--road-classes] absent or empty is
    [None] or [Some []]. *)
Definition main_03 (aoi_file : option (list Geom))
    (roads_file : option (Roads Geom)) (dist : list Qc) (chunk_size : Z)
    (road_classes : option (list string)) : Run (Out03 (P:=P)) :=
  aoi ← load_gdf aoi_file "AOI" "data/processed/roraima_aoi.geojson";
  roads ← load_gdf roads_file "Estradas" "data/processed/roads_rr.shp";
  roads ←
    match road_classes with
    | Some (k :: keep) =>
        filtered ← filter_by_fclass str_lower null_text roads (k :: keep);
        if decide (segments filtered = [])
        then err "Filtro por fclass resultou em zero estradas. Remova o filtro ou verifique valores."
        else mret filtered
    | _ => mret roads
    end;
  main buffer aoi (seg_geom <$> segments roads) dist chunk_size.

End MainBuffers.

(** ** scripts/01_prepare_osm_rr.py: [find_col] *)

Section FindCol.
Variable str_lower : string → string.

(** The dict [{c.lower(): c for c in gdf.columns}]. *)
Definition lower_dict (columns : list string) : gmap string string :=
  foldl (λ m c, <[str_lower c := c]> m) ∅ columns.

(** The loop [for c in candidates]. *)
Fixpoint find_col_loop (lower : gmap string string)
    (candidates : list string) : option string :=
  match candidates with
  | [] => None
  | c :: cs =>
      match lower !! str_lower c with
      | Some col => Some col
      | None => find_col_loop lower cs
      end
  end.

Definition find_col (columns candidates : list string) : option string :=
  find_col_loop (lower_dict columns) candidates.

End FindCol.

(** ** scripts/01_prepare_osm_rr.py: the AOI *)

(** A row of the IBGE file: its cells as text ([None] is a null cell), by
    column name, and its geometry. *)
Record UFRow (G : Type) : Type := mkUFRow {
  uf_cell : string → option string;
  uf_geom : G;
}.
Arguments mkUFRow {G}.
Arguments uf_cell {G}.
Arguments uf_geom {G}.

(** The IBGE file: its columns, each with whether its dtype is [object],
    and its rows. *)
Record UFFrame (G : Type) : Type := mkUFFrame {
  uf_columns : list (string * bool);
  uf_rows : list (UFRow G);
}.
Arguments mkUFFrame {G}.
Arguments uf_columns {G}.
Arguments uf_rows {G}.

Definition UF_SIGLA_CANDS : list string :=
  ["SIGLA_UF"; "SIGLA"; "CD_UF"; "UF"; "UF_SIGLA"; "SG_UF"].
Definition UF_NOME_CANDS : list string :=
  ["NM_UF"; "NOME_UF"; "NM_ESTADO"; "NMUF"; "NOME"; "NOME_ESTADO"].

Section PickRR.
Context {P : Type} `{Countable P}.
Local Abbreviation Geom := (gset P) (only parsing).

(** [str.lower()], [str.upper()], [str.strip()], [str.contains(pat)] and
    the text [astype(str)] gives for a null cell. *)
Variable str_lower : string → string.
Variable str_upper : string → string.
Variable str_strip : string → string.
Variable str_contains : string → string → bool.
Variable null_text : string.

(** [rr.dissolve().reset_index(drop=True)], geometry column: one row with
    the union of the geometries. *)
Definition dissolve (rr : list (UFRow Geom)) : list Geom :=
  [unary_union (uf_geom <$> rr)].

(** [ibge[m]] for the mask [m] computed from the text of column [col]. *)
Definition rows_where (ibge : UFFrame Geom) (col : string)
    (test : string → bool) : list (UFRow Geom) :=
  filter (λ r, test (astype_str null_text (uf_cell r col)) = true)
    (uf_rows ibge).

(** The loop [for col in ibge.columns] of the last resort. *)
Fixpoint pick_any_column (ibge : UFFrame Geom)
    (columns : list (string * bool)) : option (list Geom) :=
  match columns with
  | [] => None
  | (col, is_object) :: columns' =>
      let rr :=
        if is_object
        then rows_where ibge col (λ s, str_contains (str_lower s) "roraima")
        else [] in
      if decide (rr = []) then pick_any_column ibge columns'
      else Some (dissolve rr)
  end.

Definition pick_rr_from_ibge (ibge : UFFrame Geom) : option (list Geom) :=
  let names := fst <$> uf_columns ibge in
  let by_sigla :=
    match find_col str_lower names UF_SIGLA_CANDS with
    | Some sigla =>
        if decide (sigla = "") then []
        else rows_where ibge sigla
               (λ s, bool_decide (str_strip (str_upper s) = "RR"))
    | None => []
    end in
  if decide (by_sigla = []) then
    let by_nome :=
      match find_col str_lower names UF_NOME_CANDS with
      | Some nome =>
          if decide (nome = "") then []
          else rows_where ibge nome
                 (λ s, bool_decide (str_strip (str_lower s) = "roraima"))
      | None => []
      end in
    if decide (by_nome = []) then pick_any_column ibge (uf_columns ibge)
    else Some (dissolve by_nome)
  else Some (dissolve by_sigla).

End PickRR.

(** ** scripts/02_prepare_prodes_rr.py: the year column of the summary *)

(** [cols.index(c)]. *)
Definition py_index (c : string) (cols : list string) : option nat :=
  fst <$> list_find (λ x, x = c) cols.

(** The loop [for c in ["year", "ano"]] of step 5. *)
Fixpoint year_col_loop (columns cols candidates : list string)
    : option string :=
  match candidates with
  | [] => None
  | c :: cs =>
      if decide (c ∈ cols) then i ← py_index c cols; columns !! i
      else year_col_loop columns cols cs
  end.

Definition summary_year_col (columns : list string) : option string :=
  year_col_loop columns (lower <$> columns) ["year"; "ano"].


(** ** scripts/04_analyze_deforestation.py *)

(** A deforestation feature with its cell in the class column
    ([--class-field]) when the frame has that column. *)
Record ClassRow (G : Type) : Type := mkClassRow {
  c_class : option string;
  c_feature : Feature G;
}.
Arguments mkClassRow {G}.
Arguments c_class {G}.
Arguments c_feature {G}.

Record ClassProdes (G : Type) : Type := mkClassProdes {
  cp_columns : list string;
  cp_rows : list (ClassRow G);
}.
Arguments mkClassProdes {G}.
Arguments cp_columns {G}.
Arguments cp_rows {G}.

(** The command line: [--year-min], [--year-max], [--class-field],
    [--class-keep], [--preview-n]. *)
Record Args : Type := mkArgs {
  year_min : option Z;
  year_max : option Z;
  class_field : string;
  class_keep : option (list string);
  preview_n : Z;
}.

(** The two tables and the preview file. *)
Record Analysis (G : Type) : Type := mkAnalysis {
  g_year : Table (string * Qc * Qc);
  g_tot : Table (string * Qc);
  preview : list (IRow G);
}.
Arguments mkAnalysis {G}.
Arguments g_year {G}.
Arguments g_tot {G}.
Arguments preview {G}.

(** [str.upper()], on the ASCII letters. *)
Definition upper_ascii (c : ascii) : ascii :=
  let n := nat_of_ascii c in
  if (97 <=? n)%nat && (n <=? 122)%nat then ascii_of_nat (n - 32) else c.

Fixpoint upper (s : string) : string :=
  match s with
  | EmptyString => EmptyString
  | String c s' => String (upper_ascii c) (upper s')
  end.

(** [prodes_m[year_col] >= m] and [<= m] on a cell: false on a null year. *)
Definition year_ge (m : Z) (y : option Qc) : Prop :=
  match y with Some y => Qc_of_Z m ≤ y | None => False end.
Definition year_le (m : Z) (y : option Qc) : Prop :=
  match y with Some y => y ≤ Qc_of_Z m | None => False end.

Global Instance year_ge_dec m y : Decision (year_ge m y).
Proof. destruct y; cbn; apply _. Defined.
Global Instance year_le_dec m y : Decision (year_le m y).
Proof. destruct y; cbn; apply _. Defined.

(** [df.head(n)]: the first [n] rows, or all but the last [-n]. *)
Definition df_head {A : Type} (n : Z) (df : list A) : list A :=
  if decide (0 ≤ n)%Z then take (Z.to_nat n) df
  else take (length df - Z.to_nat (- n)) df.

Section Analyze.
Context {P : Type} `{Countable P}.
Local Abbreviation Geom := (gset P) (only parsing).
Variable area : Geom → Qc.
Variable clip_raises : list Geom → Geom → bool.
Variable overlay_raises : list Geom → list Geom → bool.

(** [str.upper()] on any text, and the text [astype(str)] gives for a null
    cell. *)
Variable str_upper : string → string.
Variable null_text : string.

(** The year filter of step 3. *)
Definition filter_years (args : Args) (prodes_m : list (ClassRow Geom))
    : list (ClassRow Geom) :=
  let prodes_m :=
    match year_min args with
    | Some m => filter (λ r, year_ge m (f_year (c_feature r))) prodes_m
    | None => prodes_m
    end in
  match year_max args with
  | Some m => filter (λ r, year_le m (f_year (c_feature r))) prodes_m
  | None => prodes_m
  end.

(** The class filter of step 3.  The message of [info] is kept without the
    list of classes. *)
Definition filter_class (args : Args) (columns : list string)
    (prodes_m : list (ClassRow Geom)) : Run (list (ClassRow Geom)) :=
  match class_keep args with
  | Some (k :: ks) =>
      let cf := class_field args in
      if decide (cf ∈ columns) then
        let keep := str_upper <$> k :: ks in
        let vals := λ r, str_upper (astype_str null_text (c_class r)) in
        let before := length prodes_m in
        let prodes_m := filter (λ r, vals r ∈ keep) prodes_m in
        info (MTexto ("Filtro de classe: " +:+ pretty (length prodes_m)
                        +:+ "/" +:+ pretty before +:+ " feições mantidas."));;
        mret prodes_m
      else
        warn (MTexto ("Campo de classe '" +:+ cf
                        +:+ "' não existe no PRODES; ignorando filtro de classe."));;
        mret prodes_m
  | _ => mret prodes_m
  end.

(** Step 4: the overlay with its [except] branch, and the check that
    follows. *)
Definition intersect_analyze (prodes_m : list (Feature Geom))
    (rings_m : list (RingRow Geom)) : Run (list (Piece Geom)) :=
  info (MTexto "Fazendo interseção espacial (PRODES ∩ anéis)…");;
  inter ←
    (if overlay_raises (f_geom <$> prodes_m) (rr_geom <$> rings_m) then
       warn MOverlayFalhou;;
       parts ← clip_by_ring clip_raises prodes_m rings_m;
       if decide (parts = []) then err "Interseção resultou vazia."
       else mret (concat parts)
     else mret (overlay prodes_m rings_m));
  if decide (inter = [])
  then err "Interseção resultou vazia. Verifique dados/CRS."
  else mret inter.

(** [main], steps 1 to 7. *)
Definition main_analyze (rings_file : option (list (RingRow Geom)))
    (prodes_file : option (ClassProdes Geom)) (args : Args)
    : Run (Analysis Geom) :=
  rings ← load_gdf rings_file "Anéis" "data/processed/buffers/buffer_rings.shp";
  prodes ← load_gdf prodes_file "PRODES" "data/processed/deforestation_rr.shp";
  match find_year_col (cp_columns prodes) with
  | None => err "Não encontrei coluna 'year' no PRODES. Verifique os campos."
  | Some year_col =>
      let prodes_m := filter_years args (cp_rows prodes) in
      prodes_m ← filter_class args (cp_columns prodes) prodes_m;
      if decide (prodes_m = []) then
        err "PRODES ficou vazio após filtros (ano/classe). Ajuste os parâmetros."
      else
        pieces ← intersect_analyze (c_feature <$> prodes_m) rings;
        let inter := add_area area <$> pieces in
        info (MSalvo "outputs/tabelas/deforestation_by_ring_year.csv");;
        info (MSalvo "outputs/tabelas/deforestation_by_ring_total.csv");;
        info (MSalvo "outputs/mapas/recorte_preview.geojson");;
        mret (mkAnalysis
                (mkTable ["ring_id"; year_col; "area_ha"] (by_ring_year inter))
                (mkTable ["ring_id"; "area_ha"] (by_ring inter))
                (df_head (preview_n args) inter))
  end.

End Analyze.

(** ** app.py: the two queries on the table [by_ring_year] of 06 *)

(** [WHERE year BETWEEN ? AND ? AND ring_id IN (SELECT * FROM UNNEST(?))]. *)
Definition app_where (ymin ymax : Z) (rings_sel : list string)
    (ts : list (string * Qc * Qc)) : list (string * Qc * Qc) :=
  filter (λ t, (Qc_of_Z ymin ≤ t.1.2 ∧ t.1.2 ≤ Qc_of_Z ymax)
               ∧ t.1.1 ∈ rings_sel) ts.

(** [SELECT ring_id, year, area_ha ... ORDER BY year, ring_id]. *)
Definition app_by_ring_year (ymin ymax : Z) (rings_sel : list string)
    (ts : list (string * Qc * Qc)) : list (string * Qc * Qc) :=
  merge_sort year_ring_le (app_where ymin ymax rings_sel ts).

(** [SELECT ring_id, SUM(area_ha) ... GROUP BY 1 ORDER BY ring_id]. *)
Definition app_by_ring (ymin ymax : Z) (rings_sel : list string)
    (ts : list (string * Qc * Qc)) : list (string * Qc) :=
  merge_sort ring_le
    (groupby_sum ((λ t, (t.1.1, t.2)) <$> app_where ymin ymax rings_sel ts)).

(** ** doc.py: the tables of the report *)

(** [SELECT MIN(year), MAX(year) FROM by_ring_year] with the two [int(...)]:
    an empty table gives nulls, whose conversion raises. *)
Definition year_range (ts : list (string * Qc * Qc)) : Run (Z * Z) :=
  let years := merge_sort Qcle ((λ t, t.1.2) <$> ts) in
  match head years, last years with
  | Some y0, Some y1 => mret (py_int y0, py_int y1)
  | _, _ => raise (ValueError "cannot convert float NaN to integer")
  end.

(** Order of the per-year table. *)
Definition by_year_le (a b : Qc * Qc) : Prop := a.1 ≤ b.1.
Global Instance by_year_le_dec : RelDecision by_year_le.
Proof. intros a b. unfold by_year_le. apply _. Defined.

Record ReportTables : Type := mkReportTables {
  rep_window : Z * Z;                       (* y_min, y_max *)
  rep_by_ring_year : list (string * Qc * Qc);
  rep_by_ring : list (string * Qc);
  rep_by_year : list (Qc * Qc);
}.

(** The global aggregates of [build_pdf] and [build_pdf_bytes]. *)
Definition report_tables (years : option (Z * Z))
    (ts : list (string * Qc * Qc)) : Run ReportTables :=
  '(y0, y1) ← year_range ts;
  let '(y_min, y_max) :=
    match years with
    | None => (y0, y1)
    | Some (a, b) => (y0 `max` a, y1 `min` b)%Z
    end in
  let by_ring_year :=
    filter (λ t, Qc_of_Z y_min ≤ t.1.2 ∧ t.1.2 ≤ Qc_of_Z y_max) ts in
  let by_ring :=
    merge_sort ring_le (groupby_sum ((λ t, (t.1.1, t.2)) <$> by_ring_year)) in
  let by_year :=
    merge_sort by_year_le
      (groupby_sum ((λ t, (t.1.2, t.2)) <$> by_ring_year)) in
  mret (mkReportTables (y_min, y_max) by_ring_year by_ring by_year).

(** ** A concrete geometry kernel: a one-dimensional raster of 1 km cells *)

Module Raster.

(** Whole kilometres in a distance given in metres. *)
Definition reach (d_m : Qc) : Z := (Qnum d_m `div` (1000 * Zpos (Qden d_m)))%Z.

Definition around (t y : Z) : gset Z :=
  list_to_set (seqZ (y - t) (2 * t + 1)).

(** Cells within [d_m] metres of a cell of [g]; empty for [d_m ≤ 0]. *)
Definition buffer (g : gset Z) (d_m : Qc) : gset Z :=
  if decide (0 < d_m) then ⋃ (around (reach d_m) <$> elements g) else ∅.

Definition cells (lo hi : Z) : gset Z := list_to_set (seqZ lo (hi - lo + 1)).

(** The interval from the least to the greatest cell. *)
Definition envelope (g : gset Z) : gset Z :=
  match elements g with
  | [] => ∅
  | x :: l => cells (foldr Z.min x l) (foldr Z.max x l)
  end.

(** A cell is 1 km²; areas are in m². *)
Definition area (g : gset Z) : Qc := Qc_of_Z (Z.of_nat (size g) * 1000000).

(** Every cell set is taken as one valid polygon, also a set of separate
    runs of cells, which the geometry library would hold as a multi-polygon
    and [explode] would split. *)
Definition make_valid (g : gset Z) : gset Z := g.
Definition explode_parts (g : gset Z) : list (gset Z) := [g].
Definition geom_type_of (g : gset Z) : geom_type := Polygon.

(** The library never raises, or always does. *)
Definition never {A B : Type} (a : A) (b : B) : bool := false.
Definition always {A B : Type} (a : A) (b : B) : bool := true.

End Raster.

(** * Definitions used to state the properties *)

(** ** The ring builder *)

Section RingSpec.
Context {P : Type} `{Countable P}.
Local Abbreviation Geom := (gset P) (only parsing).
Variable buffer : Geom → Qc → Geom.

(** The non-chunked reference: buffer every segment, union, clip to the
    AOI polygon. *)
Definition buffer_union_clip (roads_m : list Geom) (A : Geom) (d_m : Qc)
    : Geom :=
  ⋃ ((λ g, buffer g d_m) <$> roads_m) ∩ A.

(** [None] for an empty geometry, as [buffer_in_chunks] returns it. *)
Definition nonempty (g : Geom) : option Geom :=
  if decide (g = ∅) then None else Some g.

Definition geom_of (o : option Geom) : Geom := default ∅ o.

(** The entries of [buffers]: the distances whose buffer is not [None]. *)
Definition kept (roads_m aoi : list Geom) (chunk_size : Z) (d : Qc)
    : option (Qc * Geom) :=
  match result (buffer_in_chunks buffer roads_m aoi
                  (d * Qc_of_Z 1000) chunk_size) with
  | Ok (Some g) => Some (d, g)
  | _ => None
  end.

Definition rings_of (aoi : list Geom) (buffers : list (Qc * Geom))
    : res (Out03 (P:=P)) :=
  match buffers with
  | [] => Raise (SystemExit
      "Não foi possível gerar nenhum buffer. Verifique os dados de estradas.")
  | b0 :: rest =>
      Ok (mkOut03 ((λ b, (buffer_path b.1, b)) <$> buffers)
                  (make_rings aoi b0 rest))
  end.

(** The label of a ring, from its bounds. *)
Definition bound_label (lo : Qc) (hi : option Qc) : string :=
  match hi with
  | Some h => pretty (py_int lo) +:+ "-" +:+ pretty (py_int h) +:+ "km"
  | None => ">" +:+ pretty (py_int lo) +:+ "km"
  end.

Definition ring_meta (r : Ring Geom) : string * Qc * option Qc :=
  (ring_id r, min_km r, max_km r).

(** Rings [0..d1], [d1..d2], ..., [dn..] with their labels. *)
Definition expected_meta (ds : list Qc) : list (string * Qc * option Qc) :=
  zip_with (λ lo hi, (bound_label lo hi, lo, hi))
           (0 :: ds) ((Some <$> ds) ++ [None]).

(** A buffer grows with its distance. *)
Definition buffer_mono : Prop :=
  ∀ g d1 d2, d1 ≤ d2 → buffer g d1 ⊆ buffer g d2.

(** Road segments are lines: their buffer by a distance [≤ 0] is empty. *)
Definition buffer_nonpos : Prop := ∀ g d, d ≤ 0 → buffer g d = ∅.

(** Ring [k] is the buffer union for [d_k] minus the one for [d_(k-1)]. *)
Fixpoint annuli (prev : Geom) (Bs : list Geom) : list Geom :=
  match Bs with
  | [] => []
  | B :: Bs' => (B ∖ prev) :: annuli B Bs'
  end.

(** The ring geometries for the buffer unions [Bs] of the ascending
    distances: the first buffer union, the annuli, and the rest of the AOI. *)
Definition ring_geoms (A : Geom) (Bs : list Geom) : list Geom :=
  match Bs with
  | [] => []
  | B1 :: rest => B1 :: annuli B1 rest ++ [A ∖ List.last rest B1]
  end.

(** The buffer union for [d] km is not empty: [buffer_in_chunks] returns a
    geometry. *)
Definition buffer_nonempty (roads_m aoi : list Geom) (chunk_size : Z)
    (d : Qc) : Prop :=
  ∃ g, result (buffer_in_chunks buffer roads_m aoi
                 (d * Qc_of_Z 1000) chunk_size) = Ok (Some g).

Global Instance buffer_nonempty_dec roads_m aoi (chunk_size : Z) d :
  Decision (buffer_nonempty roads_m aoi chunk_size d).
Proof.
  unfold buffer_nonempty.
  destruct (result (buffer_in_chunks buffer roads_m aoi
                      (d * Qc_of_Z 1000) chunk_size)) as [[g|]|e].
  - left. by exists g.
  - right. by intros [g Hg].
  - right. by intros [g Hg].
Defined.

(** A ring for [di] that has degenerated to the AOI minus the rings before
    it. *)
Definition degenerate_ring (aoi : list Geom) (rings : list (Ring Geom))
    (di : Qc) : Prop :=
  ∃ k r, rings !! k = Some r ∧ max_km r = Some di
    ∧ geometry r = unary_union aoi ∖ ⋃ (geometry <$> take k rings).

End RingSpec.

(** ** The aggregates *)

(** The total recorded for a key in an aggregate table. *)
Definition total_for {K : Type} `{EqDecision K} (k : K)
    (table : list (K * Qc)) : Qc :=
  Qc_sum (snd <$> filter (λ kv, kv.1 = k) table).

(** The sum over the rows of one key. *)
Definition key_sum {K : Type} `{EqDecision K} (kvs : list (K * Qc)) (k : K)
    : Qc :=
  Qc_sum (snd <$> filter (λ kv, kv.1 = k) kvs).

(** The sum over the time-series rows of a ring. *)
Definition summed_over_year (ring : string) (ts : list (string * Qc * Qc))
    : Qc :=
  Qc_sum (snd <$> filter (λ t, t.1.1 = ring) ts).

(** ** The overlay scripts *)

Section OverlaySpec.
Context {P : Type} `{Countable P}.
Local Abbreviation Geom := (gset P) (only parsing).
Variable envelope : Geom → Geom.
Variable area : Geom → Qc.
Variable make_valid : Geom → Geom.
Variable explode_parts : Geom → list Geom.
Variable geom_type_of : Geom → geom_type.
Variable clip_raises : list Geom → Geom → bool.
Variable overlay_raises : list Geom → list Geom → bool.

(** The envelope of a geometry contains it. *)
Definition envelope_superset : Prop := ∀ g, g ⊆ envelope g.

(** The empty geometry has area 0, and the area of two disjoint geometries
    is the sum of their areas. *)
Definition area_additive : Prop :=
  area ∅ = 0 ∧ ∀ g1 g2 : Geom, g1 ## g2 → area (g1 ∪ g2) = area g1 + area g2.

(** [main] of 04 with step 3 (the bounding-box clip) left out. *)
Definition main_04_without_preclip
    (rings_file : option (list (RingRow Geom)))
    (prodes_file : option (Prodes Geom)) : Run (Outputs Geom) :=
  info (MTexto "Lendo anéis: data/processed/buffers/buffer_rings.shp");;
  rings ← load_gdf rings_file "Anéis" "data/processed/buffers/buffer_rings.shp";
  info (MTexto "Lendo PRODES (RR): data/processed/deforestation_rr.shp");;
  prodes ← load_gdf prodes_file "PRODES" "data/processed/deforestation_rr.shp";
  match find_year_col (columns prodes) with
  | None => err "Coluna 'year' não encontrada no PRODES."
  | Some year_col =>
      overlay_steps_04 area clip_raises overlay_raises year_col
        (features prodes) rings
  end.

(** The script 05 with the bounding-box clip left out. *)
Definition script_05_without_preclip (rings_file : list (RingRow Geom))
    (prodes_file : Prodes Geom) : Run (Outputs Geom) :=
  let rings :=
    fix_geoms make_valid explode_parts geom_type_of
      rr_geom set_rr_geom rings_file in
  let prodes :=
    fix_geoms make_valid explode_parts geom_type_of
      f_geom set_f_geom (features prodes_file) in
  overlay_steps_05 area overlay_raises (columns prodes_file) prodes rings.

End OverlaySpec.

(** ** Concrete inputs on the raster *)

(** One road cell in the middle of a 101 km strip. *)
Definition demo_aoi : gset Z := Raster.cells 0 100.
Definition demo_roads : list (gset Z) := [{[50%Z]}].
Definition demo_dist : list Qc := [Qc_of_Z 5; Qc_of_Z 10; Qc_of_Z 20].

(** A road 10 km outside a 4 km strip. *)
Definition far_aoi : gset Z := Raster.cells 0 3.
Definition far_roads : list (gset Z) := [{[10%Z]}].

(** Two rings over the 101 km strip; three deforestation polygons, one of
    them across the ring boundary. *)
Definition demo_rings : list (RingRow (gset Z)) :=
  [mkRingRow "0-5km" (Raster.cells 45 55);
   mkRingRow ">5km" (Raster.cells 0 44 ∪ Raster.cells 56 100)].

Definition demo_features : list (Feature (gset Z)) :=
  [mkFeature (Some (Qc_of_Z 2020)) (Raster.cells 50 52);
   mkFeature (Some (Qc_of_Z 2021)) (Raster.cells 54 58);
   mkFeature (Some (Qc_of_Z 2021)) (Raster.cells 60 61)].

Definition demo_prodes : Prodes (gset Z) :=
  mkProdes ["state"; "YEAR"; "geometry"] demo_features.

(** The same polygons in a frame without a year column. *)
Definition demo_prodes_no_year : Prodes (gset Z) :=
  mkProdes ["state"; "geometry"] demo_features.

(** A polygon outside every ring, in a frame without a year column. *)
Definition far_features : list (Feature (gset Z)) :=
  [mkFeature None (Raster.cells 200 201)].

Definition far_prodes_no_year : Prodes (gset Z) :=
  mkProdes ["state"; "geometry"] far_features.

(** A polygon outside every ring, in a frame with a year column. *)
Definition far_prodes : Prodes (gset Z) :=
  mkProdes ["state"; "YEAR"; "geometry"]
    [mkFeature (Some (Qc_of_Z 2020)) (Raster.cells 200 201)].

(** Two polygons of ring [0-5km], the second with a null year. *)
Definition demo_prodes_null_year : Prodes (gset Z) :=
  mkProdes ["state"; "YEAR"; "geometry"]
    [mkFeature (Some (Qc_of_Z 2020)) (Raster.cells 50 52);
     mkFeature None (Raster.cells 53 54)].

(** A frame without a year column and without rows. *)
Definition empty_prodes_no_year : Prodes (gset Z) :=
  mkProdes ["state"; "geometry"] [].

(** The parquet rows of the overlay of [demo_prodes] with [demo_rings]. *)
Definition demo_inter : list (IRow (gset Z)) :=
  [mkIRow "0-5km" (Some (Qc_of_Z 2020)) (Qc_of_Z 300) (Raster.cells 50 52);
   mkIRow "0-5km" (Some (Qc_of_Z 2021)) (Qc_of_Z 200) (Raster.cells 54 55);
   mkIRow ">5km" (Some (Qc_of_Z 2021)) (Qc_of_Z 300) (Raster.cells 56 58);
   mkIRow ">5km" (Some (Qc_of_Z 2021)) (Qc_of_Z 200) (Raster.cells 60 61)].

(** Text functions for the concrete inputs: [strip()] of blanks, and
    [str.contains] of a plain pattern. *)
Fixpoint lstrip (s : string) : string :=
  match s with
  | String " " s' => lstrip s'
  | _ => s
  end.

Definition strip (s : string) : string :=
  String.rev (lstrip (String.rev (lstrip s))).

Fixpoint starts_with (pat s : string) : bool :=
  match pat, s with
  | EmptyString, _ => true
  | String a pat', String b s' => bool_decide (a = b) && starts_with pat' s'
  | String _ _, EmptyString => false
  end.

Fixpoint contains (s pat : string) : bool :=
  starts_with pat s
  || match s with
     | EmptyString => false
     | String _ s' => contains s' pat
     end.

(** An IBGE file with two states. *)
Definition demo_ibge : UFFrame (gset Z) :=
  mkUFFrame [("SIGLA_UF", true); ("NM_UF", true); ("AREA_KM2", false)]
    [mkUFRow (λ c, if decide (c = "SIGLA_UF") then Some "AM"
                   else if decide (c = "NM_UF") then Some "Amazonas"
                   else None) (Raster.cells 101 200);
     mkUFRow (λ c, if decide (c = "SIGLA_UF") then Some " rr "
                   else if decide (c = "NM_UF") then Some "Roraima"
                   else None) (Raster.cells 0 100)].

(** A time-series table as 06 stores it. *)
Definition demo_ts : list (string * Qc * Qc) :=
  [("0-5km", Qc_of_Z 2020, Qc_of_Z 300);
   ("0-5km", Qc_of_Z 2021, Qc_of_Z 200);
   (">5km", Qc_of_Z 2021, Qc_of_Z 500)].

Definition demo_report : ReportTables :=
  match result (report_tables (Some (2019, 2020)%Z) demo_ts) with
  | Ok rep => rep
  | Raise _ => mkReportTables (0, 0)%Z [] [] []
  end.

(** The files the ring builder writes for the strip. *)
Definition demo_out : Out03 (P:=Z) :=
  match result (main Raster.buffer [demo_aoi] demo_roads demo_dist 1) with
  | Ok out => out
  | Raise _ => mkOut03 [] []
  end.

(** Three road cells, and a road frame with a class column. *)
Definition demo_roads3 : list (gset Z) := [{[10%Z]}; {[50%Z]}; {[90%Z]}].

Definition demo_road_frame : Roads (gset Z) :=
  mkRoads ["osm_id"; "fclass"; "geometry"]
    [mkSegment (Some "primary") {[50%Z]};
     mkSegment (Some "Track") {[10%Z]};
     mkSegment None {[90%Z]}].

Definition demo_road_frame_no_class : Roads (gset Z) :=
  mkRoads ["osm_id"; "geometry"] (segments demo_road_frame).

(** The deforestation polygons in a frame whose year column is [ANO]. *)
Definition demo_prodes_ano : Prodes (gset Z) :=
  mkProdes ["state"; "ANO"; "geometry"] demo_features.

(** The deforestation polygons with a class column, and two command
    lines of the analysis script. *)
Definition demo_class_prodes : ClassProdes (gset Z) :=
  mkClassProdes ["main_class"; "year"; "geometry"]
    (mkClassRow (Some "desmatamento") <$> demo_features).

Definition demo_args : Args :=
  mkArgs (Some 2021%Z) (Some 2024%Z) "main_class" (Some ["DESMATAMENTO"])
    500.

Definition demo_args_empty_window : Args :=
  mkArgs (Some 2024%Z) (Some 2019%Z) "main_class" None 500.

Definition demo_analysis : Analysis (gset Z) :=
  match result (main_analyze Raster.area Raster.never Raster.never upper
                  "None" (Some demo_rings) (Some demo_class_prodes)
                  demo_args) with
  | Ok out => out
  | Raise _ => mkAnalysis (mkTable [] []) (mkTable [] []) []
  end.

(** The files steps 4 to 7 of 04 write for the polygons and the rings. *)
Definition demo_outputs : Outputs (gset Z) :=
  match result (overlay_steps_04 Raster.area Raster.never Raster.never
                  "YEAR" demo_features demo_rings) with
  | Ok out => out
  | Raise _ => empty_outputs "YEAR"
  end.

(** * Properties of [sorted(set(...))] *)

Section Distances.

Lemma elem_of_sorted_set d xs : d ∈ sorted_set xs ↔ d ∈ xs.
Proof.
  unfold sorted_set. by rewrite merge_sort_Permutation, elem_of_remove_dups.
Qed.

Lemma sorted_set_NoDup xs : NoDup (sorted_set xs).
Proof.
  unfold sorted_set. rewrite merge_sort_Permutation. apply NoDup_remove_dups.
Qed.

Lemma sorted_set_Sorted xs : Sorted Qcle (sorted_set xs).
Proof. apply (Sorted_merge_sort Qcle). Qed.

Lemma sorted_set_ext xs ys :
  (∀ d, d ∈ xs ↔ d ∈ ys) → sorted_set xs = sorted_set ys.
Proof.
  intros Hxy. apply (Sorted_unique Qcle); try apply sorted_set_Sorted.
  apply NoDup_Permutation; try apply sorted_set_NoDup.
  intros d. by rewrite !elem_of_sorted_set.
Qed.

Lemma strict_NoDup (xs : list Qc) : StronglySorted Qclt xs → NoDup xs.
Proof.
  induction 1 as [|x xs _ IH Hx]; constructor; [|done].
  intros Hin. rewrite Forall_forall in Hx.
  by apply (Qclt_not_eq x x); [apply Hx|].
Qed.

Lemma strict_Sorted_le (xs : list Qc) :
  StronglySorted Qclt xs → Sorted Qcle xs.
Proof.
  intros Hs. apply StronglySorted_Sorted.
  induction Hs as [|x xs _ IH Hx]; constructor; [done|].
  eapply Forall_impl; [exact Hx|]. intros y. apply Qclt_le_weak.
Qed.

(** An ascending list without duplicates is left as it is. *)
Lemma sorted_set_ascending xs : StronglySorted Qclt xs → sorted_set xs = xs.
Proof.
  intros Hs. apply (Sorted_unique Qcle).
  - apply sorted_set_Sorted.
  - by apply strict_Sorted_le.
  - unfold sorted_set. rewrite merge_sort_Permutation.
    apply NoDup_Permutation; [apply NoDup_remove_dups|by apply strict_NoDup|].
    intros d. apply elem_of_remove_dups.
Qed.

Lemma sorted_set_strict xs : StronglySorted Qclt (sorted_set xs).
Proof.
  pose proof (sorted_set_NoDup xs) as Hnd.
  pose proof (Sorted_StronglySorted Qcle _ (sorted_set_Sorted xs)) as Hs.
  induction Hs as [|x l _ IH Hx]; constructor.
  - apply IH. by inversion Hnd.
  - inversion Hnd as [|?? Hnotin _]; subst.
    rewrite Forall_forall in Hx |- *. intros y Hy.
    destruct (Qcle_lt_or_eq _ _ (Hx y Hy)) as [Hlt|Heq]; [done|].
    subst y. by destruct Hnotin.
Qed.

Lemma StronglySorted_filter {A} (R : relation A) (Q : A → Prop)
    `{∀ x, Decision (Q x)} (l : list A) :
  StronglySorted R l → StronglySorted R (filter Q l).
Proof.
  induction 1 as [|x l _ IH Hx]; [constructor|].
  rewrite filter_cons. case_decide; [|done]. constructor; [done|].
  rewrite Forall_forall in Hx |- *. intros y Hy.
  apply list_elem_of_filter in Hy as [_ Hy]. by apply Hx.
Qed.

(** Dropping a distance from the input drops it from the sorted list. *)
Lemma sorted_set_filter (Q : Qc → Prop) `{∀ x, Decision (Q x)} xs :
  sorted_set (filter Q xs) = filter Q (sorted_set xs).
Proof.
  apply (Sorted_unique Qcle); [apply sorted_set_Sorted| |].
  - apply strict_Sorted_le, StronglySorted_filter, sorted_set_strict.
  - apply NoDup_Permutation.
    + apply sorted_set_NoDup.
    + apply NoDup_filter, sorted_set_NoDup.
    + intros d. by rewrite elem_of_sorted_set, !list_elem_of_filter,
        elem_of_sorted_set.
Qed.

End Distances.

(** * Properties of the ring builder *)

Section RingBuilder.
Context {P : Type} `{Countable P}.
Local Abbreviation Geom := (gset P) (only parsing).
Variable buffer : Geom → Qc → Geom.

Lemma geom_of_nonempty (g : Geom) : geom_of (nonempty g) = g.
Proof. unfold nonempty. by case_decide. Qed.

(** *** The batches cover the road list *)

Lemma slice_take {A} (l : list A) i c :
  take ((i + c) `min` length l - i) (drop i l) = take c (drop i l).
Proof.
  destruct (decide (i + c ≤ length l)%nat).
  - f_equal. lia.
  - rewrite !take_ge; [done| |]; rewrite length_drop; lia.
Qed.

Lemma concat_slices {A} (l : list A) c m :
  concat ((λ i, take c (drop i l)) <$> ((λ k, k * c)%nat <$> seq 0 m))
  = take (m * c) l.
Proof.
  induction m as [|m IH]; [done|].
  rewrite seq_S, !fmap_app, concat_app, IH. simpl.
  rewrite app_nil_r, take_take_drop. f_equal. lia.
Qed.

Lemma range_covers (n c : nat) :
  (0 < c)%nat → (n ≤ (n + c - 1) `div` c * c)%nat.
Proof.
  intros Hc.
  pose proof (Nat.div_mod (n + c - 1) c ltac:(lia)) as Hdm.
  pose proof (Nat.mod_upper_bound (n + c - 1) c ltac:(lia)). nia.
Qed.

Lemma concat_lotes {A} (l : list A) c :
  (0 < c)%nat →
  concat ((λ i, take ((i + c) `min` length l - i) (drop i l))
            <$> py_range0 (length l) c) = l.
Proof.
  intros Hc. unfold py_range0.
  erewrite (list_fmap_ext _ (λ i, take c (drop i l))); [|intros; apply slice_take].
  rewrite concat_slices, take_ge; [done|]. by apply range_covers.
Qed.

(** *** [buffer_in_chunks] against a single-polygon AOI *)

Lemma union_omap_nonempty (gs : list Geom) : ⋃ omap nonempty gs = ⋃ gs.
Proof.
  induction gs as [|g gs IH]; [done|]. cbn [omap list_omap].
  unfold nonempty at 1. destruct (decide (g = ∅)) as [Hg|Hg].
  - rewrite IH, Hg, union_list_cons. set_solver.
  - by rewrite !union_list_cons, IH.
Qed.

Lemma omap_nonempty_nil (gs : list Geom) :
  omap nonempty gs = [] ↔ ⋃ gs = ∅.
Proof.
  induction gs as [|g gs IH]; [done|]. cbn [omap list_omap].
  unfold nonempty at 1. rewrite union_list_cons.
  destruct (decide (g = ∅)) as [Hg|Hg].
  - rewrite IH, Hg. set_solver.
  - split; [done|]. intros Hu. destruct Hg. set_solver.
Qed.

Lemma parts_nonempty (gs : list Geom) :
  (if decide (omap nonempty gs = []) then None
   else Some (unary_union (omap nonempty gs))) = nonempty (⋃ gs).
Proof.
  unfold unary_union. rewrite union_omap_nonempty.
  destruct (decide (omap nonempty gs = [])) as [Hn|Hn];
    rewrite omap_nonempty_nil in Hn; unfold nonempty; by case_decide.
Qed.

Lemma union_list_inter (gs : list Geom) (A : Geom) :
  ⋃ ((λ g, g ∩ A) <$> gs) = ⋃ gs ∩ A.
Proof.
  induction gs as [|g gs IH]; [set_solver|].
  rewrite fmap_cons, !union_list_cons, IH. set_solver.
Qed.

Lemma union_list_concat (gss : list (list Geom)) :
  ⋃ (union_list <$> gss) = ⋃ concat gss.
Proof.
  induction gss as [|gs gss IH]; [done|].
  by rewrite fmap_cons, union_list_cons, IH, concat_cons, union_list_app_L.
Qed.

Lemma fmap_concat {A B} (f : A → B) (ls : list (list A)) :
  f <$> concat ls = concat (fmap (M:=list) f <$> ls).
Proof.
  induction ls as [|l ls IH]; [done|].
  by rewrite fmap_cons, !concat_cons, fmap_app, IH.
Qed.

Lemma overlay_geoms_single (U A : Geom) :
  head (overlay_geoms [U] [A]) = nonempty (U ∩ A).
Proof. unfold overlay_geoms, nonempty. simpl. by case_decide. Qed.

Lemma buffer_in_chunks_single roads_m (A : Geom) d_m (chunk_size : Z) :
  (0 < chunk_size)%Z →
  result (buffer_in_chunks buffer roads_m [A] d_m chunk_size)
  = Ok (nonempty (buffer_union_clip buffer roads_m A d_m)).
Proof.
  intros Hc. unfold buffer_in_chunks.
  rewrite decide_False, decide_False by lia. simpl. f_equal.
  set (c := Z.to_nat chunk_size). assert (0 < c)%nat as Hc' by lia.
  set (slice i := take ((i + c) `min` length roads_m - i) (drop i roads_m)).
  set (Us := (λ i, ⋃ ((λ g, buffer g d_m) <$> slice i))
               <$> py_range0 (length roads_m) c).
  assert (omap snd (lote buffer roads_m [A] d_m c
                      <$> py_range0 (length roads_m) c)
          = omap nonempty ((λ g, g ∩ A) <$> Us)) as ->.
  { unfold Us. rewrite <-!list_fmap_compose.
    induction (py_range0 (length roads_m) c) as [|i rest IH]; [done|].
    rewrite !fmap_cons. cbn [omap list_omap]. rewrite IH.
    unfold lote at 1. cbn [snd compose]. by rewrite overlay_geoms_single. }
  rewrite parts_nonempty, union_list_inter. f_equal.
  unfold buffer_union_clip. f_equal.
  assert (Us = union_list <$> (fmap (M:=list) (λ g, buffer g d_m)
                 <$> (slice <$> py_range0 (length roads_m) c))) as ->.
  { unfold Us. by rewrite <-!list_fmap_compose. }
  rewrite union_list_concat, <-fmap_concat. unfold slice.
  by rewrite concat_lotes.
Qed.

(** *** What [main] computes *)

Lemma result_bind {A B} (m : Run A) (f : A → Run B) :
  result (m ≫= f)
  = match result m with Ok a => result (f a) | Raise e => Raise e end.
Proof. unfold mbind, Run_bind. by destruct (result m). Qed.

Lemma run_ret_bind {A B} (a : A) (k : A → Run B) : (mret a ≫= k) = k a.
Proof. unfold mbind, Run_bind, mret, Run_ret. cbn. by destruct (k a). Qed.

Lemma log_bind_ok {A B} (m : Run A) (f : A → Run B) a :
  result m = Ok a → log (m ≫= f) = log m ++ log (f a).
Proof. unfold mbind, Run_bind. by intros ->. Qed.

Lemma buffer_in_chunks_ok roads_m aoi d_m (chunk_size : Z) :
  chunk_size ≠ 0%Z →
  ∃ o, result (buffer_in_chunks buffer roads_m aoi d_m chunk_size) = Ok o.
Proof.
  intros Hc. unfold buffer_in_chunks. rewrite decide_False by done.
  simpl. eauto.
Qed.

Lemma make_buffers_result roads_m aoi (chunk_size : Z) dists_km :
  chunk_size ≠ 0%Z →
  result (make_buffers buffer roads_m aoi chunk_size dists_km)
  = Ok (omap (kept buffer roads_m aoi chunk_size) dists_km).
Proof.
  intros Hc. induction dists_km as [|d ds IH]; [done|].
  cbn [make_buffers omap list_omap]. unfold kept at 1.
  rewrite !result_bind. cbn [result info].
  destruct (buffer_in_chunks_ok roads_m aoi (d * Qc_of_Z 1000) _ Hc)
    as [[g|] ->].
  - rewrite !result_bind. cbn [result info]. by rewrite IH.
  - rewrite !result_bind. cbn [result warn]. by rewrite IH.
Qed.

Lemma main_result aoi roads_m dist (chunk_size : Z) :
  chunk_size ≠ 0%Z →
  result (main buffer aoi roads_m dist chunk_size)
  = rings_of aoi (omap (kept buffer roads_m aoi chunk_size) (sorted_set dist)).
Proof.
  intros Hc. unfold main. rewrite result_bind, make_buffers_result by done.
  by destruct (omap _ _).
Qed.

(** *** Bounds and labels of the rings *)

Lemma last_cons {A} (x d : A) (l : list A) :
  List.last (x :: l) d = List.last l x.
Proof.
  revert x d. induction l as [|y l IH]; intros x d; [done|].
  change (List.last (x :: y :: l) d) with (List.last (y :: l) d).
  by rewrite !IH.
Qed.

Lemma middle_rings_meta (prev : Qc * Geom) (bs : list (Qc * Geom)) :
  (ring_meta <$> middle_rings prev bs)
    ++ [(bound_label (List.last bs prev).1 None, (List.last bs prev).1, None)]
  = zip_with (λ lo hi, (bound_label lo hi, lo, hi))
      (prev.1 :: (fst <$> bs)) ((Some <$> (fst <$> bs)) ++ [None]).
Proof.
  revert prev. induction bs as [|[d g] bs IH]; intros prev; [done|].
  rewrite last_cons. cbn [middle_rings fmap list_fmap app zip_with fst].
  f_equal. apply IH.
Qed.

Lemma make_rings_meta aoi (b0 : Qc * Geom) rest :
  ring_meta <$> make_rings aoi b0 rest = expected_meta (fst <$> b0 :: rest).
Proof.
  unfold make_rings, expected_meta. destruct b0 as [d0 g0].
  pose proof (middle_rings_meta (d0, g0) rest) as Hm.
  destruct (List.last rest (d0, g0)) as [dmax gmax].
  rewrite fmap_cons, fmap_app. cbn [fmap list_fmap] in *.
  cbn [fst app zip_with] in *. f_equal. exact Hm.
Qed.

Lemma make_rings_length aoi (b0 : Qc * Geom) rest :
  length (make_rings aoi b0 rest) = S (S (length rest)).
Proof.
  rewrite <-(length_fmap ring_meta), make_rings_meta. unfold expected_meta.
  rewrite length_zip_with, length_app, length_cons, !length_fmap.
  cbn [length]. lia.
Qed.

Lemma expected_meta_min ds : (λ m, m.1.2) <$> expected_meta ds = 0 :: ds.
Proof.
  unfold expected_meta. generalize 0. induction ds as [|d ds IH]; intros lo.
  - done.
  - cbn [fmap list_fmap app zip_with]. f_equal. apply IH.
Qed.

Lemma expected_meta_max ds :
  (λ m, m.2) <$> expected_meta ds = (Some <$> ds) ++ [None].
Proof.
  unfold expected_meta. generalize 0. induction ds as [|d ds IH]; intros lo.
  - done.
  - cbn [fmap list_fmap app zip_with]. f_equal. apply IH.
Qed.

Lemma expected_meta_id ds :
  (λ m, m.1.1) <$> expected_meta ds
  = zip_with bound_label (0 :: ds) ((Some <$> ds) ++ [None]).
Proof.
  unfold expected_meta. generalize 0. induction ds as [|d ds IH]; intros lo.
  - done.
  - cbn [fmap list_fmap app zip_with]. f_equal. apply IH.
Qed.

(** *** Library facts about [buffer] *)

Lemma overlay_geoms_empty (aoi : list Geom) : overlay_geoms [∅] aoi = [].
Proof.
  unfold overlay_geoms. cbn [mbind list_bind]. rewrite app_nil_r.
  induction aoi as [|a aoi IH]; [done|]. cbn [mbind list_bind].
  rewrite IH, decide_True by set_solver. done.
Qed.

Lemma union_buffers_empty (l : list Geom) d_m :
  (∀ g, buffer g d_m = ∅) → ⋃ ((λ g, buffer g d_m) <$> l) = ∅.
Proof.
  intros He. induction l as [|g l IH]; [done|].
  rewrite fmap_cons, union_list_cons, IH, He. set_solver.
Qed.

Lemma buffer_in_chunks_empty roads_m aoi d_m (chunk_size : Z) g :
  (∀ g, buffer g d_m = ∅) →
  result (buffer_in_chunks buffer roads_m aoi d_m chunk_size) ≠ Ok (Some g).
Proof.
  intros He. unfold buffer_in_chunks. case_decide; [done|].
  cbn [result]. rewrite decide_True; [done|].
  case_decide; [done|].
  induction (py_range0 _ _) as [|i rest IH]; [done|].
  rewrite fmap_cons. cbn [omap list_omap]. unfold lote at 1. cbn [snd].
  unfold unary_union. by rewrite union_buffers_empty, overlay_geoms_empty.
Qed.

Lemma kept_positive roads_m aoi (chunk_size : Z) d b :
  buffer_nonpos buffer → kept buffer roads_m aoi chunk_size d = Some b → 0 < d.
Proof.
  unfold kept. intros Hnonpos Hk. apply Qcnot_le_lt. intros Hd.
  destruct (result _) as [[g|]|] eqn:Hr; [|done..].
  eapply buffer_in_chunks_empty; [|exact Hr].
  intros g'. apply Hnonpos.
  replace 0 with (0 * Qc_of_Z 1000) by ring.
  by apply Qcmult_le_compat_r.
Qed.

Lemma omap_kept_all roads_m aoi (chunk_size : Z) (ds : list Qc) :
  (∀ d, d ∈ ds → is_Some (kept buffer roads_m aoi chunk_size d)) →
  fst <$> omap (kept buffer roads_m aoi chunk_size) ds = ds.
Proof.
  induction ds as [|d ds IH]; intros Hall; [done|].
  cbn [omap list_omap].
  destruct (Hall d) as [b Hb]; [left|]. rewrite Hb.
  rewrite fmap_cons, IH; [|intros; apply Hall; by right].
  f_equal. unfold kept in Hb. by repeat case_match; simplify_eq.
Qed.

(** *** Ring geometries *)

Lemma last_fmap {A B} (f : A → B) (l : list A) (d : A) :
  List.last (f <$> l) (f d) = f (List.last l d).
Proof.
  revert d. induction l as [|x l IH]; intros d; [done|].
  by rewrite fmap_cons, !last_cons, IH.
Qed.

Lemma middle_rings_geometry (prev : Qc * Geom) bs :
  geometry <$> middle_rings prev bs = annuli prev.2 (snd <$> bs).
Proof.
  revert prev. induction bs as [|[d g] bs IH]; intros prev; [done|].
  cbn [middle_rings fmap list_fmap annuli snd geometry]. f_equal. apply IH.
Qed.

Lemma make_rings_geometry aoi (b0 : Qc * Geom) rest :
  geometry <$> make_rings aoi b0 rest
  = ring_geoms (unary_union aoi) (snd <$> b0 :: rest).
Proof.
  unfold make_rings. destruct b0 as [d0 g0].
  pose proof (last_fmap snd rest (d0, g0)) as Hl.
  destruct (List.last rest (d0, g0)) as [dmax gmax].
  rewrite !fmap_cons, fmap_app, middle_rings_geometry.
  cbn [ring_geoms snd fmap list_fmap geometry] in *. by rewrite Hl.
Qed.

Lemma FOP_snoc {A} (R : A → A → Prop) (l : list A) (x : A) :
  ForallOrdPairs R l → Forall (λ y, R y x) l → ForallOrdPairs R (l ++ [x]).
Proof.
  induction 1 as [|a l Ha Hl IH]; intros Hx.
  - repeat constructor.
  - inversion Hx; subst. constructor; [|by apply IH].
    apply Forall_app. split; [done|]. by constructor.
Qed.

Lemma Forall_last {A} (Q : A → Prop) (x : A) (l : list A) :
  Forall Q (x :: l) → Q (List.last l x).
Proof.
  revert x. induction l as [|y l IH]; intros x Hx; [by inversion Hx|].
  rewrite last_cons. apply IH. by inversion Hx.
Qed.

Lemma annuli_partition (prev : Geom) (Bs : list Geom) :
  Sorted (⊆) (prev :: Bs) →
  prev ⊆ List.last Bs prev
  ∧ Forall (λ g, g ## prev ∧ g ⊆ List.last Bs prev) (annuli prev Bs)
  ∧ ForallOrdPairs (##) (annuli prev Bs)
  ∧ prev ∪ ⋃ annuli prev Bs = List.last Bs prev.
Proof.
  revert prev. induction Bs as [|B Bs IH]; intros prev Hs.
  - cbn. repeat split; try constructor; set_solver.
  - apply Sorted_inv in Hs as [Hs Hhd]. apply HdRel_inv in Hhd.
    destruct (IH B Hs) as (HBL & Hall & Hfop & Hun).
    rewrite last_cons. cbn [annuli]. rewrite union_list_cons.
    split; [set_solver|]. split; [|split].
    + constructor; [set_solver|].
      eapply Forall_impl; [exact Hall|]. set_solver.
    + constructor; [|done].
      eapply Forall_impl; [exact Hall|]. set_solver.
    + rewrite <-Hun. clear -Hhd. apply set_eq. intros x.
      destruct (decide (x ∈ prev)); set_solver.
Qed.

Lemma ring_geoms_partition (A : Geom) (Bs : list Geom) :
  Bs ≠ [] → Sorted (⊆) Bs → Forall (λ B, B ⊆ A) Bs →
  ForallOrdPairs (##) (ring_geoms A Bs) ∧ ⋃ ring_geoms A Bs = A.
Proof.
  destruct Bs as [|B1 rest]; [done|]. intros _ Hs HA.
  destruct (annuli_partition B1 rest Hs) as (HBL & Hall & Hfop & Hun).
  pose proof (Forall_last _ _ _ HA) as HLA. cbn beta in HLA.
  cbn [ring_geoms]. split.
  - constructor.
    + apply Forall_app. split.
      * eapply Forall_impl; [exact Hall|]. set_solver.
      * constructor; [set_solver|constructor].
    + apply FOP_snoc; [done|].
      eapply Forall_impl; [exact Hall|]. set_solver.
  - rewrite union_list_cons, union_list_app_L, union_list_singleton_L.
    rewrite (assoc_L (∪)), Hun. clear -HLA.
    apply set_eq. intros x.
    destruct (decide (x ∈ List.last rest B1)); set_solver.
Qed.

(** *** The run of [main] on the kept buffers *)

Lemma buffer_nonempty_chunk roads_m aoi (chunk_size : Z) d :
  buffer_nonempty buffer roads_m aoi chunk_size d → (0 < chunk_size)%Z.
Proof.
  intros [g Hg]. unfold buffer_in_chunks in Hg.
  case_decide; [done|]. cbn [result] in Hg.
  destruct (decide (chunk_size < 0)%Z); [done|lia].
Qed.

Lemma buffer_nonempty_kept roads_m aoi (chunk_size : Z) d :
  buffer_nonempty buffer roads_m aoi chunk_size d →
  is_Some (kept buffer roads_m aoi chunk_size d).
Proof. intros [g Hg]. unfold kept. rewrite Hg. eauto. Qed.

Lemma kept_fst roads_m aoi (chunk_size : Z) d b :
  kept buffer roads_m aoi chunk_size d = Some b → b.1 = d.
Proof. unfold kept. intros. by repeat case_match; simplify_eq. Qed.

Lemma rings_of_ok aoi (buffers : list (Qc * Geom)) :
  buffers ≠ [] →
  ∃ out, rings_of aoi buffers = Ok out
    ∧ buffer_files out = (λ b, (buffer_path b.1, b)) <$> buffers
    ∧ geometry <$> rings_file out
      = ring_geoms (unary_union aoi) (snd <$> buffers)
    ∧ ring_meta <$> rings_file out = expected_meta (fst <$> buffers).
Proof.
  destruct buffers as [|b0 rest]; [done|]. intros _. eexists.
  split; [done|]. cbn [buffer_files rings_file].
  by rewrite make_rings_geometry, make_rings_meta.
Qed.

Lemma kept_single roads_m (A : Geom) (chunk_size : Z) d :
  (0 < chunk_size)%Z →
  kept buffer roads_m [A] chunk_size d
  = (λ g, (d, g))
      <$> nonempty (buffer_union_clip buffer roads_m A (d * Qc_of_Z 1000)).
Proof.
  intros Hc. unfold kept. rewrite buffer_in_chunks_single by done.
  by destruct (nonempty _).
Qed.

Lemma omap_kept_single roads_m (A : Geom) (chunk_size : Z) (ds : list Qc) :
  (∀ d, d ∈ ds → buffer_nonempty buffer roads_m [A] chunk_size d) →
  omap (kept buffer roads_m [A] chunk_size) ds
  = (λ d, (d, buffer_union_clip buffer roads_m A (d * Qc_of_Z 1000))) <$> ds.
Proof.
  induction ds as [|d ds IH]; intros Hall; [done|].
  cbn [omap list_omap]. rewrite fmap_cons, IH by (intros; apply Hall; by right).
  assert (buffer_nonempty buffer roads_m [A] chunk_size d) as Hd by (apply Hall; left).
  pose proof (buffer_nonempty_chunk _ _ _ _ Hd) as Hc.
  destruct Hd as [g Hg]. rewrite buffer_in_chunks_single in Hg by done.
  rewrite kept_single by done. simplify_eq. rewrite Hg. cbn.
  unfold nonempty in Hg. by case_decide; simplify_eq.
Qed.

Lemma buffer_union_clip_mono roads_m (A : Geom) d1 d2 :
  buffer_mono buffer → d1 ≤ d2 →
  buffer_union_clip buffer roads_m A d1 ⊆ buffer_union_clip buffer roads_m A d2.
Proof.
  intros Hmono Hd. unfold buffer_union_clip.
  assert (⋃ ((λ g, buffer g d1) <$> roads_m)
          ⊆ ⋃ ((λ g, buffer g d2) <$> roads_m)); [|set_solver].
  induction roads_m as [|g l IH]; [done|].
  rewrite !fmap_cons, !union_list_cons.
  pose proof (Hmono g d1 d2 Hd). clear Hmono. set_solver.
Qed.

Lemma km_to_m_mono d1 d2 : d1 < d2 → d1 * Qc_of_Z 1000 ≤ d2 * Qc_of_Z 1000.
Proof. intros Hd. apply Qcmult_le_compat_r; [by apply Qclt_le_weak|done]. Qed.

Lemma dist_chunk_positive roads_m aoi (chunk_size : Z) (dist : list Qc) :
  dist ≠ [] →
  (∀ d, d ∈ dist → buffer_nonempty buffer roads_m aoi chunk_size d) →
  (0 < chunk_size)%Z.
Proof.
  destruct dist as [|d ds]; [done|]. intros _ Hall.
  apply (buffer_nonempty_chunk roads_m aoi chunk_size d), Hall. left.
Qed.

Lemma sorted_set_nonempty (dist : list Qc) : dist ≠ [] → sorted_set dist ≠ [].
Proof.
  destruct dist as [|d ds]; [done|]. intros _ Hnil.
  assert (d ∈ sorted_set (d :: ds)) as Hd by (apply elem_of_sorted_set; left).
  rewrite Hnil in Hd. by apply elem_of_nil in Hd.
Qed.

(** C1. For an AOI polygon [A] and a distance list all of whose buffer
    unions are non-empty, the ring builder returns rings whose geometries
    are: the buffer union for [d1], then for each further distance the buffer
    union minus the previous one, then [A] minus the last buffer union (each
    buffer union clipped to [A]); these geometries are pairwise disjoint and
    their union is [A]. *)
Theorem rings_partition_aoi (A : Geom) roads_m (dist : list Qc)
    (chunk_size : Z) :
  buffer_mono buffer →
  dist ≠ [] →
  (∀ d, d ∈ dist → buffer_nonempty buffer roads_m [A] chunk_size d) →
  ∃ out, result (main buffer [A] roads_m dist chunk_size) = Ok out
    ∧ geometry <$> rings_file out
      = ring_geoms A ((λ d, buffer_union_clip buffer roads_m A (d * Qc_of_Z 1000))
                        <$> sorted_set dist)
    ∧ ForallOrdPairs (##) (geometry <$> rings_file out)
    ∧ ⋃ (geometry <$> rings_file out) = A.
Proof.
  intros Hmono Hne Hall.
  pose proof (dist_chunk_positive _ _ _ _ Hne Hall) as Hc.
  rewrite main_result by lia.
  rewrite omap_kept_single
    by (intros d Hd; apply Hall; by apply elem_of_sorted_set).
  set (B := λ d, buffer_union_clip buffer roads_m A (d * Qc_of_Z 1000)).
  destruct (rings_of_ok [A] ((λ d, (d, B d)) <$> sorted_set dist))
    as (out & Hout & _ & Hgeo & _).
  { intros Hnil. apply fmap_nil_inv in Hnil.
    by apply (sorted_set_nonempty dist). }
  exists out. split; [done|].
  rewrite <-list_fmap_compose in Hgeo.
  unfold unary_union in Hgeo. rewrite union_list_singleton_L in Hgeo.
  change (snd ∘ (λ d, (d, B d))) with B in Hgeo.
  rewrite Hgeo. split; [done|].
  apply ring_geoms_partition.
  - intros Hnil. apply fmap_nil_inv in Hnil.
    by apply (sorted_set_nonempty dist).
  - apply (Sorted_fmap _ Qclt); [|apply StronglySorted_Sorted, sorted_set_strict].
    intros d1 d2 Hd. by apply buffer_union_clip_mono, km_to_m_mono.
  - apply Forall_fmap, Forall_true. intros d. unfold B, buffer_union_clip.
    set_solver.
Qed.

(** C2. For an ascending distance list [d1 < ... < dn] whose buffer unions
    are all non-empty, the ring builder emits [n+1] rings with bounds
    [0..d1], [d1..d2], ..., [dn..] (the last upper bound is null), lower
    bounds strictly increasing from [0], and labels
    ["0-d1km"], ["d1-d2km"], ..., [">dnkm"] made from the bounds; for a
    single distance that is two rings. *)
Theorem ring_records aoi roads_m (dist : list Qc) (chunk_size : Z) :
  buffer_nonpos buffer →
  StronglySorted Qclt dist →
  dist ≠ [] →
  (∀ d, d ∈ dist → buffer_nonempty buffer roads_m aoi chunk_size d) →
  ∃ out, result (main buffer aoi roads_m dist chunk_size) = Ok out
    ∧ length (rings_file out) = S (length dist)
    ∧ ring_meta <$> rings_file out = expected_meta dist
    ∧ min_km <$> rings_file out = 0 :: dist
    ∧ max_km <$> rings_file out = (Some <$> dist) ++ [None]
    ∧ ring_id <$> rings_file out
      = zip_with bound_label (0 :: dist) ((Some <$> dist) ++ [None])
    ∧ StronglySorted Qclt (min_km <$> rings_file out).
Proof.
  intros Hnonpos Hs Hne Hall.
  pose proof (dist_chunk_positive _ _ _ _ Hne Hall) as Hc.
  assert (∀ d, d ∈ dist → is_Some (kept buffer roads_m aoi chunk_size d)) as Hk
    by (intros; by apply buffer_nonempty_kept, Hall).
  rewrite main_result, sorted_set_ascending by (done || lia).
  destruct (rings_of_ok aoi (omap (kept buffer roads_m aoi chunk_size) dist))
    as (out & Hout & _ & _ & Hmeta).
  { intros Hnil. apply (f_equal (fmap fst)) in Hnil.
    by rewrite omap_kept_all in Hnil. }
  rewrite omap_kept_all in Hmeta by done.
  exists out. split; [done|].
  assert (min_km <$> rings_file out = 0 :: dist) as Hmin.
  { rewrite <-expected_meta_min, <-Hmeta, <-list_fmap_compose. done. }
  assert (max_km <$> rings_file out = (Some <$> dist) ++ [None]) as Hmax.
  { rewrite <-expected_meta_max, <-Hmeta, <-list_fmap_compose. done. }
  assert (ring_id <$> rings_file out
          = zip_with bound_label (0 :: dist) ((Some <$> dist) ++ [None]))
    as Hid.
  { rewrite <-expected_meta_id, <-Hmeta, <-list_fmap_compose. done. }
  repeat split; try done.
  - apply (f_equal length) in Hmin. by rewrite length_fmap in Hmin.
  - rewrite Hmin. constructor; [done|].
    apply Forall_forall. intros d Hd.
    destruct (Hk d) as [b Hb]; [done|].
    by eapply kept_positive.
Qed.

(** C6. Against an AOI polygon and for every chunk size [c ≥ 1], the
    chunked buffer is the non-chunked buffer-union-clip (and is reported as
    [None] exactly when that geometry is empty); hence the ring builder
    returns the same output for any two chunk sizes. *)
Theorem chunking_equivalent (A : Geom) roads_m d_m (dist : list Qc)
    (c c' : Z) :
  (1 ≤ c)%Z → (1 ≤ c')%Z →
  (∃ o, result (buffer_in_chunks buffer roads_m [A] d_m c) = Ok o
        ∧ geom_of o = buffer_union_clip buffer roads_m A d_m
        ∧ (o = None ↔ buffer_union_clip buffer roads_m A d_m = ∅))
  ∧ result (buffer_in_chunks buffer roads_m [A] d_m c)
    = result (buffer_in_chunks buffer roads_m [A] d_m c')
  ∧ result (main buffer [A] roads_m dist c)
    = result (main buffer [A] roads_m dist c').
Proof.
  intros Hc Hc'. split; [|split].
  - eexists. split; [apply buffer_in_chunks_single; lia|].
    split; [apply geom_of_nonempty|]. unfold nonempty. by case_decide.
  - by rewrite !buffer_in_chunks_single by lia.
  - rewrite !main_result by lia. f_equal.
    apply list_omap_ext, Forall2_same_length_lookup_2; [done|].
    intros i d d' Hd Hd'. simplify_eq. by rewrite !kept_single by lia.
Qed.

(** C3 (as the code has it). Out-of-order or duplicate distances are not
    rejected: the list is sorted and deduplicated, and the run is the run
    on the ascending duplicate-free list with the same elements. *)
Theorem distances_normalised aoi roads_m (dist : list Qc) (chunk_size : Z) :
  StronglySorted Qclt (sorted_set dist)
  ∧ (∀ d, d ∈ sorted_set dist ↔ d ∈ dist)
  ∧ main buffer aoi roads_m dist chunk_size
    = main buffer aoi roads_m (sorted_set dist) chunk_size
  ∧ (∀ dist' : list Qc, (∀ d, d ∈ dist ↔ d ∈ dist') →
       main buffer aoi roads_m dist chunk_size
       = main buffer aoi roads_m dist' chunk_size).
Proof.
  split; [apply sorted_set_strict|]. split; [intros d; apply elem_of_sorted_set|].
  split.
  - unfold main. by rewrite (sorted_set_ascending (sorted_set dist))
      by apply sorted_set_strict.
  - intros dist' Hd. unfold main. by rewrite (sorted_set_ext dist dist').
Qed.

(** *** A distance whose buffer union is empty *)

Lemma log_bind_incl {A B} (m : Run A) (f : A → Run B) e :
  e ∈ log m → e ∈ log (m ≫= f).
Proof.
  unfold mbind, Run_bind. destruct (result m); cbn [log]; [|done].
  intros. apply elem_of_app. by left.
Qed.

Lemma log_bind_incl_r {A B} (m : Run A) (f : A → Run B) a e :
  result m = Ok a → e ∈ log (f a) → e ∈ log (m ≫= f).
Proof.
  intros Hm He. rewrite (log_bind_ok m f a Hm). apply elem_of_app. by right.
Qed.

Lemma make_buffers_warns roads_m aoi (chunk_size : Z) (ds : list Qc) d :
  d ∈ ds →
  result (buffer_in_chunks buffer roads_m aoi (d * Qc_of_Z 1000) chunk_size)
    = Ok None →
  Warn (MNenhumaGeometria d)
    ∈ log (make_buffers buffer roads_m aoi chunk_size ds).
Proof.
  intros Hd Hnone.
  assert (chunk_size ≠ 0%Z) as Hc.
  { intros ->. unfold buffer_in_chunks in Hnone. by rewrite decide_True in Hnone. }
  induction ds as [|d' ds IH]; [by apply elem_of_nil in Hd|].
  cbn [make_buffers]. eapply log_bind_incl_r; [done|].
  destruct (buffer_in_chunks_ok roads_m aoi (d' * Qc_of_Z 1000) _ Hc)
    as [o Ho].
  eapply log_bind_incl_r; [exact Ho|].
  apply elem_of_cons in Hd as [<-|Hd].
  - rewrite Hnone in Ho. simplify_eq. apply log_bind_incl. cbn. by left.
  - destruct o as [g|].
    + eapply log_bind_incl_r; [done|]. apply log_bind_incl. by apply IH.
    + eapply log_bind_incl_r; [done|]. by apply IH.
Qed.

Lemma omap_kept_filter roads_m aoi (chunk_size : Z) (ds : list Qc) di :
  kept buffer roads_m aoi chunk_size di = None →
  omap (kept buffer roads_m aoi chunk_size) (filter (λ d, d ≠ di) ds)
  = omap (kept buffer roads_m aoi chunk_size) ds.
Proof.
  intros Hdi. induction ds as [|d ds IH]; [done|].
  rewrite filter_cons. case_decide as Hd.
  - cbn [omap list_omap]. by rewrite IH.
  - subst d. cbn [omap list_omap].
    by rewrite Hdi, IH.
Qed.

(** C9 (as the code has it). When the buffer union for [di] is empty and
    another one is not, the ring builder does not fail: it logs a warning
    for [di] and skips it.  No buffer file and no ring bound are produced for
    [di]; the output is the output for the distance list without [di]. *)
Theorem empty_buffer_skipped aoi roads_m (dist : list Qc) (chunk_size : Z)
    (di dj : Qc) :
  di ∈ dist →
  result (buffer_in_chunks buffer roads_m aoi (di * Qc_of_Z 1000) chunk_size)
    = Ok None →
  dj ∈ dist →
  buffer_nonempty buffer roads_m aoi chunk_size dj →
  ∃ out, result (main buffer aoi roads_m dist chunk_size) = Ok out
    ∧ Warn (MNenhumaGeometria di)
        ∈ log (main buffer aoi roads_m dist chunk_size)
    ∧ result (main buffer aoi roads_m (filter (λ d, d ≠ di) dist) chunk_size)
      = Ok out
    ∧ (∀ r, r ∈ rings_file out → max_km r ≠ Some di)
    ∧ (∀ f, f ∈ buffer_files out → f.2.1 ≠ di)
    ∧ (length (rings_file out) ≤ length (sorted_set dist))%nat.
Proof.
  intros Hdi Hnone Hdj Hsome.
  pose proof (buffer_nonempty_chunk _ _ _ _ Hsome) as Hc.
  assert (kept buffer roads_m aoi chunk_size di = None) as Hkdi
    by (unfold kept; by rewrite Hnone).
  destruct (buffer_nonempty_kept _ _ _ _ Hsome) as [bj Hbj].
  set (bs := omap (kept buffer roads_m aoi chunk_size) (sorted_set dist)).
  assert (bj ∈ bs) as Hin.
  { apply list_elem_of_omap. exists dj. by rewrite elem_of_sorted_set. }
  assert (di ∉ fst <$> bs) as Hnotin.
  { intros (b & -> & Hb)%list_elem_of_fmap.
    apply list_elem_of_omap in Hb as (d & _ & Hd).
    rewrite (kept_fst _ _ _ _ _ Hd) in Hkdi. congruence. }
  destruct (rings_of_ok aoi bs) as (out & Hout & Hfiles & _ & Hmeta).
  { intros Hnil. rewrite Hnil in Hin. by apply elem_of_nil in Hin. }
  assert (max_km <$> rings_file out = (Some <$> (fst <$> bs)) ++ [None])
    as Hmax.
  { rewrite <-expected_meta_max, <-Hmeta, <-list_fmap_compose. done. }
  exists out. rewrite !main_result by lia. fold bs.
  split; [done|]. split; [|split; [|split; [|split]]].
  - unfold main. apply log_bind_incl, make_buffers_warns; [|done].
    by apply elem_of_sorted_set.
  - by rewrite sorted_set_filter, omap_kept_filter.
  - intros r Hr Hdi'.
    assert (Some di ∈ max_km <$> rings_file out) as Hm.
    { rewrite <-Hdi'. by apply list_elem_of_fmap_2. }
    rewrite Hmax in Hm. apply elem_of_app in Hm as [Hm|Hm].
    + apply list_elem_of_fmap in Hm as (d & [= <-] & Hd). done.
    + apply list_elem_of_singleton in Hm. done.
  - intros f Hf Hdi'. rewrite Hfiles in Hf.
    apply list_elem_of_fmap in Hf as (b & -> & Hb). cbn in Hdi'.
    apply Hnotin. rewrite <-Hdi'. by apply list_elem_of_fmap_2.
  - apply (f_equal length) in Hmax.
    rewrite length_app, !length_fmap in Hmax. rewrite Hmax. cbn [length].
    assert (length bs < length (sorted_set dist))%nat; [|lia].
    apply elem_of_sorted_set in Hdi.
    clear -Hdi Hkdi. unfold bs. clear bs.
    induction (sorted_set dist) as [|d ds IH]; [by apply elem_of_nil in Hdi|].
    cbn [omap list_omap]. apply elem_of_cons in Hdi as [<-|Hdi].
    + rewrite Hkdi. cbn [length]. clear.
      induction ds as [|d ds IH]; cbn [omap list_omap length]; [lia|].
      destruct (kept _ _ _ _ d); cbn [length]; lia.
    + destruct (kept _ _ _ _ d); cbn [length]; specialize (IH Hdi); lia.
Qed.

End RingBuilder.

(** * The raster kernel satisfies the library facts *)

Section RasterFacts.

Lemma raster_buffer_nonpos : buffer_nonpos Raster.buffer.
Proof.
  intros g d Hd. unfold Raster.buffer. rewrite decide_False; [done|].
  by apply Qcle_not_lt.
Qed.

Lemma raster_reach_mono (d1 d2 : Qc) :
  0 < d1 → d1 ≤ d2 → (Raster.reach d1 ≤ Raster.reach d2)%Z.
Proof.
  unfold Raster.reach, Qclt, Qcle, Qlt, Qle. cbn [this Q2Qc Qnum Qden Qred].
  destruct d1 as [[n1 a1] ?], d2 as [[n2 a2] ?]. cbn [this Qnum Qden].
  intros Hpos Hle. change (Qred 0) with (0 # 1)%Q in Hpos.
  cbn [Qnum Qden] in Hpos.
  apply Z.div_le_lower_bound; [lia|].
  pose proof (Z.mul_div_le n1 (1000 * Z.pos a1) ltac:(lia)).
  pose proof (Z.div_pos n1 (1000 * Z.pos a1) ltac:(lia) ltac:(lia)).
  nia.
Qed.

Lemma raster_around_mono (t1 t2 y : Z) :
  (t1 ≤ t2)%Z → Raster.around t1 y ⊆ Raster.around t2 y.
Proof.
  intros Ht x. unfold Raster.around.
  rewrite !elem_of_list_to_set, !elem_of_seqZ. lia.
Qed.

Lemma raster_buffer_mono : buffer_mono Raster.buffer.
Proof.
  intros g d1 d2 Hd. unfold Raster.buffer.
  destruct (decide (0 < d1)) as [H1|H1]; [|set_solver].
  rewrite decide_True by (by eapply Qclt_le_trans).
  pose proof (raster_reach_mono d1 d2 H1 Hd) as Ht.
  induction (elements g) as [|y l IH]; [done|].
  rewrite !fmap_cons, !union_list_cons.
  pose proof (raster_around_mono _ _ y Ht). set_solver.
Qed.

End RasterFacts.

(** * The ring builder on concrete inputs *)

Section RingBuilderExamples.

Lemma demo_dist_ascending : StronglySorted Qclt demo_dist.
Proof. repeat constructor. Qed.

Lemma demo_buffers_nonempty (chunk_size : Z) :
  chunk_size = 1%Z →
  ∀ d, d ∈ demo_dist →
    buffer_nonempty Raster.buffer demo_roads [demo_aoi] chunk_size d.
Proof.
  intros ->. apply Forall_forall. apply (bool_decide_unpack _). by vm_compute.
Qed.

(** The scenario of the specification: distances 5, 10, 20. *)
Example demo_ring_ids :
  (ring_id <$>
     match result (main Raster.buffer [demo_aoi] demo_roads demo_dist 1) with
     | Ok out => rings_file out
     | Raise _ => []
     end)
  = ["0-5km"; "5-10km"; "10-20km"; ">20km"].
Proof. by vm_compute. Qed.

(** Witness of C1. *)
Lemma rings_partition_aoi_witness :
  ∃ out, result (main Raster.buffer [demo_aoi] demo_roads demo_dist 1) = Ok out
    ∧ geometry <$> rings_file out
      = ring_geoms demo_aoi
          ((λ d, buffer_union_clip Raster.buffer demo_roads demo_aoi
                   (d * Qc_of_Z 1000)) <$> sorted_set demo_dist)
    ∧ ForallOrdPairs (##) (geometry <$> rings_file out)
    ∧ ⋃ (geometry <$> rings_file out) = demo_aoi.
Proof.
  apply (rings_partition_aoi Raster.buffer).
  - exact raster_buffer_mono.
  - by unfold demo_dist.
  - by apply demo_buffers_nonempty.
Defined.

(** Witness of C2. *)
Lemma ring_records_witness :
  ∃ out, result (main Raster.buffer [demo_aoi] demo_roads demo_dist 1) = Ok out
    ∧ length (rings_file out) = 4%nat
    ∧ ring_meta <$> rings_file out = expected_meta demo_dist
    ∧ min_km <$> rings_file out = 0 :: demo_dist
    ∧ max_km <$> rings_file out = (Some <$> demo_dist) ++ [None]
    ∧ ring_id <$> rings_file out
      = zip_with bound_label (0 :: demo_dist) ((Some <$> demo_dist) ++ [None])
    ∧ StronglySorted Qclt (min_km <$> rings_file out).
Proof.
  apply (ring_records Raster.buffer).
  - exact raster_buffer_nonpos.
  - exact demo_dist_ascending.
  - by unfold demo_dist.
  - by apply demo_buffers_nonempty.
Defined.

(** Witness of C6: three road segments, buffered one per batch and all
    in one batch. *)
Lemma chunking_equivalent_witness :
  (∃ o, result (buffer_in_chunks Raster.buffer demo_roads3 [demo_aoi]
                  (Qc_of_Z 5000) 1) = Ok o
        ∧ geom_of o
          = buffer_union_clip Raster.buffer demo_roads3 demo_aoi (Qc_of_Z 5000)
        ∧ (o = None
           ↔ buffer_union_clip Raster.buffer demo_roads3 demo_aoi
               (Qc_of_Z 5000) = ∅))
  ∧ result (buffer_in_chunks Raster.buffer demo_roads3 [demo_aoi]
              (Qc_of_Z 5000) 1)
    = result (buffer_in_chunks Raster.buffer demo_roads3 [demo_aoi]
                (Qc_of_Z 5000) 3)
  ∧ result (main Raster.buffer [demo_aoi] demo_roads3 demo_dist 1)
    = result (main Raster.buffer [demo_aoi] demo_roads3 demo_dist 3).
Proof.
  apply (chunking_equivalent Raster.buffer); lia.
Defined.

(** On these roads the two chunk sizes give three batches and one: the
    runs differ in their batches and agree in their result, which is a buffer
    around each of the three segments. *)
Example chunking_three_batches :
  log (buffer_in_chunks Raster.buffer demo_roads3 [demo_aoi] (Qc_of_Z 5000) 1)
    = [Info (MLote 0 1 3 (Qc_of_Z 5000)); Info (MLote 1 2 3 (Qc_of_Z 5000));
       Info (MLote 2 3 3 (Qc_of_Z 5000))]
  ∧ log (buffer_in_chunks Raster.buffer demo_roads3 [demo_aoi]
           (Qc_of_Z 5000) 3)
    = [Info (MLote 0 3 3 (Qc_of_Z 5000))]
  ∧ result (buffer_in_chunks Raster.buffer demo_roads3 [demo_aoi]
              (Qc_of_Z 5000) 1)
    = Ok (Some (Raster.cells 5 15 ∪ Raster.cells 45 55 ∪ Raster.cells 85 95)).
Proof. repeat split; by vm_compute. Qed.

(** Counterexample to C3: a distance list that is out of order and has a
    duplicate is accepted, and gives the rings of [5; 10]. *)
Lemma unsorted_distances_accepted :
  ¬ (∃ e, result (main Raster.buffer [demo_aoi] demo_roads
                    [Qc_of_Z 10; Qc_of_Z 5; Qc_of_Z 5] 1) = Raise e)
  ∧ result (main Raster.buffer [demo_aoi] demo_roads
              [Qc_of_Z 10; Qc_of_Z 5; Qc_of_Z 5] 1)
    = result (main Raster.buffer [demo_aoi] demo_roads
                [Qc_of_Z 5; Qc_of_Z 10] 1).
Proof.
  split; [|by vm_compute].
  intros [e He]. vm_compute in He. discriminate He.
Qed.

(** Counterexample to C9: the buffer union for 5 km is empty and the one
    for 10 km is not; the run succeeds with two rings, [0..10] and [10..],
    and none of them is a ring for 5 km. *)
Lemma empty_buffer_no_ring :
  result (buffer_in_chunks Raster.buffer far_roads [far_aoi]
            (Qc_of_Z 5 * Qc_of_Z 1000) 1) = Ok None
  ∧ buffer_nonempty Raster.buffer far_roads [far_aoi] 1 (Qc_of_Z 10)
  ∧ result (main Raster.buffer [far_aoi] far_roads
              [Qc_of_Z 5; Qc_of_Z 10] 1)
    = Ok (mkOut03
            [("roads_buffer_10km.shp", (Qc_of_Z 10, far_aoi))]
            [mkRing "0-10km" 0 (Some (Qc_of_Z 10)) far_aoi;
             mkRing ">10km" (Qc_of_Z 10) None ∅])
  ∧ ¬ degenerate_ring [far_aoi]
        [mkRing "0-10km" 0 (Some (Qc_of_Z 10)) far_aoi;
         mkRing ">10km" (Qc_of_Z 10) None ∅]
        (Qc_of_Z 5).
Proof.
  split; [by vm_compute|]. split; [apply (bool_decide_unpack _); by vm_compute|].
  split; [by vm_compute|].
  intros (k & r & Hk & Hmax & _).
  destruct k as [|[|k]]; cbn in Hk; simplify_eq; cbn in Hmax;
    vm_compute in Hmax; discriminate Hmax.
Qed.

(** A distance of zero has an empty buffer and is skipped in the same
    way. *)
Example zero_distance_skipped :
  (ring_id <$>
     match result (main Raster.buffer [demo_aoi] demo_roads
                     [0; Qc_of_Z 10] 1) with
     | Ok out => rings_file out
     | Raise _ => []
     end)
  = ["0-10km"; ">10km"].
Proof. by vm_compute. Qed.

(** Labels are made with [int(d)]: a fractional bound is truncated. *)
Example fractional_distance_label :
  bound_label 0 (Some (Q2Qc (5 # 2))) = "0-2km"
  ∧ bound_label (Q2Qc (5 # 2)) None = ">2km".
Proof. split; by vm_compute. Qed.

(** Witness of C3 as amended. *)
Lemma distances_normalised_witness :
  main Raster.buffer [demo_aoi] demo_roads
    [Qc_of_Z 10; Qc_of_Z 5; Qc_of_Z 5] 1
  = main Raster.buffer [demo_aoi] demo_roads [Qc_of_Z 5; Qc_of_Z 10] 1.
Proof.
  apply (distances_normalised Raster.buffer [demo_aoi] demo_roads
           [Qc_of_Z 10; Qc_of_Z 5; Qc_of_Z 5] 1).
  intros d. rewrite !elem_of_cons, !elem_of_nil. tauto.
Defined.

(** Witness of C9 as amended. *)
Lemma empty_buffer_skipped_witness :
  ∃ out,
    result (main Raster.buffer [far_aoi] far_roads
              [Qc_of_Z 5; Qc_of_Z 10] 1) = Ok out
    ∧ Warn (MNenhumaGeometria (Qc_of_Z 5))
        ∈ log (main Raster.buffer [far_aoi] far_roads
                 [Qc_of_Z 5; Qc_of_Z 10] 1)
    ∧ result (main Raster.buffer [far_aoi] far_roads
                (filter (λ d, d ≠ Qc_of_Z 5) [Qc_of_Z 5; Qc_of_Z 10]) 1)
      = Ok out
    ∧ (∀ r, r ∈ rings_file out → max_km r ≠ Some (Qc_of_Z 5))
    ∧ (∀ f, f ∈ buffer_files out → f.2.1 ≠ Qc_of_Z 5)
    ∧ (length (rings_file out)
       ≤ length (sorted_set [Qc_of_Z 5; Qc_of_Z 10]))%nat.
Proof.
  apply (empty_buffer_skipped Raster.buffer [far_aoi] far_roads
           [Qc_of_Z 5; Qc_of_Z 10] 1 (Qc_of_Z 5) (Qc_of_Z 10)).
  - left.
  - by vm_compute.
  - right. left.
  - apply (bool_decide_unpack _). by vm_compute.
Defined.

End RingBuilderExamples.

(** * Properties of the aggregates *)

Section AggregateFacts.
Context {G : Type}.

Lemma Qc_sum_cons x l : Qc_sum (x :: l) = x + Qc_sum l.
Proof. done. Qed.

Lemma Qc_sum_app l1 l2 : Qc_sum (l1 ++ l2) = Qc_sum l1 + Qc_sum l2.
Proof.
  induction l1 as [|x l1 IH]; cbn [app].
  - unfold Qc_sum at 2. cbn. by rewrite Qcplus_0_l.
  - rewrite !Qc_sum_cons, IH. ring.
Qed.

Global Instance Qc_sum_Permutation : Proper ((≡ₚ) ==> (=)) Qc_sum.
Proof.
  induction 1 as [|x l1 l2 _ IH|x y l|l1 l2 l3 _ IH1 _ IH2].
  - done.
  - by rewrite !Qc_sum_cons, IH.
  - rewrite !Qc_sum_cons. ring.
  - by rewrite IH1.
Qed.

Global Instance total_for_Permutation {K : Type} `{EqDecision K} (k : K) :
  Proper ((≡ₚ) ==> (=)) (total_for k).
Proof. intros t1 t2 Ht. unfold total_for. by rewrite Ht. Qed.

Lemma groupby_sum_eq {K : Type} `{EqDecision K} (kvs : list (K * Qc)) :
  groupby_sum kvs = (λ k, (k, key_sum kvs k)) <$> remove_dups (fst <$> kvs).
Proof. done. Qed.

Lemma groupby_sum_keys {K : Type} `{EqDecision K} (kvs : list (K * Qc)) :
  fst <$> groupby_sum kvs = remove_dups (fst <$> kvs).
Proof.
  rewrite groupby_sum_eq, <-list_fmap_compose.
  induction (remove_dups (fst <$> kvs)) as [|k ks IH]; [done|].
  by rewrite fmap_cons, IH.
Qed.

Lemma filter_key_absent {K V : Type} `{EqDecision K} (k : K)
    (kvs : list (K * V)) :
  k ∉ fst <$> kvs → filter (λ kv, kv.1 = k) kvs = [].
Proof.
  induction kvs as [|[k' v] kvs IH]; [done|].
  rewrite fmap_cons, not_elem_of_cons. intros [Hne Hk].
  rewrite filter_cons_False by (cbn; intros ?; by subst). by apply IH.
Qed.

Lemma key_sum_absent {K : Type} `{EqDecision K} (kvs : list (K * Qc)) k :
  k ∉ fst <$> kvs → key_sum kvs k = 0.
Proof. intros Hk. unfold key_sum. by rewrite filter_key_absent. Qed.

(** A table with one row per key records, for each key, that row's value. *)
Lemma total_for_table {K : Type} `{EqDecision K} (g : K → Qc) (ks : list K)
    (k : K) :
  NoDup ks →
  total_for k ((λ k', (k', g k')) <$> ks) = if decide (k ∈ ks) then g k else 0.
Proof.
  unfold total_for. induction 1 as [|k' ks Hk' _ IH]; [done|].
  rewrite fmap_cons. destruct (decide (k' = k)) as [->|Hne].
  - rewrite filter_cons_True by done.
    rewrite decide_True by left.
    rewrite filter_key_absent.
    + cbn. by rewrite Qcplus_0_r.
    + rewrite <-list_fmap_compose. cbn. by rewrite list_fmap_id.
  - rewrite filter_cons_False by (cbn; congruence). rewrite IH.
    destruct (decide (k ∈ ks)) as [Hin|Hnin].
    + rewrite decide_True; [done|by right].
    + rewrite decide_False; [done|]. rewrite not_elem_of_cons. by split.
Qed.

Lemma total_for_groupby {K : Type} `{EqDecision K} (kvs : list (K * Qc)) k :
  total_for k (groupby_sum kvs) = key_sum kvs k.
Proof.
  rewrite groupby_sum_eq, total_for_table by apply NoDup_remove_dups.
  case_decide as Hk; [done|].
  rewrite elem_of_remove_dups in Hk. by rewrite key_sum_absent.
Qed.

(** *** Regrouping: sums per key add up to the sum over the rows *)

Lemma key_sum_cons {K : Type} `{EqDecision K} (k0 : K) v kvs k :
  key_sum ((k0, v) :: kvs) k
  = (if decide (k0 = k) then v else 0) + key_sum kvs k.
Proof.
  unfold key_sum. rewrite filter_cons. cbn [fst].
  destruct (decide (k0 = k)); [done|]. by rewrite Qcplus_0_l.
Qed.

Lemma Qc_sum_fmap_plus {A : Type} (f g : A → Qc) (l : list A) :
  Qc_sum ((λ x, f x + g x) <$> l) = Qc_sum (f <$> l) + Qc_sum (g <$> l).
Proof.
  induction l as [|x l IH]; [by rewrite Qcplus_0_l|].
  rewrite !fmap_cons, !Qc_sum_cons, IH. ring.
Qed.

Lemma Qc_sum_zero {A : Type} (l : list A) : Qc_sum ((λ _, 0) <$> l) = 0.
Proof.
  induction l as [|x l IH]; [done|].
  by rewrite fmap_cons, Qc_sum_cons, IH, Qcplus_0_l.
Qed.

Lemma Qc_sum_indicator {K : Type} `{EqDecision K} (k0 : K) (v : Qc)
    (l : list K) :
  NoDup l →
  Qc_sum ((λ k, if decide (k0 = k) then v else 0) <$> l)
  = if decide (k0 ∈ l) then v else 0.
Proof.
  induction 1 as [|k l Hk _ IH]; [done|].
  rewrite fmap_cons, Qc_sum_cons, IH.
  destruct (decide (k0 = k)) as [->|Hne].
  - rewrite decide_False by done. rewrite decide_True by left. ring.
  - destruct (decide (k0 ∈ l)) as [Hin|Hnin].
    + rewrite decide_True by (by right). ring.
    + rewrite decide_False; [ring|]. rewrite not_elem_of_cons. by split.
Qed.

Lemma key_sum_partition {K : Type} `{EqDecision K} (Q : K → Prop)
    `{∀ k, Decision (Q k)} (kvs : list (K * Qc)) (ks : list K) :
  NoDup ks →
  (∀ kv, kv ∈ kvs → kv.1 ∈ ks) →
  Qc_sum (key_sum kvs <$> filter Q ks)
  = Qc_sum (snd <$> filter (λ kv, Q kv.1) kvs).
Proof.
  intros Hnd. induction kvs as [|[k0 v] kvs IH]; intros Hcov.
  - rewrite filter_nil. apply Qc_sum_zero.
  - erewrite list_fmap_ext; [|intros i k _; apply key_sum_cons].
    rewrite Qc_sum_fmap_plus, IH by (intros; apply Hcov; by right).
    rewrite Qc_sum_indicator by (by apply NoDup_filter).
    rewrite filter_cons. cbn [fst].
    assert (k0 ∈ ks) as Hk0 by (apply (Hcov (k0, v)); left).
    destruct (decide (Q k0)) as [HQ|HQ].
    + rewrite decide_True by (by apply list_elem_of_filter).
      by rewrite fmap_cons, Qc_sum_cons.
    + rewrite decide_False; [by rewrite Qcplus_0_l|].
      rewrite list_elem_of_filter. by intros [? _].
Qed.

(** Grouping by [(ring, year)] and then summing the groups of one ring gives
    the sum over the rows of that ring. *)
Lemma regroup_by_ring {A B : Type} `{EqDecision A, EqDecision B}
    (kvs : list (A * B * Qc)) (a : A) :
  Qc_sum (snd <$> filter (λ t, t.1.1 = a) (groupby_sum kvs))
  = Qc_sum (snd <$> filter (λ t, t.1.1 = a) kvs).
Proof.
  assert (Qc_sum (key_sum kvs <$> filter (λ k, k.1 = a)
                    (remove_dups (fst <$> kvs)))
          = Qc_sum (snd <$> filter (λ t, t.1.1 = a) kvs)) as <-.
  { refine (key_sum_partition (λ k, k.1 = a) kvs _ (NoDup_remove_dups _) _).
    intros kv Hkv. rewrite elem_of_remove_dups.
    by apply list_elem_of_fmap_2. }
  f_equal. rewrite groupby_sum_eq.
  induction (remove_dups (fst <$> kvs)) as [|k ks IH]; [done|].
  rewrite fmap_cons, !filter_cons. cbn [fst].
  destruct (decide (k.1 = a)); [|done]. by rewrite !fmap_cons, IH.
Qed.

Lemma key_sum_drop_year {A B : Type} `{EqDecision A}
    (kvs : list (A * B * Qc)) (a : A) :
  key_sum ((λ t, (t.1.1, t.2)) <$> kvs) a
  = Qc_sum (snd <$> filter (λ t, t.1.1 = a) kvs).
Proof.
  unfold key_sum. induction kvs as [|[[a' b] v] kvs IH]; [done|].
  rewrite fmap_cons, !filter_cons. cbn [fst snd].
  destruct (decide (a' = a)); [|done]. by rewrite !fmap_cons, !Qc_sum_cons, IH.
Qed.

(** *** The two aggregates of the overlay scripts *)

Lemma by_ring_year_groups (inter : list (IRow G)) :
  by_ring_year inter ≡ₚ groupby_sum (omap ring_year_key inter).
Proof. unfold by_ring_year. by rewrite !merge_sort_Permutation. Qed.

Lemma by_ring_groups (inter : list (IRow G)) :
  by_ring inter ≡ₚ groupby_sum ((λ r, (i_ring r, i_area r)) <$> inter).
Proof. unfold by_ring. by rewrite !merge_sort_Permutation. Qed.

Lemma drop_year_rows (inter : list (IRow G)) :
  Forall (λ r, is_Some (i_year r)) inter →
  (λ t : string * Qc * Qc, (t.1.1, t.2)) <$> omap ring_year_key inter
  = (λ r, (i_ring r, i_area r)) <$> inter.
Proof.
  induction 1 as [|r inter [y Hy] _ IH]; [done|].
  cbn [omap list_omap]. unfold ring_year_key at 1. rewrite Hy. cbn.
  by rewrite IH.
Qed.

Lemma summed_over_year_rows (inter : list (IRow G)) ring :
  Forall (λ r, is_Some (i_year r)) inter →
  summed_over_year ring (by_ring_year inter)
  = key_sum ((λ r, (i_ring r, i_area r)) <$> inter) ring.
Proof.
  intros Hy. unfold summed_over_year.
  rewrite (by_ring_year_groups inter), regroup_by_ring.
  by rewrite <-key_sum_drop_year, drop_year_rows.
Qed.

Lemma groupby_sum_Permutation {K : Type} `{EqDecision K}
    (kvs1 kvs2 : list (K * Qc)) :
  (∀ k, k ∈ fst <$> kvs1 ↔ k ∈ fst <$> kvs2) →
  (∀ k, key_sum kvs1 k = key_sum kvs2 k) →
  groupby_sum kvs1 ≡ₚ groupby_sum kvs2.
Proof.
  intros Hk Hs. rewrite !groupby_sum_eq.
  rewrite (list_fmap_ext _ (λ k, (k, key_sum kvs2 k)) (remove_dups kvs1.*1))
    by (intros; by rewrite Hs).
  apply fmap_Permutation, NoDup_Permutation; try apply NoDup_remove_dups.
  intros k. by rewrite !elem_of_remove_dups.
Qed.

(** C8 (as the code has it). For an intersection feature set in which
    every feature has a year, and with exact sums, the totals table (area
    summed by ring) has, for every ring, the sum over year of that ring's
    rows of the time-series table (area summed by ring and year); it has the
    rows that 06 computes from the time-series table by [GROUP BY ring_id],
    and one row per ring. *)
Theorem totals_match_time_series (inter : list (IRow G)) :
  Forall (λ r, is_Some (i_year r)) inter →
  (∀ ring, total_for ring (by_ring inter)
           = summed_over_year ring (by_ring_year inter))
  ∧ by_ring inter ≡ₚ by_ring_duckdb (by_ring_year inter)
  ∧ NoDup (fst <$> by_ring inter).
Proof.
  intros Hy. split; [|split].
  - intros ring. rewrite summed_over_year_rows by done.
    by rewrite (by_ring_groups inter), total_for_groupby.
  - rewrite by_ring_groups. unfold by_ring_duckdb.
    rewrite merge_sort_Permutation.
    apply groupby_sum_Permutation.
    + intros k. rewrite <-(drop_year_rows inter Hy).
      rewrite <-!list_fmap_compose, !list_elem_of_fmap.
      split.
      * intros (t & -> & Ht). exists (t.1, key_sum (omap ring_year_key inter) t.1).
        split; [done|]. rewrite by_ring_year_groups, groupby_sum_eq.
        apply list_elem_of_fmap. exists t.1. split; [done|].
        rewrite elem_of_remove_dups. by apply list_elem_of_fmap_2.
      * intros (t & -> & Ht). rewrite by_ring_year_groups in Ht.
        rewrite groupby_sum_eq in Ht.
        apply list_elem_of_fmap in Ht as (k' & -> & Hk').
        rewrite elem_of_remove_dups in Hk'.
        apply list_elem_of_fmap in Hk' as (t' & -> & Ht'). by exists t'.
    + intros k. rewrite key_sum_drop_year.
      by rewrite <-(summed_over_year_rows inter k Hy).
  - rewrite by_ring_groups, groupby_sum_keys. apply NoDup_remove_dups.
Qed.

End AggregateFacts.

(** * Properties of the overlay scripts *)

Section OverlayFacts.
Context {P : Type} `{Countable P}.
Local Abbreviation Geom := (gset P) (only parsing).

Variable envelope : Geom → Geom.
Variable area : Geom → Qc.
Variable make_valid : Geom → Geom.
Variable explode_parts : Geom → list Geom.
Variable geom_type_of : Geom → geom_type.
Variable clip_raises : list Geom → Geom → bool.
Variable overlay_raises : list Geom → list Geom → bool.

(** *** The year column *)

Lemma overlay_columns_cons c cols :
  overlay_columns (c :: cols)
  = if decide (c = "geometry") then overlay_columns cols
    else c :: overlay_columns cols.
Proof.
  unfold overlay_columns. rewrite filter_cons.
  destruct (decide (c = "geometry")) as [->|Hc].
  - by rewrite decide_False by (by intros []).
  - by rewrite decide_True.
Qed.

Lemma find_year_col_None cols :
  find_year_col cols = None ↔ ∀ c, c ∈ cols → lower c ≠ "year".
Proof.
  unfold find_year_col. induction cols as [|c cols IH]; cbn [List.find].
  - split; [|done]. intros _ c Hc. by apply elem_of_nil in Hc.
  - case_bool_decide as Hc.
    + split; [done|]. intros Hall. destruct (Hall c); [left|done].
    + rewrite IH. split.
      * intros Hall c' [->|Hc']%elem_of_cons; [done|by apply Hall].
      * intros Hall c' Hc'. apply Hall. by right.
Qed.

Lemma find_year_col_overlay_columns cols :
  find_year_col (overlay_columns cols) = find_year_col cols.
Proof.
  induction cols as [|c cols IH]; [done|].
  rewrite overlay_columns_cons. unfold find_year_col in *.
  destruct (decide (c = "geometry")) as [->|Hc]; cbn [List.find].
  - by rewrite IH.
  - by rewrite IH.
Qed.

(** *** The bounding-box clip changes nothing downstream *)

Lemma overlay_nil_rings (f : Feature Geom) (rings : list (RingRow Geom)) :
  (∀ r, r ∈ rings → f_geom f ∩ rr_geom r = ∅) → overlay [f] rings = [].
Proof.
  unfold overlay. cbn [mbind list_bind]. rewrite app_nil_r.
  induction rings as [|r rings IH]; intros Hr; [done|].
  cbn [mbind list_bind]. rewrite decide_True by (apply Hr; left).
  apply IH. intros; apply Hr; by right.
Qed.

Lemma overlay_cons (f : Feature Geom) fs (rings : list (RingRow Geom)) :
  overlay (f :: fs) rings = overlay [f] rings ++ overlay fs rings.
Proof. unfold overlay. cbn [mbind list_bind]. by rewrite app_nil_r. Qed.

Lemma overlay_same_pieces (f f' : Feature Geom)
    (rings : list (RingRow Geom)) :
  f_year f' = f_year f →
  (∀ r, r ∈ rings → f_geom f' ∩ rr_geom r = f_geom f ∩ rr_geom r) →
  overlay [f'] rings = overlay [f] rings.
Proof.
  destruct f as [y g], f' as [y' g']. cbn [f_year f_geom].
  intros ->. unfold overlay. cbn [mbind list_bind]. rewrite !app_nil_r.
  induction rings as [|r rings IH]; intros Hr; [done|].
  cbn [mbind list_bind f_year f_geom]. rewrite (Hr r) by left.
  f_equal. apply IH. intros; apply Hr; by right.
Qed.

Lemma overlay_clip (fs : list (Feature Geom)) (rings : list (RingRow Geom))
    (mask : Geom) :
  (∀ r, r ∈ rings → rr_geom r ⊆ mask) →
  overlay (clip fs mask) rings = overlay fs rings.
Proof.
  intros Hm. induction fs as [|f fs IH]; [done|].
  unfold clip in *. cbn [omap list_omap].
  rewrite (overlay_cons f). case_decide as Hf.
  - rewrite IH, overlay_nil_rings; [done|].
    intros r Hr. specialize (Hm r Hr). set_solver.
  - rewrite overlay_cons, IH. f_equal.
    apply overlay_same_pieces; [done|]. cbn [f_geom].
    intros r Hr. specialize (Hm r Hr). set_solver.
Qed.

Lemma ring_in_union (rings : list (RingRow Geom)) r :
  r ∈ rings → rr_geom r ⊆ unary_union (rr_geom <$> rings).
Proof.
  intros Hr x Hx. unfold unary_union. apply elem_of_union_list.
  exists (rr_geom r). split; [|done]. by apply list_elem_of_fmap_2.
Qed.

(** *** C10: the missing import of 04 *)

(** C10. [unary_union] is not among the names 04_intersection.py binds;
    whenever both input files exist and a year column is found, [main]
    raises [NameError] at the bounding-box step: only the two loading
    messages have been printed, no clip or overlay has been attempted and no
    output is written. *)
Theorem main_04_name_error (rings : list (RingRow Geom))
    (prodes : Prodes Geom) (year_col : string) :
  find_year_col (columns prodes) = Some year_col →
  ("unary_union" ∉ module_names_04)
  ∧ main_04 envelope area clip_raises overlay_raises
      (Some rings) (Some prodes)
    = mkRun
        [Info (MTexto "Lendo anéis: data/processed/buffers/buffer_rings.shp");
         Info (MTexto
                 "Lendo PRODES (RR): data/processed/deforestation_rr.shp")]
        (Raise (NameError "unary_union")).
Proof.
  intros Hy. split; [by apply (bool_decide_unpack _)|].
  unfold main_04. cbn [load_gdf]. unfold mbind, Run_bind. cbn.
  by rewrite Hy.
Qed.

(** *** C5: a deforestation input without a year column *)

(** C5 (as the code has it). Without a year column, 04 exits with a fatal
    error before any processing; 05 raises a fatal error when the
    intersection is not empty, and writes the empty outputs when it is. *)
Theorem missing_year_column (rings : list (RingRow Geom))
    (prodes : Prodes Geom) :
  (∀ c, c ∈ columns prodes → lower c ≠ "year") →
  result (main_04 envelope area clip_raises overlay_raises
            (Some rings) (Some prodes))
    = Raise (SystemExit "Coluna 'year' não encontrada no PRODES.")
  ∧ let rings' := fix_geoms make_valid explode_parts geom_type_of
                    rr_geom set_rr_geom rings in
    let fs := fix_geoms make_valid explode_parts geom_type_of
                f_geom set_f_geom (features prodes) in
    let bbox := envelope (unary_union (rr_geom <$> rings')) in
    clip_raises (f_geom <$> fs) bbox = false →
    overlay_raises (f_geom <$> clip fs bbox) (rr_geom <$> rings') = false →
    result (script_05 envelope area make_valid explode_parts geom_type_of
              clip_raises overlay_raises rings prodes)
    = if decide (overlay (clip fs bbox) rings' = [])
      then Ok (empty_outputs "year")
      else Raise (RuntimeError
                    "Coluna 'year' não encontrada no PRODES recortado.").
Proof.
  intros Hy%find_year_col_None. split.
  - unfold main_04. cbn [load_gdf]. unfold mbind, Run_bind. cbn.
    by rewrite Hy.
  - intros rings' fs bbox Hclip Hov. unfold script_05.
    fold rings' fs bbox. unfold gpd_clip. rewrite Hclip.
    rewrite result_bind. cbn [result mret Run_ret].
    unfold overlay_steps_05, gpd_overlay. rewrite Hov.
    rewrite result_bind. cbn [result mret Run_ret].
    case_decide; [done|].
    by rewrite find_year_col_overlay_columns, Hy.
Qed.

(** *** An empty intersection *)

(** When the overlay succeeds with zero features, steps 4 to 7 of 04 and
    the script 05 end successfully with the empty outputs: an empty feature
    table with columns [ring_id], the year column, [area_ha], [geometry],
    and two empty aggregate tables.  Lines 109-110 of 04 make a raising
    overlay whose per-ring clips yield nothing fatal.  No run of [main]
    of 04 reaches these steps, see [main_04_name_error]. *)
Theorem empty_intersection_outputs (year_col : string)
    (fs : list (Feature Geom)) (rings : list (RingRow Geom))
    (rings05 : list (RingRow Geom)) (prodes05 : Prodes Geom) :
  (overlay_raises (f_geom <$> fs) (rr_geom <$> rings) = false →
   overlay fs rings = [] →
   result (overlay_steps_04 area clip_raises overlay_raises year_col fs rings)
   = Ok (empty_outputs year_col))
  ∧ (overlay_raises (f_geom <$> fs) (rr_geom <$> rings) = true →
     result (clip_by_ring clip_raises fs rings) = Ok [] →
     result (overlay_steps_04 area clip_raises overlay_raises year_col
               fs rings)
     = Raise (SystemExit "Interseção resultou vazia."))
  ∧ (let rings' := fix_geoms make_valid explode_parts geom_type_of
                     rr_geom set_rr_geom rings05 in
     let fs' := fix_geoms make_valid explode_parts geom_type_of
                  f_geom set_f_geom (features prodes05) in
     let bbox := envelope (unary_union (rr_geom <$> rings')) in
     clip_raises (f_geom <$> fs') bbox = false →
     overlay_raises (f_geom <$> clip fs' bbox) (rr_geom <$> rings') = false →
     overlay (clip fs' bbox) rings' = [] →
     result (script_05 envelope area make_valid explode_parts geom_type_of
               clip_raises overlay_raises rings05 prodes05)
     = Ok (empty_outputs "year")).
Proof.
  split; [|split].
  - intros Hov Hnil. unfold overlay_steps_04, intersect_04.
    rewrite Hov, Hnil, !result_bind. cbn [result info mret Run_ret].
    by rewrite decide_True.
  - intros Hov Hparts. unfold overlay_steps_04, intersect_04.
    rewrite Hov, !result_bind. cbn [result info warn]. by rewrite Hparts.
  - intros rings' fs' bbox Hclip Hov Hnil. unfold script_05.
    fold rings' fs' bbox. unfold gpd_clip. rewrite Hclip.
    rewrite result_bind. cbn [result mret Run_ret].
    unfold overlay_steps_05, gpd_overlay. rewrite Hov, Hnil.
    rewrite result_bind. cbn [result mret Run_ret]. by rewrite decide_True.
Qed.

(** *** C7 on 05: the bounding-box clip has no effect *)

(** In 05, where [unary_union] is imported, the run with the bounding-box
    clip is the run without it, provided the clip does not raise and the
    overlay raises on the clipped features exactly when it does on the
    unclipped ones. *)
Lemma preclip_no_effect_05 (rings : list (RingRow Geom))
    (prodes : Prodes Geom) :
  envelope_superset envelope →
  let rings' := fix_geoms make_valid explode_parts geom_type_of
                  rr_geom set_rr_geom rings in
  let fs := fix_geoms make_valid explode_parts geom_type_of
              f_geom set_f_geom (features prodes) in
  let bbox := envelope (unary_union (rr_geom <$> rings')) in
  clip_raises (f_geom <$> fs) bbox = false →
  overlay_raises (f_geom <$> clip fs bbox) (rr_geom <$> rings')
    = overlay_raises (f_geom <$> fs) (rr_geom <$> rings') →
  script_05 envelope area make_valid explode_parts geom_type_of
    clip_raises overlay_raises rings prodes
  = script_05_without_preclip area make_valid explode_parts geom_type_of
      overlay_raises rings prodes.
Proof.
  intros Henv rings' fs bbox Hclip Hov.
  unfold script_05, script_05_without_preclip. fold rings' fs bbox.
  unfold gpd_clip. rewrite Hclip.
  rewrite run_ret_bind. unfold overlay_steps_05, gpd_overlay.
  rewrite Hov, overlay_clip; [done|].
  intros r Hr. etrans; [by apply ring_in_union|apply Henv].
Qed.

End OverlayFacts.

(** * The overlay scripts on concrete inputs *)

Section OverlayExamples.

Lemma raster_envelope_superset : envelope_superset Raster.envelope.
Proof.
  intros g x Hx. unfold Raster.envelope.
  apply elem_of_elements in Hx.
  destruct (elements g) as [|y l]; [by apply elem_of_nil in Hx|].
  unfold Raster.cells. rewrite elem_of_list_to_set, elem_of_seqZ.
  assert (∀ z, z ∈ y :: l → foldr Z.min y l ≤ z ≤ foldr Z.max y l)%Z as Hb.
  { clear. intros z Hz. apply elem_of_cons in Hz as [->|Hz].
    - induction l as [|w l IH]; cbn [foldr]; lia.
    - induction l as [|w l IH]; [by apply elem_of_nil in Hz|].
      cbn [foldr]. apply elem_of_cons in Hz as [->|Hz]; [lia|].
      specialize (IH Hz). lia. }
  specialize (Hb x Hx). lia.
Qed.

(** Witness of C10. *)
Lemma main_04_name_error_witness :
  ("unary_union" ∉ module_names_04)
  ∧ main_04 Raster.envelope Raster.area Raster.never Raster.never
      (Some demo_rings) (Some demo_prodes)
    = mkRun
        [Info (MTexto "Lendo anéis: data/processed/buffers/buffer_rings.shp");
         Info (MTexto
                 "Lendo PRODES (RR): data/processed/deforestation_rr.shp")]
        (Raise (NameError "unary_union")).
Proof.
  apply (main_04_name_error Raster.envelope Raster.area Raster.never
           Raster.never demo_rings demo_prodes "YEAR").
  reflexivity.
Defined.

(** Counterexample to C5: 05 on a frame without a year column, with no
    rows or with polygons that meet no ring, ends successfully with the
    empty outputs. *)
Lemma no_year_column_empty_outputs :
  find_year_col (columns empty_prodes_no_year) = None
  ∧ result (script_05 Raster.envelope Raster.area Raster.make_valid
              Raster.explode_parts Raster.geom_type_of
              Raster.never Raster.never demo_rings empty_prodes_no_year)
    = Ok (empty_outputs "year")
  ∧ find_year_col (columns far_prodes_no_year) = None
  ∧ result (script_05 Raster.envelope Raster.area Raster.make_valid
              Raster.explode_parts Raster.geom_type_of
              Raster.never Raster.never demo_rings far_prodes_no_year)
    = Ok (empty_outputs "year").
Proof. repeat split; by vm_compute. Qed.

(** Witness of C5 as amended. *)
Lemma missing_year_column_witness :
  result (main_04 Raster.envelope Raster.area Raster.never Raster.never
            (Some demo_rings) (Some demo_prodes_no_year))
    = Raise (SystemExit "Coluna 'year' não encontrada no PRODES.")
  ∧ result (script_05 Raster.envelope Raster.area Raster.make_valid
              Raster.explode_parts Raster.geom_type_of
              Raster.never Raster.never demo_rings demo_prodes_no_year)
    = Raise (RuntimeError "Coluna 'year' não encontrada no PRODES recortado.").
Proof.
  destruct (missing_year_column Raster.envelope Raster.area
              Raster.make_valid Raster.explode_parts Raster.geom_type_of
              Raster.never Raster.never demo_rings demo_prodes_no_year)
    as [H04 H05].
  { apply Forall_forall. apply (bool_decide_unpack _). by vm_compute. }
  split; [exact H04|].
  cbv zeta in H05. rewrite H05 by reflexivity. by vm_compute.
Defined.

(** Steps 4 to 7 of 04 taken alone, with an overlay that raises: the
    per-ring clips yield no feature and the steps end with a fatal error. *)
Lemma fallback_empty_is_fatal :
  result (clip_by_ring Raster.never far_features demo_rings) = Ok []
  ∧ result (overlay_steps_04 Raster.area Raster.never Raster.always
              "year" far_features demo_rings)
    = Raise (SystemExit "Interseção resultou vazia.")
  ∧ result (clip_by_ring Raster.never [] demo_rings) = Ok []
  ∧ result (overlay_steps_04 Raster.area Raster.never Raster.always
              "year" [] demo_rings)
    = Raise (SystemExit "Interseção resultou vazia.").
Proof. repeat split; by vm_compute. Qed.

(** The empty intersection on the polygon outside the rings. *)
Lemma empty_intersection_outputs_witness :
  result (overlay_steps_04 Raster.area Raster.never Raster.never
            "YEAR" far_features demo_rings)
    = Ok (empty_outputs "YEAR")
  ∧ result (overlay_steps_04 Raster.area Raster.never Raster.always
              "YEAR" far_features demo_rings)
    = Raise (SystemExit "Interseção resultou vazia.")
  ∧ result (script_05 Raster.envelope Raster.area Raster.make_valid
              Raster.explode_parts Raster.geom_type_of
              Raster.never Raster.never demo_rings far_prodes_no_year)
    = Ok (empty_outputs "year").
Proof.
  destruct (empty_intersection_outputs Raster.envelope Raster.area
              Raster.make_valid Raster.explode_parts Raster.geom_type_of
              Raster.never Raster.never "YEAR" far_features demo_rings
              demo_rings far_prodes_no_year) as (Hprimary & _ & H05).
  destruct (empty_intersection_outputs Raster.envelope Raster.area
              Raster.make_valid Raster.explode_parts Raster.geom_type_of
              Raster.never Raster.always "YEAR" far_features demo_rings
              demo_rings far_prodes_no_year) as (_ & Hfallback & _).
  split; [|split].
  - apply Hprimary; by vm_compute.
  - apply Hfallback; by vm_compute.
  - apply H05; by vm_compute.
Defined.

(** C4 at a failing input: one polygon, with a year, outside every ring.
    The intersection is empty.  Whatever the geometry library does, [main]
    of 04 raises [NameError] after the two loading messages and writes
    nothing, where the claim has it end successfully with the empty
    outputs; 05 ends successfully with them. *)
Theorem empty_intersection_04_diverges
    (clip_raises : list (gset Z) → gset Z → bool)
    (overlay_raises : list (gset Z) → list (gset Z) → bool) :
  overlay (features far_prodes) demo_rings = []
  ∧ main_04 Raster.envelope Raster.area clip_raises overlay_raises
      (Some demo_rings) (Some far_prodes)
    = mkRun
        [Info (MTexto "Lendo anéis: data/processed/buffers/buffer_rings.shp");
         Info (MTexto
                 "Lendo PRODES (RR): data/processed/deforestation_rr.shp")]
        (Raise (NameError "unary_union"))
  ∧ result (script_05 Raster.envelope Raster.area Raster.make_valid
              Raster.explode_parts Raster.geom_type_of
              Raster.never Raster.never demo_rings far_prodes)
    = Ok (empty_outputs "year").
Proof. repeat split; by vm_compute. Qed.

(** C7 at a failing input: with the bounding-box step 04 raises
    [NameError] and writes nothing; without it the same inputs give the
    three output files. *)
Theorem preclip_04_diverges :
  result (main_04 Raster.envelope Raster.area Raster.never Raster.never
            (Some demo_rings) (Some demo_prodes))
    = Raise (NameError "unary_union")
  ∧ ∃ out,
      result (main_04_without_preclip Raster.area Raster.never Raster.never
                (Some demo_rings) (Some demo_prodes)) = Ok out
      ∧ length (rows (inter_parquet out)) = 4%nat
      ∧ (λ t : string * Qc, (t.1, this t.2)) <$> rows (by_ring_csv out)
        = [("0-5km", 500 # 1); (">5km", 500 # 1)]%Q.
Proof.
  split; [by vm_compute|].
  eexists. split; [by vm_compute|]. split; by vm_compute.
Qed.

(** On the same inputs 05 gives the same outputs with and without the
    clip. *)
Lemma preclip_no_effect_05_witness :
  script_05 Raster.envelope Raster.area Raster.make_valid
    Raster.explode_parts Raster.geom_type_of Raster.never Raster.never
    demo_rings demo_prodes
  = script_05_without_preclip Raster.area Raster.make_valid
      Raster.explode_parts Raster.geom_type_of Raster.never
      demo_rings demo_prodes.
Proof.
  apply (preclip_no_effect_05 Raster.envelope).
  - exact raster_envelope_superset.
  - reflexivity.
  - reflexivity.
Defined.

(** Counterexample to C8: 05 on two polygons of ring [0-5km], one of them
    with a null year.  The run succeeds; the totals table counts both
    polygons for the ring, the time-series table only the one with a year. *)
Lemma null_year_breaks_totals :
  ∃ out,
    result (script_05 Raster.envelope Raster.area Raster.make_valid
              Raster.explode_parts Raster.geom_type_of
              Raster.never Raster.never demo_rings demo_prodes_null_year)
      = Ok out
    ∧ this (total_for "0-5km" (rows (by_ring_csv out))) = (500 # 1)%Q
    ∧ this (summed_over_year "0-5km" (rows (by_ring_year_csv out)))
      = (300 # 1)%Q
    ∧ total_for "0-5km" (rows (by_ring_csv out))
      ≠ summed_over_year "0-5km" (rows (by_ring_year_csv out)).
Proof.
  eexists. split; [by vm_compute|]. split; [by vm_compute|].
  split; [by vm_compute|].
  intros Heq. apply (f_equal this) in Heq. vm_compute in Heq.
  discriminate Heq.
Qed.

(** Witness of C8 as amended. *)
Lemma totals_match_time_series_witness :
  (∀ ring, total_for ring (by_ring demo_inter)
           = summed_over_year ring (by_ring_year demo_inter))
  ∧ by_ring demo_inter ≡ₚ by_ring_duckdb (by_ring_year demo_inter)
  ∧ NoDup (fst <$> by_ring demo_inter).
Proof.
  apply (totals_match_time_series demo_inter).
  unfold demo_inter. repeat constructor; by eexists.
Defined.

(** The same on the rows of an intersection: a feature with a null year
    counts in the totals and not in the time series. *)
Example null_year_dropped :
  let inter := [mkIRow "0-5km" (Some (Qc_of_Z 2020)) (Qc_of_Z 300) ();
                mkIRow "0-5km" None (Qc_of_Z 200) ()] in
  this (total_for "0-5km" (by_ring inter)) = (500 # 1)%Q
  ∧ this (summed_over_year "0-5km" (by_ring_year inter)) = (300 # 1)%Q.
Proof. split; by vm_compute. Qed.

End OverlayExamples.

(** * Further properties of the ring builder *)

Section RingBuilderMore.
Context {P : Type} `{Countable P}.
Local Abbreviation Geom := (gset P) (only parsing).
Variable buffer : Geom → Qc → Geom.

(** *** Edge cases of [buffer_in_chunks] *)

Lemma lote_part roads_m aoi d_m (c i : nat) (g : Geom) :
  (lote buffer roads_m aoi d_m c i).2 = Some g →
  g ≠ ∅ ∧ g ⊆ unary_union aoi
  ∧ g ⊆ ⋃ ((λ r, buffer r d_m) <$> roads_m).
Proof.
  unfold lote. cbn [snd]. intros Hg%head_Some_elem_of.
  unfold overlay_geoms in Hg.
  apply list_elem_of_bind in Hg as (U & Hg & HU).
  apply list_elem_of_singleton in HU as ->.
  apply list_elem_of_bind in Hg as (a & Hg & Ha).
  case_decide as Hne; [by apply elem_of_nil in Hg|].
  apply list_elem_of_singleton in Hg as ->.
  split; [done|]. split.
  - intros x Hx. apply elem_of_union_list. exists a. set_solver.
  - intros x [Hx _]%elem_of_intersection.
    apply elem_of_union_list in Hx as (X & HX & Hx).
    apply elem_of_union_list. exists X. split; [|done].
    apply list_elem_of_fmap in HX as (r & -> & Hr).
    apply (list_elem_of_fmap_2 (λ r, buffer r d_m)).
    eapply subseteq_drop, subseteq_take, Hr.
Qed.

Lemma buffer_in_chunks_no_roads aoi d_m (c : Z) :
  c ≠ 0%Z → buffer_in_chunks buffer [] aoi d_m c = mkRun [] (Ok None).
Proof.
  intros Hc. unfold buffer_in_chunks. rewrite decide_False by done.
  case_decide; [done|]. unfold py_range0. cbn [length].
  replace ((0 + Z.to_nat c - 1) `div` Z.to_nat c)%nat with 0%nat; [done|].
  symmetry. apply Nat.div_small. lia.
Qed.

(** X1. [buffer_in_chunks] raises [ValueError] for a chunk size of 0,
    returns [None] without error for a negative chunk size, and returns
    [None] when there are no road segments. *)
Theorem buffer_in_chunks_degenerate roads_m aoi d_m (c : Z) :
  result (buffer_in_chunks buffer roads_m aoi d_m 0)
    = Raise (ValueError "range() arg 3 must not be zero")
  ∧ ((c < 0)%Z → buffer_in_chunks buffer roads_m aoi d_m c = mkRun [] (Ok None))
  ∧ (c ≠ 0%Z → buffer_in_chunks buffer [] aoi d_m c = mkRun [] (Ok None)).
Proof.
  split; [done|]. split.
  - intros Hc. unfold buffer_in_chunks.
    rewrite decide_False by lia. by rewrite decide_True by lia.
  - apply buffer_in_chunks_no_roads.
Qed.

Lemma buffer_in_chunks_some roads_m aoi d_m (c : Z) (g : Geom) :
  result (buffer_in_chunks buffer roads_m aoi d_m c) = Ok (Some g) →
  g ≠ ∅ ∧ g ⊆ unary_union aoi ∧ g ⊆ ⋃ ((λ r, buffer r d_m) <$> roads_m).
Proof.
  unfold buffer_in_chunks. case_decide; [done|]. cbn [result].
  set (lotes := if decide (c < 0)%Z then [] else _).
  intros Hg. case_decide as Hparts; [done|]. simplify_eq.
  assert (∀ p, p ∈ omap snd lotes →
            p ≠ ∅ ∧ p ⊆ unary_union aoi
            ∧ p ⊆ ⋃ ((λ r, buffer r d_m) <$> roads_m)) as Hall.
  { intros p (l & Hl & Hp)%list_elem_of_omap. unfold lotes in Hl.
    case_decide; [by apply elem_of_nil in Hl|].
    apply list_elem_of_fmap in Hl as (i & -> & _). by eapply lote_part. }
  destruct (omap snd lotes) as [|p parts] eqn:Hps; [done|].
  split; [|split].
  - destruct (Hall p) as (Hp & _); [left|].
    intros Hempty. apply Hp. unfold unary_union in Hempty.
    rewrite union_list_cons in Hempty. set_solver.
  - intros x (X & HX & Hx)%elem_of_union_list.
    destruct (Hall X HX) as (_ & HA & _). by apply HA.
  - intros x (X & HX & Hx)%elem_of_union_list.
    destruct (Hall X HX) as (_ & _ & HB). by apply HB.
Qed.

(** X2. A geometry returned by [buffer_in_chunks] is never empty, lies
    inside the AOI, and lies inside the union of the segment buffers. *)
Theorem buffer_in_chunks_clipped roads_m aoi d_m (c : Z) (g : Geom) :
  result (buffer_in_chunks buffer roads_m aoi d_m c) = Ok (Some g) →
  g ≠ ∅ ∧ g ⊆ unary_union aoi ∧ g ⊆ ⋃ ((λ r, buffer r d_m) <$> roads_m).
Proof. apply buffer_in_chunks_some. Qed.

(** *** The batches *)

Lemma py_range0_bound (n k i : nat) :
  (0 < k)%nat → i ∈ py_range0 n k → (i < n)%nat.
Proof.
  intros Hk. unfold py_range0.
  intros (j & -> & Hj)%list_elem_of_fmap. apply elem_of_seq in Hj.
  pose proof (Nat.div_mod (n + k - 1) k ltac:(lia)) as Hdm.
  pose proof (Nat.mod_upper_bound (n + k - 1) k ltac:(lia)). nia.
Qed.

(** X3. For a chunk size [c ≥ 1] the batches of [buffer_in_chunks] are
    consecutive slices of the road list: put end to end they are the road
    list, each has between 1 and [c] segments, there are [⌈n/c⌉] of them and
    one line is logged for each. *)
Theorem batches_cover_roads (roads_m aoi : list Geom) d_m (c : Z) :
  (1 ≤ c)%Z →
  let n := length roads_m in
  let k := Z.to_nat c in
  let batch := λ i, take ((i + k) `min` n - i) (drop i roads_m) in
  concat (batch <$> py_range0 n k) = roads_m
  ∧ Forall (λ i, (1 ≤ length (batch i) ≤ k)%nat) (py_range0 n k)
  ∧ length (py_range0 n k) = ((n + k - 1) `div` k)%nat
  ∧ log (buffer_in_chunks buffer roads_m aoi d_m c)
    = (λ i, Info (MLote i ((i + k) `min` n) n d_m)) <$> py_range0 n k.
Proof.
  intros Hc n k batch. assert (0 < k)%nat as Hk by lia.
  split; [by apply concat_lotes|]. split; [|split].
  - apply Forall_forall. intros i Hi.
    pose proof (py_range0_bound n k i Hk Hi).
    unfold batch. rewrite length_take, length_drop. fold n. lia.
  - unfold py_range0. by rewrite length_fmap, length_seq.
  - unfold buffer_in_chunks. rewrite !decide_False by lia.
    cbn [log]. by rewrite <-list_fmap_compose.
Qed.

(** *** Nested buffers *)

(** X4. Against an AOI polygon, the buffer for a smaller distance lies
    inside the buffer for a larger one, whatever the two chunk sizes. *)
Theorem buffers_nested (A : Geom) roads_m (d1 d2 : Qc) (c c' : Z) :
  buffer_mono buffer → (1 ≤ c)%Z → (1 ≤ c')%Z → d1 ≤ d2 →
  ∃ o1 o2,
    result (buffer_in_chunks buffer roads_m [A] d1 c) = Ok o1
    ∧ result (buffer_in_chunks buffer roads_m [A] d2 c') = Ok o2
    ∧ geom_of o1 ⊆ geom_of o2.
Proof.
  intros Hmono Hc Hc' Hd. do 2 eexists.
  split; [apply buffer_in_chunks_single; lia|].
  split; [apply buffer_in_chunks_single; lia|].
  rewrite !geom_of_nonempty. by apply buffer_union_clip_mono.
Qed.

(** *** The rings always cover the AOI *)

Lemma annuli_cover (prev : Geom) (Bs : list Geom) :
  List.last Bs prev ⊆ prev ∪ ⋃ annuli prev Bs.
Proof.
  revert prev. induction Bs as [|B Bs IH]; intros prev; [set_solver|].
  rewrite last_cons. cbn [annuli]. rewrite union_list_cons.
  specialize (IH B). intros x Hx. apply IH in Hx.
  destruct (decide (x ∈ prev)); set_solver.
Qed.

Lemma annuli_inside (U prev : Geom) (Bs : list Geom) :
  Forall (λ B, B ⊆ U) Bs → Forall (λ g, g ⊆ U) (annuli prev Bs).
Proof.
  revert prev. induction Bs as [|B Bs IH]; intros prev HB; [constructor|].
  inversion HB; subst. cbn [annuli]. constructor; [set_solver|by apply IH].
Qed.

Lemma ring_geoms_cover (U : Geom) (Bs : list Geom) :
  Bs ≠ [] → Forall (λ B, B ⊆ U) Bs →
  ⋃ ring_geoms U Bs = U ∧ Forall (λ g, g ⊆ U) (ring_geoms U Bs).
Proof.
  destruct Bs as [|B1 rest]; [done|]. intros _ HB.
  assert (Forall (λ g, g ⊆ U) (ring_geoms U (B1 :: rest))) as Hin.
  { cbn [ring_geoms]. inversion HB; subst. constructor; [done|].
    apply Forall_app. split; [by apply annuli_inside|].
    constructor; [set_solver|constructor]. }
  split; [|done]. apply set_eq. intros x. split.
  - intros (X & HX & Hx)%elem_of_union_list.
    rewrite Forall_forall in Hin. by apply (Hin X HX).
  - intros Hx. cbn [ring_geoms].
    rewrite union_list_cons, union_list_app_L, union_list_singleton_L.
    pose proof (annuli_cover B1 rest) as Hc.
    destruct (decide (x ∈ List.last rest B1)) as [Hl|Hl]; [|set_solver].
    apply Hc in Hl. set_solver.
Qed.

Lemma main_chunk_zero aoi roads_m (dist : list Qc) :
  ∃ e, result (main buffer aoi roads_m dist 0) = Raise e
    ∧ (dist ≠ [] → e = ValueError "range() arg 3 must not be zero").
Proof.
  unfold main. rewrite result_bind.
  pose proof (sorted_set_nonempty dist) as Hne.
  destruct (sorted_set dist) as [|d ds].
  - cbn. eexists. split; [done|]. intros Hd. by destruct (Hne Hd).
  - cbn [make_buffers]. rewrite !result_bind. cbn [result info].
    eexists. split; [done|done].
Qed.

Lemma kept_inside roads_m aoi (c : Z) d (b : Qc * Geom) :
  kept buffer roads_m aoi c d = Some b → b.2 ⊆ unary_union aoi.
Proof.
  unfold kept. destruct (result _) as [[g|]|] eqn:Hr; [|done..].
  intros [= <-]. by apply buffer_in_chunks_some in Hr as (_ & Hg & _).
Qed.

(** X5. Whatever the AOI frame, the roads, the distances and the chunk
    size, the rings of a successful run lie inside the AOI and their union is
    the whole AOI. *)
Theorem rings_cover_aoi aoi roads_m (dist : list Qc) (c : Z) out :
  result (main buffer aoi roads_m dist c) = Ok out →
  ⋃ (geometry <$> rings_file out) = unary_union aoi
  ∧ Forall (λ g, g ⊆ unary_union aoi) (geometry <$> rings_file out).
Proof.
  intros Hout. destruct (decide (c = 0%Z)) as [->|Hc].
  { destruct (main_chunk_zero aoi roads_m dist) as (e & He & _). congruence. }
  rewrite main_result in Hout by done.
  set (bs := omap (kept buffer roads_m aoi c) (sorted_set dist)) in *.
  assert (bs ≠ []) as Hbs by (by intros Hnil; rewrite Hnil in Hout).
  destruct (rings_of_ok aoi bs Hbs) as (out' & Hout' & _ & Hgeo & _).
  rewrite Hout in Hout'. simplify_eq. rewrite Hgeo.
  apply ring_geoms_cover.
  - intros Hnil. apply fmap_nil_inv in Hnil. done.
  - apply Forall_fmap, Forall_forall. intros b Hb.
    apply list_elem_of_omap in Hb as (d & _ & Hd). by eapply kept_inside.
Qed.

(** *** When no buffer can be made *)

Lemma omap_nil_all {A B} (f : A → option B) (l : list A) :
  (∀ x, x ∈ l → f x = None) → omap f l = [].
Proof.
  induction l as [|x l IH]; intros Hall; [done|].
  cbn [omap list_omap]. rewrite (Hall x) by left.
  apply IH. intros; apply Hall; by right.
Qed.

(** X6. [main] ends with a fatal error when no distance yields a buffer
    (no road segment, or every buffer union empty), and with [ValueError]
    when the chunk size is 0. *)
Theorem main_without_buffers aoi roads_m (dist : list Qc) (c : Z) :
  (dist ≠ [] →
   result (main buffer aoi roads_m dist 0)
   = Raise (ValueError "range() arg 3 must not be zero"))
  ∧ (c ≠ 0%Z →
     (∀ d, d ∈ dist → ¬ buffer_nonempty buffer roads_m aoi c d) →
     result (main buffer aoi roads_m dist c)
     = Raise (SystemExit
         "Não foi possível gerar nenhum buffer. Verifique os dados de estradas."))
  ∧ (c ≠ 0%Z →
     result (main buffer aoi [] dist c)
     = Raise (SystemExit
         "Não foi possível gerar nenhum buffer. Verifique os dados de estradas.")).
Proof.
  assert (∀ roads, c ≠ 0%Z →
            (∀ d, d ∈ dist → ¬ buffer_nonempty buffer roads aoi c d) →
            result (main buffer aoi roads dist c)
            = Raise (SystemExit
                "Não foi possível gerar nenhum buffer. Verifique os dados de estradas."))
    as Hnone.
  { intros roads Hc Hall. rewrite main_result by done.
    assert (omap (kept buffer roads aoi c) (sorted_set dist) = []) as ->;
      [|done].
    apply omap_nil_all. intros d Hd. rewrite elem_of_sorted_set in Hd.
    unfold kept. destruct (result _) as [[g|]|] eqn:Hr; [|done..].
    destruct (Hall d Hd). by exists g. }
  split; [|split].
  - intros Hne. destruct (main_chunk_zero aoi roads_m dist) as (e & -> & He).
    by rewrite He.
  - apply Hnone.
  - intros Hc. apply Hnone; [done|]. intros d _ [g Hg].
    rewrite buffer_in_chunks_no_roads in Hg by done. done.
Qed.

(** *** Bounds of the rings of any successful run *)



(** *** Names of the buffer files *)

Lemma string_app_length (s t : string) :
  String.length (s +:+ t) = (String.length s + String.length t)%nat.
Proof.
  induction s as [|a s IH]; [done|].
  change (S (String.length (s +:+ t))
          = S (String.length s + String.length t)).
  by rewrite IH.
Qed.

Lemma string_app_inj_r (s1 s2 t : string) : s1 +:+ t = s2 +:+ t → s1 = s2.
Proof.
  revert s2. induction s1 as [|a s1 IH]; intros [|b s2] Heq.
  - done.
  - apply (f_equal String.length) in Heq.
    rewrite (string_app_length (String b s2)) in Heq.
    change ("" +:+ t) with t in Heq. cbn [String.length] in Heq. lia.
  - apply (f_equal String.length) in Heq.
    rewrite (string_app_length (String a s1)) in Heq.
    change ("" +:+ t) with t in Heq. cbn [String.length] in Heq. lia.
  - change (String a (s1 +:+ t) = String b (s2 +:+ t)) in Heq.
    injection Heq as -> Heq. f_equal. by apply IH.
Qed.

Lemma buffer_name_inj (z1 z2 : Z) :
  "roads_buffer_" +:+ pretty z1 +:+ "km.shp"
  = "roads_buffer_" +:+ pretty z2 +:+ "km.shp" → z1 = z2.
Proof.
  intros Heq%(inj (String.append _))%string_app_inj_r.
  by apply (inj pretty).
Qed.

Lemma buffer_path_eq (d1 d2 : Qc) :
  buffer_path d1 = buffer_path d2 ↔ py_int d1 = py_int d2.
Proof.
  unfold buffer_path. split; [apply buffer_name_inj|by intros ->].
Qed.

(** X8. The file of a buffer is named after the integer part of its
    distance: two distances get the same file name exactly when their
    integer parts agree, so the buffer files of a run have distinct names
    exactly when the kept distances have distinct integer parts. *)
Theorem buffer_files_distinct aoi roads_m (dist : list Qc) (c : Z) out :
  result (main buffer aoi roads_m dist c) = Ok out →
  let ds := (λ f : string * (Qc * Geom), f.2.1) <$> buffer_files out in
  fst <$> buffer_files out = buffer_path <$> ds
  ∧ (∀ d1 d2, buffer_path d1 = buffer_path d2 ↔ py_int d1 = py_int d2)
  ∧ (NoDup (fst <$> buffer_files out) ↔ NoDup (py_int <$> ds)).
Proof.
  intros Hout ds. destruct (decide (c = 0%Z)) as [->|Hc].
  { destruct (main_chunk_zero aoi roads_m dist) as (e & He & _). congruence. }
  rewrite main_result in Hout by done.
  set (bs := omap (kept buffer roads_m aoi c) (sorted_set dist)) in *.
  assert (bs ≠ []) as Hbs by (by intros Hnil; rewrite Hnil in Hout).
  destruct (rings_of_ok aoi bs Hbs) as (out' & Hout' & Hfiles & _).
  rewrite Hout in Hout'. simplify_eq.
  assert (fst <$> buffer_files out' = buffer_path <$> ds) as Hpaths.
  { unfold ds. rewrite Hfiles, <-!list_fmap_compose. done. }
  split; [done|]. split; [apply buffer_path_eq|].
  rewrite Hpaths.
  assert (buffer_path <$> ds
          = (λ z : Z, "roads_buffer_" +:+ pretty z +:+ "km.shp")
              <$> (py_int <$> ds)) as ->
    by (by rewrite <-list_fmap_compose).
  apply NoDup_fmap. intros z1 z2 Hz. by apply buffer_name_inj.
Qed.

End RingBuilderMore.

(** * The class filter of the ring builder *)

Section RoadFilterFacts.
Context {P : Type} `{Countable P}.
Local Abbreviation Geom := (gset P) (only parsing).
Variable buffer : Geom → Qc → Geom.
Variable str_lower : string → string.
Variable null_text : string.

Lemma filter_by_fclass_result (roads : Roads Geom) (keep : list string) :
  result (filter_by_fclass str_lower null_text roads keep)
  = Ok (if decide ("fclass" ∈ road_columns roads)
        then mkRoads (road_columns roads)
               (filter (λ s, str_lower (astype_str null_text (fclass s))
                               ∈ str_lower <$> keep) (segments roads))
        else roads).
Proof. unfold filter_by_fclass. by case_decide. Qed.

(** X9. With a column [fclass], [filter_by_fclass] keeps, in their order,
    exactly the segments whose class equals one of the requested classes
    up to letter case, and leaves the columns alone; without the column it
    returns the roads unchanged with one warning. *)
Theorem filter_by_fclass_keeps (roads : Roads Geom) (keep : list string) :
  ("fclass" ∈ road_columns roads →
   ∃ roads', result (filter_by_fclass str_lower null_text roads keep)
             = Ok roads'
     ∧ road_columns roads' = road_columns roads
     ∧ segments roads' `sublist_of` segments roads
     ∧ ∀ s, s ∈ segments roads' ↔
         s ∈ segments roads
         ∧ ∃ k, k ∈ keep
             ∧ str_lower (astype_str null_text (fclass s)) = str_lower k)
  ∧ ("fclass" ∉ road_columns roads →
     ∃ w, filter_by_fclass str_lower null_text roads keep
          = mkRun [Warn w] (Ok roads)).
Proof.
  split; intros Hcol.
  - eexists. rewrite filter_by_fclass_result, decide_True by done.
    split; [done|]. cbn [road_columns segments].
    split; [done|]. split; [apply sublist_filter|].
    intros s. rewrite list_elem_of_filter, list_elem_of_fmap.
    split.
    + intros [(k & Hk & Hin) Hs]. split; [done|]. by exists k.
    + intros [Hs (k & Hin & Hk)]. split; [|done]. by exists k.
  - eexists. unfold filter_by_fclass. by rewrite decide_False by done.
Qed.

(** X10. The result of [filter_by_fclass] depends only on the set of the
    lower-cased class names (order and repetitions in [keep] play no part),
    and filtering a second time with the same classes changes nothing. *)
Theorem filter_by_fclass_stable (roads : Roads Geom)
    (keep keep' : list string) :
  (∀ x, x ∈ str_lower <$> keep ↔ x ∈ str_lower <$> keep') →
  result (filter_by_fclass str_lower null_text roads keep)
  = result (filter_by_fclass str_lower null_text roads keep')
  ∧ ∀ roads', result (filter_by_fclass str_lower null_text roads keep)
              = Ok roads' →
      result (filter_by_fclass str_lower null_text roads' keep') = Ok roads'.
Proof.
  intros Hset. rewrite !filter_by_fclass_result.
  assert (∀ l : list (Segment Geom),
            filter (λ s, str_lower (astype_str null_text (fclass s))
                           ∈ str_lower <$> keep) l
            = filter (λ s, str_lower (astype_str null_text (fclass s))
                             ∈ str_lower <$> keep') l) as Hfilter.
  { intros l. apply list_filter_iff. intros s. apply Hset. }
  split.
  - by rewrite Hfilter.
  - intros roads'.
    destruct (decide ("fclass" ∈ road_columns roads)) as [Hcol|Hcol];
      intros [= <-]; rewrite filter_by_fclass_result;
      cbn [road_columns segments].
    + rewrite decide_True by done. do 2 f_equal.
      rewrite Hfilter, list_filter_filter. apply list_filter_iff. tauto.
    + by rewrite decide_False by done.
Qed.

Lemma main_03_loaded aoi (roads : Roads Geom) dist (c : Z)
    (classes : list string) :
  classes ≠ [] →
  let roads' := if decide ("fclass" ∈ road_columns roads)
                then filter (λ s, str_lower (astype_str null_text (fclass s))
                                    ∈ str_lower <$> classes) (segments roads)
                else segments roads in
  result (main_03 buffer str_lower null_text (Some aoi) (Some roads) dist c
            (Some classes))
  = if decide (roads' = [])
    then Raise (SystemExit
           "Filtro por fclass resultou em zero estradas. Remova o filtro ou verifique valores.")
    else result (main buffer aoi (seg_geom <$> roads') dist c).
Proof.
  intros Hne roads'. destruct classes as [|k keep]; [done|].
  unfold main_03. cbn [load_gdf]. rewrite !run_ret_bind, !result_bind.
  rewrite filter_by_fclass_result.
  assert (segments
            (if decide ("fclass" ∈ road_columns roads)
             then mkRoads (road_columns roads)
                    (filter (λ s, str_lower (astype_str null_text (fclass s))
                                    ∈ str_lower <$> k :: keep)
                       (segments roads))
             else roads) = roads') as ->.
  { unfold roads'. by case_decide. }
  case_decide as Hnil.
  - done.
  - cbn [result mret Run_ret]. do 3 f_equal. unfold roads'. by case_decide.
Qed.

(** X11. With a non-empty class filter, [main] of 03 stops with a fatal
    error when no segment has a requested class, or when the road file has
    no segment at all, whatever the distances and the chunk size; when the
    road file has no column [fclass] the filter is ignored and the result is
    that of the unfiltered run; otherwise the result is the ring builder's on
    the kept segments, a sub-list of the road file's. *)
Theorem main_03_class_filter aoi (roads : Roads Geom) dist (c : Z)
    (classes : list string) :
  classes ≠ [] →
  let run := main_03 buffer str_lower null_text (Some aoi) (Some roads)
               dist c in
  let zero := Raise (SystemExit
    "Filtro por fclass resultou em zero estradas. Remova o filtro ou verifique valores.") in
  let m := λ s, str_lower (astype_str null_text (fclass s))
                  ∈ str_lower <$> classes in
  ("fclass" ∈ road_columns roads → (∀ s, s ∈ segments roads → ¬ m s) →
   result (run (Some classes)) = zero)
  ∧ (segments roads = [] → result (run (Some classes)) = zero)
  ∧ ("fclass" ∉ road_columns roads → segments roads ≠ [] →
     result (run (Some classes)) = result (run None))
  ∧ ("fclass" ∈ road_columns roads → (∃ s, s ∈ segments roads ∧ m s) →
     result (run (Some classes))
     = result (main buffer aoi (seg_geom <$> filter m (segments roads))
                 dist c)).
Proof.
  intros Hne run zero m. unfold run.
  rewrite main_03_loaded by done. fold m.
  destruct (decide ("fclass" ∈ road_columns roads)) as [Hcol|Hcol];
    repeat split; try done.
  - intros _ Hnone. rewrite decide_True; [done|].
    induction (segments roads) as [|s l IH]; [done|].
    rewrite filter_cons, decide_False by (apply Hnone; left).
    apply IH. intros; apply Hnone; by right.
  - intros Hnil. rewrite Hnil. by rewrite decide_True.
  - intros _ (s & Hs & Hm). rewrite decide_False; [done|].
    intros Hnil. assert (s ∈ filter m (segments roads)) as Hin
      by (by apply list_elem_of_filter).
    rewrite Hnil in Hin. by apply elem_of_nil in Hin.
  - intros Hnil. by rewrite decide_True.
  - intros _ Hsegs. rewrite decide_False by done.
    unfold main_03. cbn [load_gdf]. by rewrite !run_ret_bind.
Qed.

End RoadFilterFacts.

(** * Column lookup in the preparation scripts *)

Section ColumnFacts.
Variable str_lower : string → string.

Lemma lower_dict_snoc cols c :
  lower_dict str_lower (cols ++ [c])
  = <[str_lower c := c]> (lower_dict str_lower cols).
Proof. unfold lower_dict. by rewrite foldl_app. Qed.

Lemma lower_dict_lookup cols k :
  lower_dict str_lower cols !! k = last (filter (λ c, str_lower c = k) cols).
Proof.
  induction cols as [|c cols IH] using rev_ind; [done|].
  rewrite lower_dict_snoc, filter_app, filter_cons, filter_nil.
  destruct (decide (str_lower c = k)) as [<-|Hne].
  - by rewrite lookup_insert_eq, last_snoc.
  - by rewrite lookup_insert_ne, app_nil_r.
Qed.

Lemma find_col_loop_None (lower : gmap string string) cands :
  find_col_loop str_lower lower cands = None
  ↔ ∀ c, c ∈ cands → lower !! str_lower c = None.
Proof.
  induction cands as [|c cands IH]; cbn [find_col_loop].
  - split; [|done]. intros _ c Hc. by apply elem_of_nil in Hc.
  - destruct (lower !! str_lower c) as [x|] eqn:Hx.
    + split; [done|]. intros Hall. specialize (Hall c ltac:(left)).
      congruence.
    + rewrite IH. split.
      * intros Hall c' [->|Hc']%elem_of_cons; [done|by apply Hall].
      * intros Hall c' Hc'. apply Hall. by right.
Qed.

Lemma find_col_loop_Some (lower : gmap string string) cands x :
  find_col_loop str_lower lower cands = Some x
  ↔ ∃ pre c post, cands = pre ++ c :: post
      ∧ (∀ c', c' ∈ pre → lower !! str_lower c' = None)
      ∧ lower !! str_lower c = Some x.
Proof.
  induction cands as [|c cands IH]; cbn [find_col_loop].
  - split; [done|]. intros (pre & c & post & Heq & _).
    by destruct pre.
  - destruct (lower !! str_lower c) as [y|] eqn:Hy.
    + split.
      * intros [= ->]. exists [], c, cands. split; [done|]. split; [|done].
        intros c' Hc'. by apply elem_of_nil in Hc'.
      * intros (pre & c0 & post & Heq & Hpre & Hc0).
        destruct pre as [|p pre]; injection Heq as <- ->; [congruence|].
        specialize (Hpre c ltac:(left)). congruence.
    + rewrite IH. split.
      * intros (pre & c0 & post & -> & Hpre & Hc0).
        exists (c :: pre), c0, post. split; [done|]. split; [|done].
        intros c' [->|Hc']%elem_of_cons; [done|by apply Hpre].
      * intros (pre & c0 & post & Heq & Hpre & Hc0).
        destruct pre as [|p pre]; injection Heq as <- ->; [congruence|].
        exists pre, c0, post. split; [done|]. split; [|done].
        intros c' Hc'. apply Hpre. by right.
Qed.

Lemma last_filter_None {A} (Q : A → Prop) `{∀ x, Decision (Q x)} (l : list A) :
  last (filter Q l) = None ↔ ∀ x, x ∈ l → ¬ Q x.
Proof.
  rewrite last_None. split.
  - intros Hnil x Hx HQ.
    assert (x ∈ filter Q l) as Hin by (by apply list_elem_of_filter).
    rewrite Hnil in Hin. by apply elem_of_nil in Hin.
  - intros Hall. induction l as [|x l IH]; [done|].
    rewrite filter_cons, decide_False by (apply Hall; left).
    apply IH. intros; apply Hall; by right.
Qed.

Lemma last_filter_split {A} (Q : A → Prop) `{∀ x, Decision (Q x)}
    (l : list A) x :
  last (filter Q l) = Some x
  ↔ ∃ l1 l2, l = l1 ++ x :: l2 ∧ Q x ∧ ∀ y, y ∈ l2 → ¬ Q y.
Proof.
  induction l as [|a l IH] using rev_ind.
  - split; [done|]. intros (l1 & l2 & Heq & _). by destruct l1.
  - rewrite filter_app, filter_cons, filter_nil.
    destruct (decide (Q a)) as [Ha|Ha].
    + rewrite last_snoc. split.
      * intros [= ->]. exists l, []. split; [done|]. split; [done|].
        intros y Hy. by apply elem_of_nil in Hy.
      * intros (l1 & l2 & Heq & Hx & Hl2).
        destruct l2 as [|b l2 _] using rev_ind.
        -- apply app_inj_tail in Heq as [_ ->]. done.
        -- rewrite app_comm_cons, app_assoc in Heq.
           apply app_inj_tail in Heq as [_ ->].
           destruct (Hl2 b); [|done]. apply elem_of_app. right. left.
    + rewrite app_nil_r, IH. split.
      * intros (l1 & l2 & -> & Hx & Hl2). exists l1, (l2 ++ [a]).
        split; [by rewrite <-app_assoc|]. split; [done|].
        intros y [Hy|Hy%list_elem_of_singleton]%elem_of_app;
          [by apply Hl2|by subst].
      * intros (l1 & l2 & Heq & Hx & Hl2).
        destruct l2 as [|b l2 _] using rev_ind.
        -- apply app_inj_tail in Heq as [_ ->]. done.
        -- rewrite app_comm_cons, app_assoc in Heq.
           apply app_inj_tail in Heq as [-> ->].
           exists l1, l2. split; [done|]. split; [done|].
           intros y Hy. apply Hl2, elem_of_app. by left.
Qed.

(** X12. [find_col] of 01 returns nothing exactly when no column equals a
    candidate up to letter case; otherwise it returns a column matching the
    first candidate that has a match, and among the columns matching that
    candidate the last one. *)
Theorem find_col_spec (columns candidates : list string) :
  (find_col str_lower columns candidates = None
   ↔ ∀ c col, c ∈ candidates → col ∈ columns →
       str_lower col ≠ str_lower c)
  ∧ ∀ x, find_col str_lower columns candidates = Some x
      ↔ ∃ pre c post l1 l2,
          candidates = pre ++ c :: post
          ∧ (∀ c' col, c' ∈ pre → col ∈ columns →
               str_lower col ≠ str_lower c')
          ∧ columns = l1 ++ x :: l2
          ∧ str_lower x = str_lower c
          ∧ ∀ col, col ∈ l2 → str_lower col ≠ str_lower c.
Proof.
  unfold find_col. split.
  - rewrite find_col_loop_None. split.
    + intros Hall c col Hc Hcol. specialize (Hall c Hc).
      rewrite lower_dict_lookup, last_filter_None in Hall.
      by apply Hall.
    + intros Hall c Hc. rewrite lower_dict_lookup, last_filter_None.
      intros col Hcol. by apply Hall.
  - intros x. rewrite find_col_loop_Some. split.
    + intros (pre & c & post & Hc & Hpre & Hx).
      rewrite lower_dict_lookup, last_filter_split in Hx.
      destruct Hx as (l1 & l2 & Hcols & Hxc & Hl2).
      exists pre, c, post, l1, l2. repeat split; try done.
      intros c' col Hc' Hcol. specialize (Hpre c' Hc').
      rewrite lower_dict_lookup, last_filter_None in Hpre.
      by apply Hpre.
    + intros (pre & c & post & l1 & l2 & Hc & Hpre & Hcols & Hxc & Hl2).
      exists pre, c, post. split; [done|]. split.
      * intros c' Hc'. rewrite lower_dict_lookup, last_filter_None.
        intros col Hcol. by apply Hpre.
      * rewrite lower_dict_lookup, last_filter_split.
        by exists l1, l2.
Qed.

End ColumnFacts.

Section YearColumnFacts.
Context {P : Type} `{Countable P}.
Local Abbreviation Geom := (gset P) (only parsing).
Variable envelope : Geom → Geom.
Variable area : Geom → Qc.
Variable clip_raises : list Geom → Geom → bool.
Variable overlay_raises : list Geom → list Geom → bool.

Lemma year_col_pick (columns : list string) (c : string) :
  (if decide (c ∈ lower <$> columns)
   then i ← py_index c (lower <$> columns); columns !! i
   else None)
  = List.find (λ x, bool_decide (lower x = c)) columns.
Proof.
  induction columns as [|x l IH].
  - by rewrite decide_False by apply not_elem_of_nil.
  - rewrite fmap_cons. cbn [List.find]. unfold py_index in *.
    cbn [list_find]. case_bool_decide as Hx.
    + rewrite decide_True by (rewrite Hx; left).
      by rewrite decide_True.
    + rewrite (decide_False (P:=lower x = c)) by done. rewrite <-IH.
      destruct (decide (c ∈ lower <$> l)) as [Hin|Hin].
      * rewrite decide_True by (by right).
        destruct (list_find (λ y, y = c) (lower <$> l)) as [[i y]|]; done.
      * rewrite decide_False; [done|].
        intros [Heq|?]%elem_of_cons; [by destruct Hx|done].
Qed.

(** X13. The summary of 02 looks for the year column as 04 does, and then
    for a column named [ano]: when 04 finds a year column, 02 reports the
    same column; when no column is named [year] the summary of 02 uses the
    first column named [ano] (up to letter case) while 04 stops with a
    fatal error. *)
Theorem summary_year_col_vs_04 (rings : list (RingRow Geom))
    (prodes : Prodes Geom) :
  (∀ c, find_year_col (columns prodes) = Some c →
        summary_year_col (columns prodes) = Some c)
  ∧ (find_year_col (columns prodes) = None →
     summary_year_col (columns prodes)
     = List.find (λ x, bool_decide (lower x = "ano")) (columns prodes)
     ∧ result (main_04 envelope area clip_raises overlay_raises
                 (Some rings) (Some prodes))
       = Raise (SystemExit "Coluna 'year' não encontrada no PRODES.")).
Proof.
  unfold summary_year_col. cbn [year_col_loop].
  pose proof (year_col_pick (columns prodes) "year") as Hyear.
  pose proof (year_col_pick (columns prodes) "ano") as Hano.
  fold (find_year_col (columns prodes)) in Hyear.
  split.
  - intros c Hc. rewrite Hc in Hyear.
    destruct (decide ("year" ∈ lower <$> columns prodes)); [done|].
    done.
  - intros Hnone. rewrite Hnone in Hyear. split.
    + destruct (decide ("year" ∈ lower <$> columns prodes)) as [Hin|Hin].
      * apply list_elem_of_fmap in Hin as (x & Hx & Hin).
        rewrite find_year_col_None in Hnone. by destruct (Hnone x Hin).
      * destruct (decide ("ano" ∈ lower <$> columns prodes)); done.
    + unfold main_04. cbn [load_gdf]. unfold mbind, Run_bind. cbn.
      by rewrite Hnone.
Qed.

End YearColumnFacts.

(** * Further properties of the overlay *)

Section OverlayMore.
Context {P : Type} `{Countable P}.
Local Abbreviation Geom := (gset P) (only parsing).
Variable area : Geom → Qc.
Variable clip_raises : list Geom → Geom → bool.
Variable overlay_raises : list Geom → list Geom → bool.

Lemma elem_of_overlay (fs : list (Feature Geom))
    (rings : list (RingRow Geom)) (p : Piece Geom) :
  p ∈ overlay fs rings
  ↔ ∃ f r, f ∈ fs ∧ r ∈ rings ∧ f_geom f ∩ rr_geom r ≠ ∅
      ∧ p = mkPiece (rr_id r) (f_year f) (f_geom f ∩ rr_geom r).
Proof.
  unfold overlay. rewrite list_elem_of_bind. split.
  - intros (f & Hp & Hf). apply list_elem_of_bind in Hp as (r & Hp & Hr).
    case_decide; [by apply elem_of_nil in Hp|].
    apply list_elem_of_singleton in Hp. by exists f, r.
  - intros (f & r & Hf & Hr & Hne & ->). exists f. split; [|done].
    apply list_elem_of_bind. exists r. split; [|done].
    rewrite decide_False by done. by left.
Qed.

(** *** Area is neither lost nor counted twice *)

Lemma area_pieces_of_feature (f : Feature Geom)
    (rings : list (RingRow Geom)) :
  area_additive area →
  ForallOrdPairs (##) (rr_geom <$> rings) →
  Qc_sum ((λ p, area (p_geom p)) <$> overlay [f] rings)
  = area (f_geom f ∩ ⋃ (rr_geom <$> rings)).
Proof.
  intros [H0 Hadd]. unfold overlay. cbn [mbind list_bind].
  rewrite app_nil_r.
  induction rings as [|r rings IH]; intros Hdisj.
  - cbn. rewrite <-H0. f_equal. set_solver.
  - rewrite fmap_cons in Hdisj. inversion Hdisj as [|? ? Hr Hrest]; subst.
    cbn [mbind list_bind]. rewrite fmap_cons, union_list_cons.
    assert (f_geom f ∩ (rr_geom r ∪ ⋃ (rr_geom <$> rings))
            = (f_geom f ∩ rr_geom r) ∪ (f_geom f ∩ ⋃ (rr_geom <$> rings)))
      as -> by set_solver.
    rewrite Hadd.
    + rewrite <-(IH Hrest). case_decide as He.
      * rewrite He, H0, Qcplus_0_l. done.
      * rewrite fmap_app, Qc_sum_app. f_equal.
        unfold Qc_sum. cbn [fmap list_fmap foldr p_geom]. ring.
    + intros x [_ Hx1]%elem_of_intersection [_ Hx2]%elem_of_intersection.
      apply elem_of_union_list in Hx2 as (R & HR & HxR).
      rewrite Forall_forall in Hr. by apply (Hr R HR x).
Qed.

Lemma overlay_area_sum (fs : list (Feature Geom))
    (rings : list (RingRow Geom)) :
  area_additive area →
  ForallOrdPairs (##) (rr_geom <$> rings) →
  Qc_sum (i_area <$> (add_area area <$> overlay fs rings))
  = Qc_sum ((λ f, area (f_geom f ∩ ⋃ (rr_geom <$> rings)) / Qc_of_Z 10000)
              <$> fs).
Proof.
  intros Hadd Hdisj. induction fs as [|f fs IH]; [done|].
  rewrite overlay_cons, !fmap_app, Qc_sum_app, IH, fmap_cons, Qc_sum_cons.
  f_equal. rewrite <-(area_pieces_of_feature f rings Hadd Hdisj).
  rewrite <-list_fmap_compose.
  induction (overlay [f] rings) as [|p ps IHp].
  { unfold Qc_sum, Qcdiv. cbn [fmap list_fmap foldr]. ring. }
  rewrite !fmap_cons, !Qc_sum_cons, IHp. cbn. unfold Qcdiv. ring.
Qed.

(** X15. When the rings are pairwise disjoint and area is additive, the
    areas in hectares of the overlay pieces add up to the area of the part
    of each feature that lies in the rings: no area is lost or counted
    twice.  When the rings cover the features, this is the area of the
    features. *)
Theorem overlay_area_conserved (fs : list (Feature Geom))
    (rings : list (RingRow Geom)) :
  area_additive area →
  ForallOrdPairs (##) (rr_geom <$> rings) →
  Qc_sum (i_area <$> (add_area area <$> overlay fs rings))
  = Qc_sum ((λ f, area (f_geom f ∩ ⋃ (rr_geom <$> rings)) / Qc_of_Z 10000)
              <$> fs)
  ∧ ((∀ f, f ∈ fs → f_geom f ⊆ ⋃ (rr_geom <$> rings)) →
     Qc_sum (i_area <$> (add_area area <$> overlay fs rings))
     = Qc_sum ((λ f, area (f_geom f) / Qc_of_Z 10000) <$> fs)).
Proof.
  intros Hadd Hdisj.
  pose proof (overlay_area_sum fs rings Hadd Hdisj) as Hsum.
  split; [done|]. intros Hcov. rewrite Hsum.
  f_equal. apply list_fmap_ext. intros i f Hf%list_elem_of_lookup_2.
  do 2 f_equal. specialize (Hcov f Hf). set_solver.
Qed.

(** *** The fallback of 04 *)

Lemma clip_pieces (fs : list (Feature Geom)) (r : RingRow Geom) :
  (λ f, mkPiece (rr_id r) (f_year f) (f_geom f)) <$> clip fs (rr_geom r)
  = f ← fs; if decide (f_geom f ∩ rr_geom r = ∅) then []
            else [mkPiece (rr_id r) (f_year f) (f_geom f ∩ rr_geom r)].
Proof.
  unfold clip. induction fs as [|f fs IH]; [done|].
  cbn [omap list_omap mbind list_bind]. rewrite <-IH.
  by case_decide.
Qed.

Lemma clip_by_ring_ok (fs : list (Feature Geom))
    (rings : list (RingRow Geom)) :
  (∀ r, r ∈ rings → clip_raises (f_geom <$> fs) (rr_geom r) = false) →
  ∃ parts, result (clip_by_ring clip_raises fs rings) = Ok parts
    ∧ concat parts
      = (r ← rings; f ← fs;
         if decide (f_geom f ∩ rr_geom r = ∅) then []
         else [mkPiece (rr_id r) (f_year f) (f_geom f ∩ rr_geom r)])
    ∧ (parts = [] ↔ concat parts = []).
Proof.
  induction rings as [|r rings IH]; intros Hclip.
  - by exists [].
  - destruct IH as (parts & Hparts & Hconcat & Hnil).
    { intros; apply Hclip; by right. }
    cbn [clip_by_ring]. unfold gpd_clip at 1.
    rewrite (Hclip r) by left. rewrite run_ret_bind, result_bind, Hparts.
    cbn [result mret Run_ret]. eexists. split; [done|].
    cbn [mbind list_bind]. rewrite <-Hconcat, <-clip_pieces.
    destruct (clip fs (rr_geom r)) as [|f' sub] eqn:Hsub.
    + rewrite decide_True by done. done.
    + rewrite decide_False by done. split; [done|]. split; done.
Qed.

Lemma clip_by_ring_no_raise (fs : list (Feature Geom))
    (rings : list (RingRow Geom)) parts :
  result (clip_by_ring clip_raises fs rings) = Ok parts →
  ∀ r, r ∈ rings → clip_raises (f_geom <$> fs) (rr_geom r) = false.
Proof.
  revert parts. induction rings as [|r0 rings IH]; intros parts Hok r Hr.
  - by apply elem_of_nil in Hr.
  - cbn [clip_by_ring] in Hok. unfold gpd_clip at 1 in Hok.
    destruct (clip_raises (f_geom <$> fs) (rr_geom r0)) eqn:Hc; [done|].
    rewrite run_ret_bind, result_bind in Hok.
    destruct (result (clip_by_ring clip_raises fs rings)) as [parts'|] eqn:Hp;
      [|done].
    apply elem_of_cons in Hr as [->|Hr]; [done|]. by eapply IH.
Qed.

Lemma bind_swap_Permutation {A B C} (f : A → B → list C)
    (l : list A) (k : list B) :
  (a ← l; b ← k; f a b) ≡ₚ (b ← k; a ← l; f a b).
Proof.
  induction l as [|a l IH].
  - cbn. induction k as [|b k IHk]; [done|]. by cbn.
  - cbn [mbind list_bind]. rewrite IH. clear IH.
    induction k as [|b k IHk]; [done|].
    cbn [mbind list_bind]. rewrite <-IHk.
    rewrite <-!(assoc_L (++)). f_equiv.
    rewrite !(assoc_L (++)). f_equiv. apply Permutation_app_comm.
Qed.

Lemma intersect_04_ok (fs : list (Feature Geom))
    (rings : list (RingRow Geom)) inter :
  result (intersect_04 clip_raises overlay_raises fs rings) = Ok inter →
  inter ≡ₚ overlay fs rings.
Proof.
  unfold intersect_04. rewrite !result_bind. cbn [result info].
  destruct (overlay_raises _ _).
  - rewrite !result_bind. cbn [result warn].
    destruct (result (clip_by_ring clip_raises fs rings)) as [parts|] eqn:Hparts;
      [|done].
    pose proof (clip_by_ring_no_raise fs rings parts Hparts) as Hclip.
    destruct (clip_by_ring_ok fs rings Hclip) as (parts' & Hparts' & Hconcat & _).
    rewrite Hparts in Hparts'. injection Hparts' as <-.
    case_decide; [done|]. cbn [result mret Run_ret]. intros [= <-].
    rewrite Hconcat. unfold overlay. apply bind_swap_Permutation.
  - cbn [result mret Run_ret]. by intros [= <-].
Qed.

End OverlayMore.

(** * Further properties of the aggregates *)

Section AggregateMore.
Context {G : Type}.

Lemma filter_all {A} (Q : A → Prop) `{∀ x, Decision (Q x)} (l : list A) :
  (∀ x, x ∈ l → Q x) → filter Q l = l.
Proof.
  induction l as [|x l IH]; intros Hall; [done|].
  rewrite filter_cons, decide_True by (apply Hall; left).
  f_equal. apply IH. intros; apply Hall; by right.
Qed.

Lemma groupby_sum_total {K : Type} `{EqDecision K} (kvs : list (K * Qc)) :
  Qc_sum (snd <$> groupby_sum kvs) = Qc_sum (snd <$> kvs).
Proof.
  rewrite groupby_sum_eq, <-list_fmap_compose.
  pose proof (key_sum_partition (λ _ : K, True) kvs
                (remove_dups (fst <$> kvs)) (NoDup_remove_dups _)) as Hp.
  rewrite !filter_all in Hp by done. apply Hp.
  intros kv Hkv. rewrite elem_of_remove_dups. by apply list_elem_of_fmap_2.
Qed.

Lemma omap_ring_year_key (inter : list (IRow G)) :
  snd <$> omap ring_year_key inter
  = i_area <$> filter (λ r, is_Some (i_year r)) inter.
Proof.
  induction inter as [|r inter IH]; [done|].
  cbn [omap list_omap]. rewrite filter_cons. unfold ring_year_key at 1.
  destruct (i_year r) as [y|] eqn:Hy; cbn.
  - rewrite decide_True by eauto. by rewrite fmap_cons, <-IH.
  - rewrite decide_False by (by intros [??]). done.
Qed.

Lemma by_ring_sum (inter : list (IRow G)) :
  Qc_sum (snd <$> by_ring inter) = Qc_sum (i_area <$> inter).
Proof.
  rewrite (Qc_sum_Permutation _ _
             (fmap_Permutation snd _ _ (by_ring_groups inter))).
  by rewrite groupby_sum_total, <-list_fmap_compose.
Qed.

(** X17. The aggregates lose no area: the totals table adds up to the
    area of all intersection features, the time-series table to the area of
    the features that have a year, and the totals table of 06 to the area
    in the time-series table it is computed from. *)
Theorem aggregates_conserve_area (inter : list (IRow G))
    (ts : list (string * Qc * Qc)) :
  Qc_sum (snd <$> by_ring inter) = Qc_sum (i_area <$> inter)
  ∧ Qc_sum (snd <$> by_ring_year inter)
    = Qc_sum (i_area <$> filter (λ r, is_Some (i_year r)) inter)
  ∧ Qc_sum (snd <$> by_ring_duckdb ts) = Qc_sum (snd <$> ts).
Proof.
  split; [|split].
  - apply by_ring_sum.
  - rewrite (Qc_sum_Permutation _ _
               (fmap_Permutation snd _ _ (by_ring_year_groups inter))).
    by rewrite groupby_sum_total, omap_ring_year_key.
  - unfold by_ring_duckdb.
    rewrite (Qc_sum_Permutation _ _
               (fmap_Permutation snd _ _ (merge_sort_Permutation _ _))).
    by rewrite groupby_sum_total, <-list_fmap_compose.
Qed.

(** *** Row order *)

Lemma ring_le_total : Total ring_le.
Proof. intros a b. unfold ring_le. apply (total String.le). Qed.

Lemma ring_le_trans : Transitive ring_le.
Proof. intros a b c. unfold ring_le. apply (transitivity (R:=String.le)). Qed.

Lemma area_desc_total : Total area_desc.
Proof. intros a b. unfold area_desc. destruct (total Qcle a.2 b.2); auto. Qed.

Lemma area_desc_trans : Transitive area_desc.
Proof. intros a b c ??. unfold area_desc in *. by etrans. Qed.

Lemma ring_year_le_total : Total ring_year_le.
Proof.
  intros a b. unfold ring_year_le.
  destruct (decide (a.1.1 = b.1.1)) as [Heq|Hne].
  - destruct (total Qcle a.1.2 b.1.2); [left|right]; right; by split.
  - destruct (total String.le a.1.1 b.1.1); [left|right]; left;
      (split; [congruence|done]).
Qed.

Lemma ring_year_le_trans : Transitive ring_year_le.
Proof.
  intros a b c. unfold ring_year_le.
  intros [[Hab Hle]|[Hab Hle]] [[Hbc Hle']|[Hbc Hle']].
  - left. split; [|by etrans]. intros Hac. rewrite <-Hac in Hle'.
    apply Hab. by apply (anti_symm String.le).
  - left. rewrite <-Hbc. by split.
  - left. rewrite Hab. by split.
  - right. split; [congruence|by etrans].
Qed.

Lemma year_ring_le_total : Total year_ring_le.
Proof.
  intros a b. unfold year_ring_le.
  destruct (Qclt_le_dec a.1.2 b.1.2) as [Hlt|Hle]; [by left; left|].
  destruct (Qclt_le_dec b.1.2 a.1.2) as [Hlt'|Hle']; [by right; left|].
  assert (a.1.2 = b.1.2) as Heq by (by apply Qcle_antisym).
  destruct (total String.le a.1.1 b.1.1); [left|right]; right; by split.
Qed.

Lemma year_ring_le_trans : Transitive year_ring_le.
Proof.
  intros a b c. unfold year_ring_le.
  intros [Hab|[Hab Hle]] [Hbc|[Hbc Hle']].
  - left. by etrans.
  - left. by rewrite <-Hbc.
  - left. by rewrite Hab.
  - right. split; [congruence|by etrans].
Qed.

Lemma by_ring_year_keys (inter : list (IRow G)) :
  NoDup (fst <$> by_ring_year inter).
Proof.
  rewrite (by_ring_year_groups inter), groupby_sum_keys.
  apply NoDup_remove_dups.
Qed.

Lemma by_ring_duckdb_keys (ts : list (string * Qc * Qc)) :
  NoDup (fst <$> by_ring_duckdb ts).
Proof.
  unfold by_ring_duckdb. rewrite merge_sort_Permutation, groupby_sum_keys.
  apply NoDup_remove_dups.
Qed.

(** X18. The time-series table is sorted by year and, within a year, by
    ring id, and has one row per ring and year; the totals table is sorted by
    decreasing area and has a row for exactly the rings that occur in the
    intersection; the totals table of 06 is sorted by ring id and has one
    row per ring. *)
Theorem aggregates_sorted (inter : list (IRow G))
    (ts : list (string * Qc * Qc)) :
  StronglySorted year_ring_le (by_ring_year inter)
  ∧ NoDup (fst <$> by_ring_year inter)
  ∧ StronglySorted area_desc (by_ring inter)
  ∧ (∀ ring, ring ∈ fst <$> by_ring inter ↔ ring ∈ i_ring <$> inter)
  ∧ StronglySorted ring_le (by_ring_duckdb ts)
  ∧ NoDup (fst <$> by_ring_duckdb ts).
Proof.
  pose proof year_ring_le_total. pose proof year_ring_le_trans.
  pose proof area_desc_total. pose proof area_desc_trans.
  pose proof ring_le_total. pose proof ring_le_trans.
  repeat split.
  - apply StronglySorted_merge_sort; apply _.
  - apply by_ring_year_keys.
  - apply StronglySorted_merge_sort; apply _.
  - rewrite (by_ring_groups inter), groupby_sum_keys, elem_of_remove_dups.
    by rewrite <-list_fmap_compose.
  - rewrite (by_ring_groups inter), groupby_sum_keys, elem_of_remove_dups.
    by rewrite <-list_fmap_compose.
  - apply StronglySorted_merge_sort; apply _.
  - apply by_ring_duckdb_keys.
Qed.

(** *** The order of the intersection features plays no part *)

Lemma key_sum_Permutation {K : Type} `{EqDecision K}
    (kvs kvs' : list (K * Qc)) k :
  kvs ≡ₚ kvs' → key_sum kvs k = key_sum kvs' k.
Proof.
  intros Hp. unfold key_sum. apply Qc_sum_Permutation.
  by rewrite Hp.
Qed.

Lemma groupby_sum_input_Permutation {K : Type} `{EqDecision K}
    (kvs kvs' : list (K * Qc)) :
  kvs ≡ₚ kvs' → groupby_sum kvs ≡ₚ groupby_sum kvs'.
Proof.
  intros Hp. apply groupby_sum_Permutation.
  - intros k. by rewrite Hp.
  - intros k. by apply key_sum_Permutation.
Qed.

Lemma NoDup_fst_eq {K V} (l : list (K * V)) (x y : K * V) :
  NoDup (fst <$> l) → x ∈ l → y ∈ l → x.1 = y.1 → x = y.
Proof.
  induction l as [|z l IH]; intros Hnd Hx Hy Hk.
  - by apply elem_of_nil in Hx.
  - rewrite fmap_cons in Hnd. apply NoDup_cons in Hnd as [Hz Hnd].
    apply elem_of_cons in Hx as [->|Hx]; apply elem_of_cons in Hy as [->|Hy].
    + done.
    + destruct Hz. rewrite Hk. by apply list_elem_of_fmap_2.
    + destruct Hz. rewrite <-Hk. by apply list_elem_of_fmap_2.
    + by apply IH.
Qed.

Lemma sort_by_key_unique {K V} (R : relation (K * V))
    `{∀ x y, Decision (R x y)} (l l' : list (K * V)) :
  Total R → Transitive R →
  (∀ x y, R x y → R y x → x.1 = y.1) →
  NoDup (fst <$> l) → l ≡ₚ l' →
  merge_sort R l = merge_sort R l'.
Proof.
  intros Htot Htrans Hanti Hnd Hp.
  apply (Sorted_unique_strong R).
  - intros x y Hx Hy Hxy Hyx.
    rewrite merge_sort_Permutation in Hx.
    rewrite merge_sort_Permutation, <-Hp in Hy.
    apply (NoDup_fst_eq l); auto.
  - by apply Sorted_merge_sort.
  - by apply Sorted_merge_sort.
  - by rewrite !merge_sort_Permutation.
Qed.

(** X19. Both aggregate tables depend on the intersection features only
    up to their order: a permutation of the features gives the same two
    tables, row for row. *)
Theorem aggregates_order_independent (inter inter' : list (IRow G)) :
  inter ≡ₚ inter' →
  by_ring_year inter = by_ring_year inter'
  ∧ by_ring inter = by_ring inter'.
Proof.
  intros Hp. split.
  - unfold by_ring_year. f_equal.
    apply sort_by_key_unique.
    + apply ring_year_le_total.
    + apply ring_year_le_trans.
    + intros [[r y] v] [[r' y'] v']. unfold ring_year_le. cbn.
      intros [[Hne Hle]|[-> Hle]] [[Hne' Hle']|[Heq Hle']]; try congruence.
      * destruct Hne. by apply (anti_symm String.le).
      * f_equal. by apply Qcle_antisym.
    + rewrite groupby_sum_keys. apply NoDup_remove_dups.
    + apply groupby_sum_input_Permutation. by rewrite Hp.
  - unfold by_ring. f_equal.
    apply sort_by_key_unique.
    + apply ring_le_total.
    + apply ring_le_trans.
    + intros [r v] [r' v']. unfold ring_le. cbn.
      intros. by apply (anti_symm String.le).
    + rewrite groupby_sum_keys. apply NoDup_remove_dups.
    + apply groupby_sum_input_Permutation. by rewrite Hp.
Qed.

(** *** Normalising the year *)

Lemma Qc_of_Z_num_den (z : Z) :
  Qnum (Qc_of_Z z) = z ∧ Qden (Qc_of_Z z) = 1%positive.
Proof.
  unfold Qc_of_Z, Q2Qc. cbn [this]. done.
Qed.



Lemma normalize_year_same (inter : list (IRow G)) :
  (λ r, (i_ring r, i_area r, i_geom r)) <$> normalize_year inter
  = (λ r, (i_ring r, i_area r, i_geom r)) <$> inter.
Proof.
  unfold normalize_year. case_decide; [|done].
  by rewrite <-list_fmap_compose.
Qed.

Lemma by_ring_normalize_year (inter : list (IRow G)) :
  by_ring (normalize_year inter) = by_ring inter.
Proof.
  unfold by_ring. do 3 f_equal.
  pose proof (normalize_year_same inter) as Hsame.
  apply (f_equal (fmap (λ t : string * Qc * G, (t.1.1, t.1.2)))) in Hsame.
  by rewrite <-!list_fmap_compose in Hsame.
Qed.




End AggregateMore.

(** * The geometry repair of 05 *)

Section FixGeomsFacts.
Context {P : Type} `{Countable P}.
Local Abbreviation Geom := (gset P) (only parsing).
Variable make_valid : Geom → Geom.
Variable explode_parts : Geom → list Geom.
Variable geom_type_of : Geom → geom_type.
Context {R : Type}.
Variable get : R → Geom.
Variable set : Geom → R → R.

Lemma elem_of_explode (gdf : list R) (r' : R) :
  r' ∈ explode explode_parts get set gdf
  ↔ ∃ r g, r ∈ gdf ∧ g ∈ explode_parts (get r) ∧ r' = set g r.
Proof.
  unfold explode. rewrite list_elem_of_bind. split.
  - intros (r & (g & -> & Hg)%list_elem_of_fmap & Hr). by exists r, g.
  - intros (r & g & Hr & Hg & ->). exists r. split; [|done].
    by apply (list_elem_of_fmap_2 (λ g, set g r)).
Qed.

(** X21. [_fix_geoms] returns polygons only, and every row it returns
    is a row of its input with the geometry replaced: the other attributes
    (ring id, year) are kept. *)
Theorem fix_geoms_only_polygons {A : Type} (attr : R → A) (gdf : list R) :
  (∀ g r, attr (set g r) = attr r) →
  Forall (λ r, geom_type_of (get r) = Polygon)
    (fix_geoms make_valid explode_parts geom_type_of get set gdf)
  ∧ ∀ r', r' ∈ fix_geoms make_valid explode_parts geom_type_of get set gdf →
      ∃ r, r ∈ gdf ∧ attr r' = attr r.
Proof.
  intros Hattr. unfold fix_geoms.
  set (valid := (λ r, set (make_valid (get r)) r) <$> gdf).
  set (polys := filter (λ r, geom_type_of (get r) ∈ [Polygon; MultiPolygon])
                  (explode explode_parts get set valid)).
  assert (∀ r', r' ∈ polys → ∃ r, r ∈ gdf ∧ attr r' = attr r) as Hpolys.
  { intros r' [_ Hr']%list_elem_of_filter.
    apply elem_of_explode in Hr' as (r1 & g & Hr1 & _ & ->).
    apply list_elem_of_fmap in Hr1 as (r & -> & Hr).
    exists r. split; [done|]. by rewrite !Hattr. }
  case_decide as Hmulti; split.
  - apply Forall_forall. by intros r [Hr _]%list_elem_of_filter.
  - intros r' [_ Hr']%list_elem_of_filter.
    apply elem_of_explode in Hr' as (r1 & g & Hr1 & _ & ->).
    destruct (Hpolys r1 Hr1) as (r & Hr & Heq).
    exists r. split; [done|]. by rewrite Hattr.
  - apply Forall_forall. intros r Hr.
    pose proof Hr as [Hty _]%list_elem_of_filter.
    apply elem_of_cons in Hty as [Hty|Hty]; [done|].
    apply list_elem_of_singleton in Hty.
    destruct Hmulti. apply Exists_exists. by exists r.
  - done.
Qed.

(** X22. On a frame whose geometries are all valid single polygons,
    [_fix_geoms] changes nothing. *)
Theorem fix_geoms_clean (gdf : list R) :
  (∀ r, set (get r) r = r) →
  (∀ r, r ∈ gdf → make_valid (get r) = get r
                  ∧ explode_parts (get r) = [get r]
                  ∧ geom_type_of (get r) = Polygon) →
  fix_geoms make_valid explode_parts geom_type_of get set gdf = gdf.
Proof.
  intros Hset Hclean. unfold fix_geoms.
  assert ((λ r, set (make_valid (get r)) r) <$> gdf = gdf) as ->.
  { rewrite <-(list_fmap_id gdf) at 2. apply list_fmap_ext.
    intros i r Hr%list_elem_of_lookup_2.
    destruct (Hclean r Hr) as (-> & _). apply Hset. }
  assert (explode explode_parts get set gdf = gdf) as ->.
  { unfold explode. induction gdf as [|r l IH]; [done|].
    cbn [mbind list_bind]. rewrite IH by (intros; apply Hclean; by right).
    destruct (Hclean r) as (_ & -> & _); [left|].
    cbn. by rewrite Hset. }
  rewrite filter_all.
  - rewrite decide_False; [done|].
    intros (r & Hr & Hty)%Exists_exists.
    destruct (Hclean r Hr) as (_ & _ & Hp). congruence.
  - intros r Hr. destruct (Hclean r Hr) as (_ & _ & ->). left.
Qed.

End FixGeomsFacts.

(** * The analysis script *)

Section AnalyzeFacts.
Context {P : Type} `{Countable P}.
Local Abbreviation Geom := (gset P) (only parsing).
Variable area : Geom → Qc.
Variable clip_raises : list Geom → Geom → bool.
Variable overlay_raises : list Geom → list Geom → bool.
Variable str_upper : string → string.
Variable null_text : string.

Lemma elem_of_filter_years (args : Args) (rows : list (ClassRow Geom)) r :
  r ∈ filter_years args rows →
  r ∈ rows
  ∧ (∀ lo, year_min args = Some lo → year_ge lo (f_year (c_feature r)))
  ∧ (∀ hi, year_max args = Some hi → year_le hi (f_year (c_feature r))).
Proof.
  unfold filter_years.
  destruct (year_min args) as [lo|], (year_max args) as [hi|];
    rewrite ?list_elem_of_filter; intros Hr.
  - destruct Hr as (Hhi & Hlo & Hr). repeat split; [done|..]; congruence.
  - destruct Hr as (Hlo & Hr). repeat split; [done|..]; congruence.
  - destruct Hr as (Hhi & Hr). repeat split; [done|..]; congruence.
  - repeat split; [done|..]; congruence.
Qed.

Lemma filter_class_sub (args : Args) cols (rows rows' : list (ClassRow Geom)) :
  result (filter_class str_upper null_text args cols rows) = Ok rows' →
  rows' ⊆ rows.
Proof.
  unfold filter_class. destruct (class_keep args) as [[|k ks]|].
  - by intros [= ->].
  - case_decide; cbn.
    + intros [= <-]. intros r. rewrite list_elem_of_filter. tauto.
    + by intros [= ->].
  - by intros [= ->].
Qed.

Lemma clip_by_ring_pieces (fs : list (Feature Geom))
    (rings : list (RingRow Geom)) parts :
  result (clip_by_ring clip_raises fs rings) = Ok parts →
  ∀ p, p ∈ concat parts → ∃ f, f ∈ fs ∧ p_year p = f_year f.
Proof.
  revert parts. induction rings as [|r rings IH]; intros parts.
  - intros [= <-] p Hp. by apply elem_of_nil in Hp.
  - cbn [clip_by_ring]. unfold gpd_clip at 1.
    destruct (clip_raises _ _); [done|].
    rewrite run_ret_bind, result_bind.
    destruct (result (clip_by_ring clip_raises fs rings)) as [parts'|] eqn:Hp';
      [|done].
    cbn [result mret Run_ret]. intros [= <-] p Hp.
    specialize (IH parts' eq_refl).
    case_decide; [by apply IH|].
    cbn [concat] in Hp. apply elem_of_app in Hp as [Hp|Hp]; [|by apply IH].
    apply list_elem_of_fmap in Hp as (f' & -> & Hf').
    unfold clip in Hf'. apply list_elem_of_omap in Hf' as (f & Hf & Hf').
    case_decide; [done|]. injection Hf' as <-. by exists f.
Qed.

Lemma intersect_analyze_ok (fs : list (Feature Geom))
    (rings : list (RingRow Geom)) pieces :
  result (intersect_analyze clip_raises overlay_raises fs rings) = Ok pieces →
  pieces ≠ [] ∧ ∀ p, p ∈ pieces → ∃ f, f ∈ fs ∧ p_year p = f_year f.
Proof.
  unfold intersect_analyze. rewrite !result_bind. cbn [result info].
  destruct (overlay_raises _ _).
  - rewrite !result_bind. cbn [result warn].
    destruct (result (clip_by_ring clip_raises fs rings)) as [parts|] eqn:Hparts;
      [|done].
    case_decide; [done|]. cbn [result mret Run_ret].
    case_decide as Hne; [done|]. cbn [result mret Run_ret].
    intros [= <-]. split; [done|]. by apply (clip_by_ring_pieces fs rings).
  - cbn [result mret Run_ret]. case_decide as Hne; [done|].
    cbn [result mret Run_ret]. intros [= <-]. split; [done|].
    intros p (f & r & Hf & _ & _ & ->)%elem_of_overlay. by exists f.
Qed.

Lemma main_analyze_ok rings_file prodes_file (args : Args) out :
  result (main_analyze area clip_raises overlay_raises str_upper null_text
            rings_file prodes_file args) = Ok out →
  ∃ year_col (inter : list (IRow Geom)),
    out = mkAnalysis
            (mkTable ["ring_id"; year_col; "area_ha"] (by_ring_year inter))
            (mkTable ["ring_id"; "area_ha"] (by_ring inter))
            (df_head (preview_n args) inter)
    ∧ inter ≠ []
    ∧ ∀ r, r ∈ inter →
        (∀ lo, year_min args = Some lo → year_ge lo (i_year r))
        ∧ (∀ hi, year_max args = Some hi → year_le hi (i_year r)).
Proof.
  unfold main_analyze.
  destruct rings_file as [rings|]; [|done].
  destruct prodes_file as [prodes|]; [|done].
  cbn [load_gdf]. rewrite !run_ret_bind.
  destruct (find_year_col (cp_columns prodes)) as [year_col|]; [|done].
  rewrite result_bind.
  destruct (result (filter_class _ _ _ _ _)) as [rows|] eqn:Hrows; [|done].
  case_decide as Hne; [done|]. rewrite result_bind.
  destruct (result (intersect_analyze _ _ _ _)) as [pieces|] eqn:Hpieces;
    [|done].
  rewrite !result_bind. cbn [result info mret Run_ret]. intros [= <-].
  apply intersect_analyze_ok in Hpieces as [Hpne Hyears].
  apply filter_class_sub in Hrows.
  exists year_col, (add_area area <$> pieces). split; [done|]. split.
  - intros Hnil. by apply fmap_nil_inv in Hnil.
  - intros r (p & -> & Hp)%list_elem_of_fmap. cbn [add_area i_year].
    destruct (Hyears p Hp) as (f & Hf & ->).
    apply list_elem_of_fmap in Hf as (row & -> & Hrow).
    apply Hrows, elem_of_filter_years in Hrow as (_ & Hlo & Hhi). done.
Qed.

Lemma by_ring_year_row (inter : list (IRow Geom)) t :
  t ∈ by_ring_year inter → ∃ r, r ∈ inter ∧ i_year r = Some t.1.2.
Proof.
  rewrite (by_ring_year_groups inter), groupby_sum_eq.
  intros (k & -> & Hk)%list_elem_of_fmap. cbn [fst snd].
  rewrite elem_of_remove_dups in Hk.
  apply list_elem_of_fmap in Hk as (kv & -> & Hkv).
  apply list_elem_of_omap in Hkv as (r & Hr & Hkey).
  unfold ring_year_key in Hkey. destruct (i_year r) as [y|] eqn:Hy; [|done].
  cbn in Hkey. injection Hkey as <-. by exists r.
Qed.

(** X23. When the analysis script succeeds, its totals table is not
    empty, every year in its time-series table lies within the requested
    bounds, and, when a bound is given, every ring's total is, with exact
    sums, the sum of its time-series rows. *)
Theorem analyze_year_window rings_file prodes_file (args : Args) out :
  result (main_analyze area clip_raises overlay_raises str_upper null_text
            rings_file prodes_file args) = Ok out →
  rows (g_tot out) ≠ []
  ∧ (∀ lo t, year_min args = Some lo → t ∈ rows (g_year out) →
       Qc_of_Z lo ≤ t.1.2)
  ∧ (∀ hi t, year_max args = Some hi → t ∈ rows (g_year out) →
       t.1.2 ≤ Qc_of_Z hi)
  ∧ (is_Some (year_min args) ∨ is_Some (year_max args) →
     ∀ ring, total_for ring (rows (g_tot out))
             = summed_over_year ring (rows (g_year out))).
Proof.
  intros (year_col & inter & -> & Hne & Hyears)%main_analyze_ok.
  cbn [g_tot g_year rows]. split; [|split; [|split]].
  - intros Hnil. destruct inter as [|r inter]; [done|].
    assert (i_ring r ∈ fst <$> by_ring (r :: inter)) as Hin.
    { rewrite (by_ring_groups (r :: inter)), groupby_sum_keys.
      rewrite elem_of_remove_dups, <-list_fmap_compose. left. }
    rewrite Hnil in Hin. by apply elem_of_nil in Hin.
  - intros lo t Hlo (r & Hr & Hy)%by_ring_year_row.
    destruct (Hyears r Hr) as [Hge _]. specialize (Hge lo Hlo).
    by rewrite Hy in Hge.
  - intros hi t Hhi (r & Hr & Hy)%by_ring_year_row.
    destruct (Hyears r Hr) as [_ Hle]. specialize (Hle hi Hhi).
    by rewrite Hy in Hle.
  - intros Hbound ring.
    assert (Forall (λ r, is_Some (i_year r)) inter) as Hall.
    { apply Forall_forall. intros r Hr. destruct (Hyears r Hr) as [Hge Hle].
      destruct Hbound as [[lo Hlo]|[hi Hhi]].
      - specialize (Hge lo Hlo). by destruct (i_year r).
      - specialize (Hle hi Hhi). by destruct (i_year r). }
    rewrite summed_over_year_rows by done.
    by rewrite (by_ring_groups inter), total_for_groupby.
Qed.

(** X24. The analysis script stops with a fatal error, and writes
    nothing, when the year window is empty ([--year-min] above
    [--year-max]), when no feature is left after the filters, and, unlike
    04_intersection.py, when the overlay succeeds with no piece. *)
Theorem analyze_fatal (rings : list (RingRow Geom))
    (prodes : ClassProdes Geom) (args : Args) (year_col : string) :
  find_year_col (cp_columns prodes) = Some year_col →
  let run := result (main_analyze area clip_raises overlay_raises str_upper
                       null_text (Some rings) (Some prodes) args) in
  let vazio := Raise (SystemExit
    "PRODES ficou vazio após filtros (ano/classe). Ajuste os parâmetros.") in
  (∀ lo hi, year_min args = Some lo → year_max args = Some hi →
     (hi < lo)%Z → run = vazio)
  ∧ (cp_rows prodes = [] → run = vazio)
  ∧ (∀ rows,
       result (filter_class str_upper null_text args (cp_columns prodes)
                 (filter_years args (cp_rows prodes))) = Ok rows →
       rows ≠ [] →
       overlay_raises (f_geom <$> (c_feature <$> rows)) (rr_geom <$> rings)
         = false →
       overlay (c_feature <$> rows) rings = [] →
       run = Raise (SystemExit
                      "Interseção resultou vazia. Verifique dados/CRS.")).
Proof.
  intros Hy run vazio.
  assert (∀ rows,
            result (filter_class str_upper null_text args (cp_columns prodes)
                      (filter_years args (cp_rows prodes))) = Ok rows →
            run = if decide (rows = []) then vazio
                  else match result (intersect_analyze clip_raises
                                       overlay_raises (c_feature <$> rows)
                                       rings) with
                       | Ok pieces =>
                           Ok (mkAnalysis
                                 (mkTable ["ring_id"; year_col; "area_ha"]
                                    (by_ring_year (add_area area <$> pieces)))
                                 (mkTable ["ring_id"; "area_ha"]
                                    (by_ring (add_area area <$> pieces)))
                                 (df_head (preview_n args)
                                    (add_area area <$> pieces)))
                       | Raise e => Raise e
                       end) as Hrun.
  { intros rows Hrows. unfold run, main_analyze. cbn [load_gdf].
    rewrite !run_ret_bind, Hy, result_bind, Hrows.
    case_decide; [done|]. rewrite result_bind.
    destruct (result (intersect_analyze _ _ _ _)); [|done].
    by rewrite !result_bind. }
  assert (filter_years args (cp_rows prodes) = [] → run = vazio) as Hempty.
  { intros Hnil.
    assert (∃ rows, result (filter_class str_upper null_text args
                              (cp_columns prodes)
                              (filter_years args (cp_rows prodes))) = Ok rows)
      as [rows Hrows].
    { unfold filter_class.
      destruct (class_keep args) as [[|k ks]|]; try by eexists.
      case_decide; by eexists. }
    rewrite (Hrun rows Hrows). rewrite decide_True; [done|].
    apply filter_class_sub in Hrows. rewrite Hnil in Hrows.
    destruct rows as [|r rows]; [done|].
    specialize (Hrows r ltac:(left)). by apply elem_of_nil in Hrows. }
  split; [|split].
  - intros lo hi Hlo Hhi Hlt. apply Hempty.
    destruct (filter_years args (cp_rows prodes)) as [|r rows] eqn:Hrows;
      [done|].
    assert (r ∈ filter_years args (cp_rows prodes)) as Hr
      by (rewrite Hrows; left).
    apply elem_of_filter_years in Hr as (_ & Hge & Hle).
    specialize (Hge lo Hlo). specialize (Hle hi Hhi).
    destruct (f_year (c_feature r)) as [y|]; [|done]. cbn in Hge, Hle.
    assert (Qc_of_Z lo ≤ Qc_of_Z hi) as Hc by (by etrans).
    unfold Qcle, Qle in Hc. cbn in Hc. lia.
  - intros Hnil. apply Hempty. unfold filter_years. rewrite Hnil.
    by destruct (year_min args), (year_max args).
  - intros rows Hrows Hne Hov Hnil. rewrite (Hrun rows Hrows).
    rewrite decide_False by done.
    unfold intersect_analyze. rewrite !result_bind. cbn [result info].
    rewrite Hov, Hnil. cbn [result mret Run_ret].
    by rewrite decide_True.
Qed.

End AnalyzeFacts.

(** * The queries of the dashboard *)

Section AppFacts.

Lemma app_where_all (ymin ymax : Z) (rings_sel : list string)
    (ts : list (string * Qc * Qc)) :
  (∀ t, t ∈ ts → (Qc_of_Z ymin ≤ t.1.2 ∧ t.1.2 ≤ Qc_of_Z ymax)
                 ∧ t.1.1 ∈ rings_sel) →
  app_where ymin ymax rings_sel ts = ts.
Proof. intros Hall. unfold app_where. by apply filter_all. Qed.

Lemma app_where_none (ymin ymax : Z) (rings_sel : list string)
    (ts : list (string * Qc * Qc)) :
  (ymax < ymin)%Z ∨ rings_sel = [] →
  app_where ymin ymax rings_sel ts = [].
Proof.
  intros Hnone. unfold app_where.
  induction ts as [|t ts IH]; [done|].
  rewrite filter_cons, decide_False; [done|].
  intros [[Hlo Hhi] Hin]. destruct Hnone as [Hlt| ->].
  - assert (Qc_of_Z ymin ≤ Qc_of_Z ymax) as Hc by (by etrans).
    unfold Qcle, Qle in Hc. cbn in Hc. lia.
  - by apply elem_of_nil in Hin.
Qed.

(** X25. In the dashboard, with exact sums, the total per ring is the sum
    of the rows of that ring in the filtered time series, and the grand
    total is the sum of the filtered time series; an empty year window or an
    empty ring selection gives two empty tables; a selection that covers
    every row gives the totals table of 06. *)
Theorem app_totals_consistent (ymin ymax : Z) (rings_sel : list string)
    (ts : list (string * Qc * Qc)) :
  (∀ ring, total_for ring (app_by_ring ymin ymax rings_sel ts)
           = summed_over_year ring (app_by_ring_year ymin ymax rings_sel ts))
  ∧ Qc_sum (snd <$> app_by_ring ymin ymax rings_sel ts)
    = Qc_sum (snd <$> app_by_ring_year ymin ymax rings_sel ts)
  ∧ ((ymax < ymin)%Z ∨ rings_sel = [] →
     app_by_ring_year ymin ymax rings_sel ts = []
     ∧ app_by_ring ymin ymax rings_sel ts = [])
  ∧ ((∀ t, t ∈ ts → (Qc_of_Z ymin ≤ t.1.2 ∧ t.1.2 ≤ Qc_of_Z ymax)
                    ∧ t.1.1 ∈ rings_sel) →
     app_by_ring ymin ymax rings_sel ts = by_ring_duckdb ts).
Proof.
  unfold app_by_ring, app_by_ring_year.
  split; [|split; [|split]].
  - intros ring. unfold summed_over_year.
    rewrite !merge_sort_Permutation, total_for_groupby.
    by rewrite key_sum_drop_year.
  - rewrite !merge_sort_Permutation, groupby_sum_total.
    by rewrite <-list_fmap_compose.
  - intros Hnone. by rewrite app_where_none.
  - intros Hall. by rewrite app_where_all.
Qed.

End AppFacts.

(** * From the features to the totals *)

Section AreaEndToEnd.
Context {P : Type} `{Countable P}.
Local Abbreviation Geom := (gset P) (only parsing).
Variable area : Geom → Qc.
Variable clip_raises : list Geom → Geom → bool.
Variable overlay_raises : list Geom → list Geom → bool.

Lemma outputs_total (year_col : string) (inter : list (Piece Geom))
    (fs : list (Feature Geom)) (rings : list (RingRow Geom)) :
  area_additive area →
  ForallOrdPairs (##) (rr_geom <$> rings) →
  inter ≡ₚ overlay fs rings →
  Qc_sum (snd <$> rows (by_ring_csv
            (if decide (inter = []) then empty_outputs year_col
             else save_outputs year_col
                    (normalize_year (add_area area <$> inter)))))
  = Qc_sum ((λ f, area (f_geom f ∩ ⋃ (rr_geom <$> rings)) / Qc_of_Z 10000)
              <$> fs).
Proof.
  intros Hadd Hdisj Hperm.
  rewrite <-(overlay_area_sum area fs rings Hadd Hdisj), <-Hperm.
  case_decide as Hnil.
  - by rewrite Hnil.
  - cbn [save_outputs by_ring_csv rows].
    by rewrite by_ring_normalize_year, by_ring_sum.
Qed.

(** X26. Whenever steps 4 to 7 of 04 (by the overlay or by its fallback)
    or the overlay part of 05 succeed on pairwise disjoint rings, the
    totals table they write adds up to the area, in hectares, of the part
    of the features that lies in the rings. *)
Theorem overlay_steps_area_conserved (year_col : string) (cols : list string)
    (fs : list (Feature Geom)) (rings : list (RingRow Geom))
    (out : Outputs Geom) :
  area_additive area →
  ForallOrdPairs (##) (rr_geom <$> rings) →
  result (overlay_steps_04 area clip_raises overlay_raises year_col fs rings)
    = Ok out
  ∨ result (overlay_steps_05 area overlay_raises cols fs rings) = Ok out →
  Qc_sum (snd <$> rows (by_ring_csv out))
  = Qc_sum ((λ f, area (f_geom f ∩ ⋃ (rr_geom <$> rings)) / Qc_of_Z 10000)
              <$> fs).
Proof.
  intros Hadd Hdisj [Hout|Hout].
  - unfold overlay_steps_04 in Hout. rewrite result_bind in Hout.
    destruct (result (intersect_04 _ _ _ _)) as [inter|] eqn:Hinter; [|done].
    apply intersect_04_ok in Hinter.
    rewrite <-(outputs_total year_col inter fs rings Hadd Hdisj Hinter).
    case_decide.
    + rewrite !result_bind in Hout. cbn [result warn info mret Run_ret] in Hout.
      by injection Hout as <-.
    + cbn [result mret Run_ret] in Hout. by injection Hout as <-.
  - unfold overlay_steps_05, gpd_overlay in Hout.
    destruct (overlay_raises _ _); [done|].
    rewrite run_ret_bind in Hout.
    destruct (decide (overlay fs rings = [])) as [Hnil|Hne].
    + rewrite result_bind in Hout. cbn [result warn mret Run_ret] in Hout.
      injection Hout as <-.
      rewrite <-(outputs_total "year" (overlay fs rings) fs rings Hadd Hdisj)
        by done.
      by rewrite decide_True.
    + destruct (find_year_col (overlay_columns cols)) as [yc|]; [|done].
      cbn [result mret Run_ret] in Hout. injection Hout as <-.
      rewrite <-(outputs_total yc (overlay fs rings) fs rings Hadd Hdisj)
        by done.
      by rewrite decide_False.
Qed.

End AreaEndToEnd.


(** * The AOI of 01 *)

Section PickRRFacts.
Context {P : Type} `{Countable P}.
Local Abbreviation Geom := (gset P) (only parsing).
Variable str_lower : string → string.
Variable str_upper : string → string.
Variable str_strip : string → string.
Variable str_contains : string → string → bool.
Variable null_text : string.

Lemma rows_where_sublist (ibge : UFFrame Geom) col test :
  rows_where null_text ibge col test `sublist_of` uf_rows ibge.
Proof. apply sublist_filter. Qed.

Lemma pick_any_column_Some (ibge : UFFrame Geom) cols aoi :
  pick_any_column str_lower str_contains null_text ibge cols = Some aoi →
  ∃ rr, rr ≠ [] ∧ rr `sublist_of` uf_rows ibge
    ∧ aoi = [unary_union (uf_geom <$> rr)].
Proof.
  induction cols as [|[col is_object] cols IH]; [done|].
  cbn [pick_any_column]. case_decide as Hrr; [done|].
  intros [= <-]. eexists. split; [done|]. split; [|done].
  destruct is_object; [apply rows_where_sublist|done].
Qed.

(** X27. When [pick_rr_from_ibge] finds Roraima, the AOI it returns has
    exactly one row, whose geometry is the union of the geometries of a
    non-empty selection of rows of the IBGE file; when a state-code column
    is found and some row has the code [RR], the selection is exactly those
    rows. *)
Theorem pick_rr_single_row (ibge : UFFrame Geom) :
  (∀ aoi,
     pick_rr_from_ibge str_lower str_upper str_strip str_contains null_text
       ibge = Some aoi →
     length aoi = 1%nat
     ∧ ∃ rr, rr ≠ [] ∧ rr `sublist_of` uf_rows ibge
         ∧ aoi = [unary_union (uf_geom <$> rr)])
  ∧ (∀ sigla,
       find_col str_lower (fst <$> uf_columns ibge) UF_SIGLA_CANDS
         = Some sigla →
       sigla ≠ "" →
       let rr := rows_where null_text ibge sigla
                   (λ s, bool_decide (str_strip (str_upper s) = "RR")) in
       rr ≠ [] →
       pick_rr_from_ibge str_lower str_upper str_strip str_contains null_text
         ibge = Some [unary_union (uf_geom <$> rr)]).
Proof.
  split.
  - intros aoi Hpick.
    assert (∃ rr, rr ≠ [] ∧ rr `sublist_of` uf_rows ibge
              ∧ aoi = [unary_union (uf_geom <$> rr)]) as Hsel.
    { unfold pick_rr_from_ibge in Hpick.
      case_decide as Hsigla.
      - case_decide as Hnome.
        + by eapply pick_any_column_Some.
        + injection Hpick as <-. eexists. split; [done|]. split; [|done].
          destruct (find_col _ _ UF_NOME_CANDS) as [nome|]; [|done].
          case_decide; [done|apply rows_where_sublist].
      - injection Hpick as <-. eexists. split; [done|]. split; [|done].
        destruct (find_col _ _ UF_SIGLA_CANDS) as [sigla|]; [|done].
        case_decide; [done|apply rows_where_sublist]. }
    split; [|done]. by destruct Hsel as (rr & _ & _ & ->).
  - intros sigla Hcol Hne rr Hrr. unfold pick_rr_from_ibge.
    rewrite Hcol. rewrite (decide_False (P:=sigla = "")) by done.
    fold rr. by rewrite decide_False by done.
Qed.

End PickRRFacts.

(** * The tables of the report *)

Section ReportFacts.

Lemma py_int_Z (z : Z) : py_int (Qc_of_Z z) = z.
Proof.
  unfold py_int. destruct (Qc_of_Z_num_den z) as [-> ->].
  apply Z.quot_1_r.
Qed.

Lemma sorted_head_last (l : list Qc) y0 y1 :
  head (merge_sort Qcle l) = Some y0 → last (merge_sort Qcle l) = Some y1 →
  ∀ y, y ∈ l → y0 ≤ y ∧ y ≤ y1.
Proof.
  intros Hhead Hlast y Hy.
  pose proof (StronglySorted_merge_sort Qcle l) as Hs.
  rewrite <-(merge_sort_Permutation Qcle) in Hy.
  split.
  - destruct (merge_sort Qcle l) as [|x l']; [done|].
    injection Hhead as ->. apply StronglySorted_cons in Hs as [Hall _].
    apply elem_of_cons in Hy as [->|Hy]; [done|].
    rewrite Forall_forall in Hall. by apply Hall.
  - apply last_Some in Hlast as [l' Hl']. rewrite Hl' in Hs, Hy.
    apply elem_of_app in Hy as [Hy|Hy%list_elem_of_singleton]; [|by subst].
    by apply (StronglySorted_app_1_elem_of _ _ _ _ _ Hs Hy), list_elem_of_singleton.
Qed.

Lemma filter_ext_elem {A} (Q1 Q2 : A → Prop) `{∀ x, Decision (Q1 x)}
    `{∀ x, Decision (Q2 x)} (l : list A) :
  (∀ x, x ∈ l → Q1 x ↔ Q2 x) → filter Q1 l = filter Q2 l.
Proof.
  induction l as [|x l IH]; intros Hext; [done|].
  rewrite !filter_cons, IH by (intros; apply Hext; by right).
  destruct (decide (Q1 x)) as [H1|H1].
  - by rewrite decide_True by (by apply (Hext x); [left|]).
  - rewrite decide_False; [done|]. intros H2. apply H1.
    by apply (Hext x); [left|].
Qed.

Lemma by_year_le_total : Total by_year_le.
Proof. intros a b. unfold by_year_le. apply (total Qcle). Qed.

(** X29. On a time-series table with whole-number years, the report
    clamps the requested years to the years of the table without losing a
    row: its rows are those whose year lies in the requested interval (all
    rows when none is requested); with exact sums, its per-ring and its
    per-year table both add up to the area of these rows.  On an empty table
    the report raises an exception. *)
Theorem report_tables_consistent (years : option (Z * Z))
    (ts : list (string * Qc * Qc)) (rep : ReportTables) :
  Forall (λ t, ∃ z, t.1.2 = Qc_of_Z z) ts →
  result (report_tables years ts) = Ok rep →
  rep_by_ring_year rep
    = match years with
      | Some (a, b) =>
          filter (λ t, Qc_of_Z a ≤ t.1.2 ∧ t.1.2 ≤ Qc_of_Z b) ts
      | None => ts
      end
  ∧ Qc_sum (snd <$> rep_by_ring rep) = Qc_sum (snd <$> rep_by_ring_year rep)
  ∧ Qc_sum (snd <$> rep_by_year rep) = Qc_sum (snd <$> rep_by_ring_year rep)
  ∧ ∃ e, result (report_tables years []) = Raise e.
Proof.
  intros Hint Hrep. unfold report_tables, year_range in Hrep.
  destruct (head (merge_sort Qcle ((λ t, t.1.2) <$> ts))) as [y0|] eqn:Hhead;
    [|done].
  destruct (last (merge_sort Qcle ((λ t, t.1.2) <$> ts))) as [y1|] eqn:Hlast;
    [|done].
  rewrite run_ret_bind in Hrep.
  pose proof (sorted_head_last _ y0 y1 Hhead Hlast) as Hrange.
  assert (∃ z0, y0 = Qc_of_Z z0) as [z0 ->].
  { assert (y0 ∈ (λ t, t.1.2) <$> ts) as Hin.
    { rewrite <-(merge_sort_Permutation Qcle).
      destruct (merge_sort Qcle _) as [|x l]; [done|].
      injection Hhead as ->. left. }
    apply list_elem_of_fmap in Hin as (t & -> & Ht).
    rewrite Forall_forall in Hint. by apply Hint. }
  assert (∃ z1, y1 = Qc_of_Z z1) as [z1 ->].
  { assert (y1 ∈ (λ t, t.1.2) <$> ts) as Hin.
    { rewrite <-(merge_sort_Permutation Qcle).
      apply last_Some in Hlast as [l' ->]. apply elem_of_app. right. left. }
    apply list_elem_of_fmap in Hin as (t & -> & Ht).
    rewrite Forall_forall in Hint. by apply Hint. }
  rewrite !py_int_Z in Hrep.
  assert (∀ a b, filter (λ t : string * Qc * Qc,
                           Qc_of_Z (z0 `max` a) ≤ t.1.2
                           ∧ t.1.2 ≤ Qc_of_Z (z1 `min` b)) ts
                 = filter (λ t, Qc_of_Z a ≤ t.1.2 ∧ t.1.2 ≤ Qc_of_Z b) ts)
    as Hclamp.
  { intros a b. apply filter_ext_elem. intros t Ht.
    destruct (Hrange t.1.2) as [Hlo Hhi];
      [by apply (list_elem_of_fmap_2 (λ t : string * Qc * Qc, t.1.2))|].
    rewrite Forall_forall in Hint. destruct (Hint t Ht) as [z Hz].
    rewrite Hz in *. rewrite <-!Z2Qc_inj_le in *. lia. }
  assert (filter (λ t : string * Qc * Qc,
                    Qc_of_Z z0 ≤ t.1.2 ∧ t.1.2 ≤ Qc_of_Z z1) ts = ts)
    as Hall.
  { apply filter_all. intros t Ht. apply Hrange.
    by apply (list_elem_of_fmap_2 (λ t : string * Qc * Qc, t.1.2)). }
  assert (rep_by_ring_year rep
          = match years with
            | Some (a, b) =>
                filter (λ t, Qc_of_Z a ≤ t.1.2 ∧ t.1.2 ≤ Qc_of_Z b) ts
            | None => ts
            end
          ∧ rep_by_ring rep
            = merge_sort ring_le
                (groupby_sum ((λ t, (t.1.1, t.2)) <$> rep_by_ring_year rep))
          ∧ rep_by_year rep
            = merge_sort by_year_le
                (groupby_sum ((λ t, (t.1.2, t.2)) <$> rep_by_ring_year rep)))
    as (Hrows & Hring & Hyear).
  { destruct years as [[a b]|]; cbn [result mret Run_ret] in Hrep;
      injection Hrep as <-; cbn [rep_by_ring_year rep_by_ring rep_by_year].
    - by rewrite Hclamp.
    - by rewrite Hall. }
  split; [done|]. split; [|split].
  - rewrite Hring, merge_sort_Permutation, groupby_sum_total.
    by rewrite <-list_fmap_compose.
  - rewrite Hyear, merge_sort_Permutation, groupby_sum_total.
    by rewrite <-list_fmap_compose.
  - by eexists.
Qed.

End ReportFacts.

(** * The further properties on concrete inputs *)

Section MoreExamples.

Lemma raster_area_additive : area_additive Raster.area.
Proof.
  split.
  { unfold Raster.area. rewrite size_empty. exact Z2Qc_inj_0. }
  intros g1 g2 Hd. unfold Raster.area.
  rewrite size_union by done.
  by rewrite Nat2Z.inj_add, Z.mul_add_distr_r, Z2Qc_inj_add.
Qed.

Lemma demo_rings_disjoint : ForallOrdPairs (##) (rr_geom <$> demo_rings).
Proof.
  repeat constructor. apply (bool_decide_unpack _). by vm_compute.
Qed.

Lemma demo_out_ok :
  result (main Raster.buffer [demo_aoi] demo_roads demo_dist 1) = Ok demo_out.
Proof. by vm_compute. Qed.

(** Witness of X1. *)
Lemma buffer_in_chunks_degenerate_witness :
  buffer_in_chunks Raster.buffer demo_roads [demo_aoi] (Qc_of_Z 5000) (-3)
    = mkRun [] (Ok None)
  ∧ buffer_in_chunks Raster.buffer [] [demo_aoi] (Qc_of_Z 5000) 4
    = mkRun [] (Ok None).
Proof.
  destruct (buffer_in_chunks_degenerate Raster.buffer demo_roads [demo_aoi]
              (Qc_of_Z 5000) (-3)) as (_ & Hneg & _).
  destruct (buffer_in_chunks_degenerate Raster.buffer demo_roads [demo_aoi]
              (Qc_of_Z 5000) 4) as (_ & _ & Hnone).
  split; [apply Hneg; lia|apply Hnone; lia].
Defined.

(** Witness of X2. *)
Lemma buffer_in_chunks_clipped_witness :
  Raster.cells 45 55 ≠ ∅
  ∧ Raster.cells 45 55 ⊆ unary_union [demo_aoi]
  ∧ Raster.cells 45 55
    ⊆ ⋃ ((λ r, Raster.buffer r (Qc_of_Z 5000)) <$> demo_roads).
Proof.
  apply (buffer_in_chunks_clipped Raster.buffer demo_roads [demo_aoi]
           (Qc_of_Z 5000) 1).
  by vm_compute.
Defined.

(** Witness of X3. *)
Lemma batches_cover_roads_witness :
  length (py_range0 3 2) = 2%nat
  ∧ log (buffer_in_chunks Raster.buffer demo_roads3 [demo_aoi]
           (Qc_of_Z 5000) 2)
    = [Info (MLote 0 2 3 (Qc_of_Z 5000)); Info (MLote 2 3 3 (Qc_of_Z 5000))].
Proof.
  destruct (batches_cover_roads Raster.buffer demo_roads3 [demo_aoi]
              (Qc_of_Z 5000) 2 ltac:(lia)) as (_ & _ & Hlen & Hlog).
  split; [exact Hlen|exact Hlog].
Defined.

(** Witness of X4. *)
Lemma buffers_nested_witness :
  ∃ o1 o2,
    result (buffer_in_chunks Raster.buffer demo_roads3 [demo_aoi]
              (Qc_of_Z 5000) 1) = Ok o1
    ∧ result (buffer_in_chunks Raster.buffer demo_roads3 [demo_aoi]
                (Qc_of_Z 10000) 2) = Ok o2
    ∧ geom_of o1 ⊆ geom_of o2.
Proof.
  apply (buffers_nested Raster.buffer).
  - exact raster_buffer_mono.
  - lia.
  - lia.
  - by apply Z2Qc_inj_le.
Defined.

(** Witness of X5. *)
Lemma rings_cover_aoi_witness :
  ⋃ (geometry <$> rings_file demo_out) = unary_union [demo_aoi]
  ∧ Forall (λ g, g ⊆ unary_union [demo_aoi]) (geometry <$> rings_file demo_out).
Proof.
  apply (rings_cover_aoi Raster.buffer [demo_aoi] demo_roads demo_dist 1).
  by vm_compute.
Defined.

(** Witness of X6. *)
Lemma main_without_buffers_witness :
  result (main Raster.buffer [demo_aoi] demo_roads demo_dist 0)
    = Raise (ValueError "range() arg 3 must not be zero")
  ∧ result (main Raster.buffer [far_aoi] far_roads [Qc_of_Z 5] 1)
    = Raise (SystemExit
        "Não foi possível gerar nenhum buffer. Verifique os dados de estradas.")
  ∧ result (main Raster.buffer [demo_aoi] [] demo_dist 20000)
    = Raise (SystemExit
        "Não foi possível gerar nenhum buffer. Verifique os dados de estradas.").
Proof.
  destruct (main_without_buffers Raster.buffer [demo_aoi] demo_roads
              demo_dist 20000) as (Hzero & _ & Hnone).
  destruct (main_without_buffers Raster.buffer [far_aoi] far_roads
              [Qc_of_Z 5] 1) as (_ & Hempty & _).
  split; [|split].
  - apply Hzero. by unfold demo_dist.
  - apply Hempty; [lia|].
    apply Forall_forall. apply (bool_decide_unpack _). by vm_compute.
  - apply Hnone. lia.
Defined.


(** Witness of X8. *)
Lemma buffer_files_distinct_witness :
  let ds := (λ f : string * (Qc * gset Z), f.2.1) <$> buffer_files demo_out in
  fst <$> buffer_files demo_out = buffer_path <$> ds
  ∧ (∀ d1 d2, buffer_path d1 = buffer_path d2 ↔ py_int d1 = py_int d2)
  ∧ (NoDup (fst <$> buffer_files demo_out) ↔ NoDup (py_int <$> ds)).
Proof.
  apply (buffer_files_distinct Raster.buffer [demo_aoi] demo_roads
           demo_dist 1).
  by vm_compute.
Defined.

(** Witness of X9. *)
Lemma filter_by_fclass_keeps_witness :
  (∃ roads', result (filter_by_fclass lower "None" demo_road_frame
                       ["Primary"; "TRACK"]) = Ok roads'
     ∧ road_columns roads' = road_columns demo_road_frame
     ∧ segments roads' `sublist_of` segments demo_road_frame
     ∧ ∀ s, s ∈ segments roads' ↔
         s ∈ segments demo_road_frame
         ∧ ∃ k, k ∈ ["Primary"; "TRACK"]
             ∧ lower (astype_str "None" (fclass s)) = lower k)
  ∧ ∃ w, filter_by_fclass lower "None" demo_road_frame_no_class ["Primary"]
         = mkRun [Warn w] (Ok demo_road_frame_no_class).
Proof.
  destruct (filter_by_fclass_keeps (P:=Z) lower "None" demo_road_frame
              ["Primary"; "TRACK"]) as [Hcol _].
  destruct (filter_by_fclass_keeps (P:=Z) lower "None"
              demo_road_frame_no_class ["Primary"]) as [_ Hnocol].
  split.
  - apply Hcol. apply (bool_decide_unpack _). by vm_compute.
  - apply Hnocol. apply (bool_decide_unpack _). by vm_compute.
Defined.

(** Witness of X10. *)
Lemma filter_by_fclass_stable_witness :
  result (filter_by_fclass lower "None" demo_road_frame
            ["Primary"; "primary"])
  = result (filter_by_fclass lower "None" demo_road_frame ["PRIMARY"])
  ∧ ∀ roads', result (filter_by_fclass lower "None" demo_road_frame
                        ["Primary"; "primary"]) = Ok roads' →
      result (filter_by_fclass lower "None" roads' ["PRIMARY"]) = Ok roads'.
Proof.
  apply (filter_by_fclass_stable (P:=Z) lower "None" demo_road_frame
           ["Primary"; "primary"] ["PRIMARY"]).
  intros x. change (x ∈ ["primary"; "primary"] ↔ x ∈ ["primary"]).
  rewrite !elem_of_cons. tauto.
Defined.

(** Witness of X11. *)
Lemma main_03_class_filter_witness :
  result (main_03 Raster.buffer lower "None" (Some [demo_aoi])
            (Some demo_road_frame) demo_dist 1 (Some ["motorway"]))
    = Raise (SystemExit
        "Filtro por fclass resultou em zero estradas. Remova o filtro ou verifique valores.")
  ∧ result (main_03 Raster.buffer lower "None" (Some [demo_aoi])
              (Some demo_road_frame_no_class) demo_dist 1 (Some ["motorway"]))
    = result (main_03 Raster.buffer lower "None" (Some [demo_aoi])
                (Some demo_road_frame_no_class) demo_dist 1 None).
Proof.
  destruct (main_03_class_filter Raster.buffer lower "None" [demo_aoi]
              demo_road_frame demo_dist 1 ["motorway"] ltac:(done))
    as (Hzero & _).
  destruct (main_03_class_filter Raster.buffer lower "None" [demo_aoi]
              demo_road_frame_no_class demo_dist 1 ["motorway"] ltac:(done))
    as (_ & _ & Hnocol & _).
  split.
  - apply Hzero.
    + apply (bool_decide_unpack _). by vm_compute.
    + apply Forall_forall. apply (bool_decide_unpack _). by vm_compute.
  - apply Hnocol.
    + apply (bool_decide_unpack _). by vm_compute.
    + done.
Defined.

(** Witness of X12: of two columns that match the second candidate, the
    last one is returned. *)
Lemma find_col_spec_witness :
  find_col lower ["NM_UF"; "Sigla_UF"; "SIGLA_UF"] ["SIGLA"; "sigla_uf"]
  = Some "SIGLA_UF".
Proof.
  apply (find_col_spec lower ["NM_UF"; "Sigla_UF"; "SIGLA_UF"]
           ["SIGLA"; "sigla_uf"]).
  exists ["SIGLA"], "sigla_uf", [], ["NM_UF"; "Sigla_UF"], [].
  split; [done|]. split; [|split; [done|split; [done|]]].
  - intros c' col ->%list_elem_of_singleton. revert col.
    apply Forall_forall. apply (bool_decide_unpack _). by vm_compute.
  - intros col Hcol. by apply elem_of_nil in Hcol.
Defined.

(** Witness of X13. *)
Lemma summary_year_col_vs_04_witness :
  summary_year_col (columns demo_prodes) = Some "YEAR"
  ∧ summary_year_col (columns demo_prodes_ano)
    = List.find (λ x, bool_decide (lower x = "ano")) (columns demo_prodes_ano)
  ∧ result (main_04 Raster.envelope Raster.area Raster.never Raster.never
              (Some demo_rings) (Some demo_prodes_ano))
    = Raise (SystemExit "Coluna 'year' não encontrada no PRODES.").
Proof.
  destruct (summary_year_col_vs_04 Raster.envelope Raster.area Raster.never
              Raster.never demo_rings demo_prodes) as [Hyear _].
  destruct (summary_year_col_vs_04 Raster.envelope Raster.area Raster.never
              Raster.never demo_rings demo_prodes_ano) as [_ Hano].
  split.
  - apply Hyear. reflexivity.
  - apply Hano. reflexivity.
Defined.

(** Witness of X15. *)
Lemma overlay_area_conserved_witness :
  Qc_sum (i_area <$> (add_area Raster.area <$> overlay demo_features demo_rings))
  = Qc_sum ((λ f, Raster.area (f_geom f) / Qc_of_Z 10000) <$> demo_features).
Proof.
  destruct (overlay_area_conserved Raster.area demo_features demo_rings
              raster_area_additive demo_rings_disjoint) as [_ Hcov].
  apply Hcov. apply Forall_forall. apply (bool_decide_unpack _).
  by vm_compute.
Defined.

(** Witness of X19. *)
Lemma aggregates_order_independent_witness :
  by_ring_year demo_inter = by_ring_year (reverse demo_inter)
  ∧ by_ring demo_inter = by_ring (reverse demo_inter).
Proof.
  apply (aggregates_order_independent demo_inter (reverse demo_inter)).
  symmetry. apply reverse_Permutation.
Defined.


(** Witness of X21. *)
Lemma fix_geoms_only_polygons_witness :
  Forall (λ r, Raster.geom_type_of (rr_geom r) = Polygon)
    (fix_geoms Raster.make_valid Raster.explode_parts Raster.geom_type_of
       rr_geom set_rr_geom demo_rings)
  ∧ ∀ r', r' ∈ fix_geoms Raster.make_valid Raster.explode_parts
                 Raster.geom_type_of rr_geom set_rr_geom demo_rings →
      ∃ r, r ∈ demo_rings ∧ rr_id r' = rr_id r.
Proof.
  apply (fix_geoms_only_polygons Raster.make_valid Raster.explode_parts
           Raster.geom_type_of rr_geom set_rr_geom rr_id demo_rings).
  by intros g r.
Defined.

(** Witness of X22. *)
Lemma fix_geoms_clean_witness :
  fix_geoms Raster.make_valid Raster.explode_parts Raster.geom_type_of
    rr_geom set_rr_geom demo_rings = demo_rings.
Proof.
  apply (fix_geoms_clean Raster.make_valid Raster.explode_parts
           Raster.geom_type_of rr_geom set_rr_geom demo_rings).
  - by intros [].
  - by intros r _.
Defined.

(** Witness of X23. *)
Lemma analyze_year_window_witness :
  rows (g_tot demo_analysis) ≠ []
  ∧ (∀ lo t, year_min demo_args = Some lo → t ∈ rows (g_year demo_analysis) →
       Qc_of_Z lo ≤ t.1.2)
  ∧ (∀ hi t, year_max demo_args = Some hi → t ∈ rows (g_year demo_analysis) →
       t.1.2 ≤ Qc_of_Z hi)
  ∧ (is_Some (year_min demo_args) ∨ is_Some (year_max demo_args) →
     ∀ ring, total_for ring (rows (g_tot demo_analysis))
             = summed_over_year ring (rows (g_year demo_analysis))).
Proof.
  apply (analyze_year_window Raster.area Raster.never Raster.never upper
           "None" (Some demo_rings) (Some demo_class_prodes) demo_args).
  by vm_compute.
Defined.

(** Witness of X24. *)
Lemma analyze_fatal_witness :
  result (main_analyze Raster.area Raster.never Raster.never upper "None"
            (Some demo_rings) (Some demo_class_prodes) demo_args_empty_window)
  = Raise (SystemExit
      "PRODES ficou vazio após filtros (ano/classe). Ajuste os parâmetros.").
Proof.
  destruct (analyze_fatal Raster.area Raster.never Raster.never upper "None"
              demo_rings demo_class_prodes demo_args_empty_window "year"
              eq_refl) as (Hwindow & _).
  apply (Hwindow 2024%Z 2019%Z); [reflexivity|reflexivity|lia].
Defined.

(** Witness of X25. *)
Lemma app_totals_consistent_witness :
  app_by_ring_year 2022 2019 ["0-5km"] (by_ring_year demo_inter) = []
  ∧ app_by_ring 2022 2019 ["0-5km"] (by_ring_year demo_inter) = []
  ∧ app_by_ring 2020 2021 ["0-5km"; ">5km"] (by_ring_year demo_inter)
    = by_ring_duckdb (by_ring_year demo_inter).
Proof.
  destruct (app_totals_consistent 2022 2019 ["0-5km"]
              (by_ring_year demo_inter)) as (_ & _ & Hnone & _).
  destruct (app_totals_consistent 2020 2021 ["0-5km"; ">5km"]
              (by_ring_year demo_inter)) as (_ & _ & _ & Hall).
  split; [apply Hnone; left; lia|].
  split; [apply Hnone; left; lia|].
  apply Hall. apply Forall_forall. apply (bool_decide_unpack _).
  by vm_compute.
Defined.

(** Witness of X26. *)
Lemma overlay_steps_area_conserved_witness :
  Qc_sum (snd <$> rows (by_ring_csv demo_outputs))
  = Qc_sum ((λ f, Raster.area (f_geom f ∩ ⋃ (rr_geom <$> demo_rings))
                  / Qc_of_Z 10000) <$> demo_features).
Proof.
  apply (overlay_steps_area_conserved Raster.area Raster.never Raster.never
           "YEAR" ["state"; "YEAR"; "geometry"] demo_features demo_rings).
  - exact raster_area_additive.
  - exact demo_rings_disjoint.
  - left. by vm_compute.
Defined.

(** Witness of X27. *)
Lemma pick_rr_single_row_witness :
  pick_rr_from_ibge lower upper strip contains "None" demo_ibge
  = Some [Raster.cells 0 100]
  ∧ length [Raster.cells 0 100] = 1%nat.
Proof.
  destruct (pick_rr_single_row lower upper strip contains "None" demo_ibge)
    as [Hone Hsigla].
  assert (pick_rr_from_ibge lower upper strip contains "None" demo_ibge
          = Some [Raster.cells 0 100]) as Hpick.
  { specialize (Hsigla "SIGLA_UF"). cbv zeta in Hsigla.
    rewrite Hsigla; [by vm_compute|by vm_compute|done|by vm_compute]. }
  split; [done|]. by apply (Hone _ Hpick).
Defined.

(** Witness of X29. *)
Lemma report_tables_consistent_witness :
  rep_by_ring_year demo_report
    = filter (λ t, Qc_of_Z 2019 ≤ t.1.2 ∧ t.1.2 ≤ Qc_of_Z 2020) demo_ts
  ∧ Qc_sum (snd <$> rep_by_ring demo_report)
    = Qc_sum (snd <$> rep_by_ring_year demo_report)
  ∧ Qc_sum (snd <$> rep_by_year demo_report)
    = Qc_sum (snd <$> rep_by_ring_year demo_report)
  ∧ ∃ e, result (report_tables (Some (2019, 2020)%Z) []) = Raise e.
Proof.
  apply (report_tables_consistent (Some (2019, 2020)%Z) demo_ts demo_report).
  - unfold demo_ts. repeat constructor; by eexists.
  - by vm_compute.
Defined.

End MoreExamples.
